(** * Document history store and chat transcript of the accounting assistant

    A shallow embedding of [hooks/useDocumentHistory] (the per-document
    undo/redo store), of the content gateway [handleDocumentContentChange]
    of the application controller, and of the transcript operations of
    [hooks/useChatLogic], followed by the properties of the specification.

    Conventions of the embedding.
    - React state is threaded explicitly: an updater passed to a state
      setter is a function from the previous state to the next one, and the
      state threaded is the one the updaters give, applied in the order of
      the calls. React runs an updater inside the call of the setter only
      when the hook is idle (no update is pending); otherwise it queues it
      and runs it at the next render, when the caller has returned. This
      shows in [undo] and [redo] only, which return a variable that their
      updater assigns: they take [eager], true when React runs the updater
      inside the call, and return a pair.
    - [Record<string, DocumentHistoryEntry>] is a [gmap string _]; document
      ids are the strings made by [generateId], none of which names a
      property that every object inherits.
    - A JavaScript [number] used as an index is a [Z]; a read outside an
      array is [undefined], here [None].
    - A [Date] is its epoch time in milliseconds, a [Z] (no invalid date);
      the clock and the id generator are explicit arguments.
    - An asynchronous operation is two steps, one up to the call of the
      assistant and one from its answer on; the answer is an argument of
      the second step. *)

From Stdlib Require Import ZArith Lia.
From stdpp Require Import gmap strings list sorting pretty.

Local Open Scope Z_scope.

(** ** JavaScript array primitives *)

(** [arr[i]] for a numeric index. *)
Definition js_index {A} (arr : list A) (i : Z) : option A :=
  if decide (0 <= i) then arr !! Z.to_nat i else None.

(** [arr.slice(0, e)]: a negative [e] counts from the end, and the bound is
    clamped to the array. *)
Definition js_slice_upto {A} (arr : list A) (e : Z) : list A :=
  let len := Z.of_nat (length arr) in
  let k := if decide (e < 0) then Z.max (len + e) 0 else Z.min e len in
  take (Z.to_nat k) arr.

(** [arr.slice(-n)]: the last [n] elements, the whole array if it is
    shorter. *)
Definition js_slice_last {A} (arr : list A) (n : Z) : list A :=
  let len := Z.of_nat (length arr) in
  drop (Z.to_nat (Z.max (len - n) 0)) arr.

(** ** The history store: hooks/useDocumentHistory *)

Definition MAX_HISTORY_STEPS : Z := 50.

Record DocumentHistoryEntry := {
  history : list string;
  currentIndex : Z
}.

Abbreviation Histories := (gmap string DocumentHistoryEntry).

Definition freshEntry (content : string) : DocumentHistoryEntry :=
  {| history := [content]; currentIndex := 0 |}.

Definition initializeHistory (fileId initialContent : string)
    (prev : Histories) : Histories :=
  match prev !! fileId with
  | None => <[fileId := freshEntry initialContent]> prev
  | Some e =>
      if decide (js_index (history e) (Z.of_nat (length (history e)) - 1)
                 = Some initialContent)
      then prev
      else <[fileId := freshEntry initialContent]> prev
  end.

Definition addHistoryStep (fileId newContent : string)
    (prevHistories : Histories) : Histories :=
  let currentFileHistory :=
    default {| history := [""%string]; currentIndex := -1 |}
            (prevHistories !! fileId) in
  if decide (0 <= currentIndex currentFileHistory
             ∧ js_index (history currentFileHistory)
                        (currentIndex currentFileHistory) = Some newContent)
  then prevHistories
  else
    let newHistoryArray :=
      js_slice_upto (history currentFileHistory)
                    (currentIndex currentFileHistory + 1) ++ [newContent] in
    let newHistoryArray :=
      if decide (MAX_HISTORY_STEPS < Z.of_nat (length newHistoryArray))
      then js_slice_last newHistoryArray MAX_HISTORY_STEPS
      else newHistoryArray in
    <[fileId := {| history := newHistoryArray;
                   currentIndex := Z.of_nat (length newHistoryArray) - 1 |}]>
      prevHistories.

(** [undo]: the state its updater gives, and what the call returns. The
    call returns [newContent], which is [undefined] until the updater
    assigns it: the snapshot is returned when React runs the updater inside
    the call ([eager]), and [undefined] when the updater is queued, though
    the cursor moves all the same at the next render. *)
Definition undo (eager : bool) (fileId : string) (prev : Histories)
    : Histories * option string :=
  match prev !! fileId with
  | Some historyEntry =>
      if decide (0 < currentIndex historyEntry) then
        let newIndex := currentIndex historyEntry - 1 in
        (<[fileId := {| history := history historyEntry;
                        currentIndex := newIndex |}]> prev,
         if eager then js_index (history historyEntry) newIndex else None)
      else (prev, None)
  | None => (prev, None)
  end.

(** [redo], like [undo]. *)
Definition redo (eager : bool) (fileId : string) (prev : Histories)
    : Histories * option string :=
  match prev !! fileId with
  | Some historyEntry =>
      if decide (currentIndex historyEntry
                 < Z.of_nat (length (history historyEntry)) - 1) then
        let newIndex := currentIndex historyEntry + 1 in
        (<[fileId := {| history := history historyEntry;
                        currentIndex := newIndex |}]> prev,
         if eager then js_index (history historyEntry) newIndex else None)
      else (prev, None)
  | None => (prev, None)
  end.

Record HistoryState := { canUndo : bool; canRedo : bool }.

(** [fileId] is [string | null]; [!fileId] also holds for the empty string. *)
Definition getHistoryState (fileId : option string)
    (documentHistories : Histories) : HistoryState :=
  match fileId with
  | None => {| canUndo := false; canRedo := false |}
  | Some fid =>
      if decide (fid = ""%string)
      then {| canUndo := false; canRedo := false |}
      else
        match documentHistories !! fid with
        | None => {| canUndo := false; canRedo := false |}
        | Some e =>
            {| canUndo := bool_decide (0 < currentIndex e);
               canRedo := bool_decide
                 (currentIndex e < Z.of_nat (length (history e)) - 1) |}
        end
  end.

Definition deleteFileHistory (fileId : string) (prev : Histories)
    : Histories :=
  delete fileId prev.

Definition resetFileHistory (fileId content : string) (prev : Histories)
    : Histories :=
  <[fileId := freshEntry content]> prev.

(** ** Files, messages and notifications: types *)

Module AppFile.
Record t := {
  id : string;
  name : string;
  folderId : option string;
  content : string;
  createdAt : Z;
  deletedAt : option Z
}.

Definition withContent (f : t) (newContent : string) : t :=
  {| id := id f; name := name f; folderId := folderId f;
     content := newContent; createdAt := createdAt f;
     deletedAt := deletedAt f |}.
End AppFile.

Module ChatMessage.
Inductive Sender := user | ai.

Record InlineData := { data : string; mimeType : string }.
Record ImagePart := { inlineData : InlineData }.

Record t := {
  id : string;
  sender : Sender;
  text : string;
  timestamp : Z;
  imagePreviewUrl : option string;
  imagePart : option ImagePart;
  isStreaming : option bool;
  fullText : option string
}.

(** [{ id, sender: 'user', text, timestamp, imagePart, imagePreviewUrl }] *)
Definition userMessage (newId messageText : string) (now : Z)
    (part : option ImagePart) (previewUrl : option string) : t :=
  {| id := newId; sender := user; text := messageText; timestamp := now;
     imagePreviewUrl := previewUrl; imagePart := part;
     isStreaming := None; fullText := None |}.

(** [{ id, sender: 'ai', text, timestamp }] *)
Definition aiMessage (newId msgText : string) (now : Z) : t :=
  {| id := newId; sender := ai; text := msgText; timestamp := now;
     imagePreviewUrl := None; imagePart := None;
     isStreaming := None; fullText := None |}.
End ChatMessage.

#[global] Instance Sender_eq_dec : EqDecision ChatMessage.Sender.
Proof. solve_decision. Defined.

Inductive AISuggestionType := DOCUMENT_UPDATE | CHAT_REPLY.

#[global] Instance AISuggestionType_eq_dec : EqDecision AISuggestionType.
Proof. solve_decision. Defined.

(** [new_document_content] is a string or [null]. *)
Record AIResponse := {
  action_type : AISuggestionType;
  new_document_content : option string;
  chat_message : string
}.

Inductive NotificationType := success | error | info.

Record NotificationContent := {
  type : NotificationType;
  message : string;
  title : option string
}.

(** ** The transcript: hooks/useChatLogic *)

(** [list.sort((a, b) => a.timestamp - b.timestamp)]. The sort of an array
    is stable, so on this comparator its result is the one stable sorted
    arrangement; it is computed here by insertion from the right. *)
Fixpoint insertByTimestamp (m : ChatMessage.t) (l : list ChatMessage.t)
    : list ChatMessage.t :=
  match l with
  | [] => [m]
  | y :: ys =>
      if decide (ChatMessage.timestamp m <= ChatMessage.timestamp y)
      then m :: y :: ys
      else y :: insertByTimestamp m ys
  end.

Definition sortByTimestamp (l : list ChatMessage.t) : list ChatMessage.t :=
  foldr insertByTimestamp [] l.

(** [list.findIndex(msg => msg.id === wanted)], [None] for [-1]. *)
Definition findIndexById (wanted : string) (l : list ChatMessage.t)
    : option nat :=
  fst <$> list_find (λ msg, ChatMessage.id msg = wanted) l.

(** The initial transcript: the saved array, sorted, or the empty array. *)
Definition loadChatMessages (savedMessages : option (list ChatMessage.t))
    : list ChatMessage.t :=
  match savedMessages with
  | Some l => sortByTimestamp l
  | None => []
  end.

Definition addMessageToList (message : ChatMessage.t)
    (prev : list ChatMessage.t) : list ChatMessage.t :=
  sortByTimestamp (prev ++ [message]).

Definition deleteChatMessageList (messageId : string)
    (prev : list ChatMessage.t) : list ChatMessage.t :=
  sortByTimestamp (filter (λ msg, ChatMessage.id msg ≠ messageId) prev).

Definition quote : string := String (Ascii.ascii_of_nat 34) EmptyString.

Definition isWelcome (m : ChatMessage.t) : bool :=
  bool_decide (ChatMessage.sender m = ChatMessage.ai)
  && (String.prefix "Has abierto" (ChatMessage.text m)
      || String.prefix "Has creado y abierto" (ChatMessage.text m)).

Definition welcomeText (fileName : string) (isNewFile : bool) : string :=
  if isNewFile
  then "Has creado y abierto " +:+ quote +:+ fileName +:+ quote
       +:+ ". ¿En qué puedo ayudarte?"
  else "Has abierto " +:+ quote +:+ fileName +:+ quote
       +:+ ". ¿En qué puedo ayudarte?".

Definition addWelcomeMessageList (fileName : string) (isNewFile : bool)
    (newId : string) (now : Z) (prevMessages : list ChatMessage.t)
    : list ChatMessage.t :=
  let filteredMessages := filter (λ m, isWelcome m = false) prevMessages in
  let newMessage :=
    ChatMessage.aiMessage newId (welcomeText fileName isNewFile) now in
  sortByTimestamp (filteredMessages ++ [newMessage]).

(** The user message rewritten by an edit: text, timestamp and attachment
    are replaced, the other fields are kept. *)
Definition editedMessage (m : ChatMessage.t) (newText : string) (now : Z)
    (originalUserMessageImagePart : option ChatMessage.ImagePart)
    (originalUserMessageImagePreviewUrl : option string) : ChatMessage.t :=
  {| ChatMessage.id := ChatMessage.id m;
     ChatMessage.sender := ChatMessage.sender m;
     ChatMessage.text := newText;
     ChatMessage.timestamp := now;
     ChatMessage.imagePreviewUrl := originalUserMessageImagePreviewUrl;
     ChatMessage.imagePart := originalUserMessageImagePart;
     ChatMessage.isStreaming := ChatMessage.isStreaming m;
     ChatMessage.fullText := ChatMessage.fullText m |}.

(** The id of the reply to drop: that of the message right after the edited
    one when it was sent by the assistant. *)
Definition staleReplyId (userMessageIndex : nat)
    (tempUpdatedMessages : list ChatMessage.t) : option string :=
  match tempUpdatedMessages !! S userMessageIndex with
  | Some next =>
      if decide (ChatMessage.sender next = ChatMessage.ai)
      then Some (ChatMessage.id next) else None
  | None => None
  end.

(** The transcript of [editAndRegenerateMessage] before it is sorted and
    stored, up to the call of the assistant; [None] when the message is not
    found. An empty id is falsy, and then nothing is removed. *)
Definition editedTranscript (originalUserMessageId newText : string)
    (now : Z) (originalUserMessageImagePart : option ChatMessage.ImagePart)
    (originalUserMessageImagePreviewUrl : option string)
    (chatMessages : list ChatMessage.t) : option (list ChatMessage.t) :=
  match findIndexById originalUserMessageId chatMessages with
  | None => None
  | Some userMessageIndex =>
      let tempUpdatedMessages :=
        alter (λ m, editedMessage m newText now originalUserMessageImagePart
                      originalUserMessageImagePreviewUrl)
              userMessageIndex chatMessages in
      match staleReplyId userMessageIndex tempUpdatedMessages with
      | Some oldAiMessageIdToRemove =>
          if decide (oldAiMessageIdToRemove = ""%string)
          then Some tempUpdatedMessages
          else Some (filter (λ msg, ChatMessage.id msg ≠ oldAiMessageIdToRemove)
                            tempUpdatedMessages)
      | None => Some tempUpdatedMessages
      end
  end.

(** [finalMessages.splice(idx + 1, 0, reply)], or [push] when the edited
    message is gone: the transcript with the reply placed, not yet sorted. *)
Definition placeReply (originalUserMessageId : string)
    (reply : ChatMessage.t) (prev : list ChatMessage.t)
    : list ChatMessage.t :=
  match findIndexById originalUserMessageId prev with
  | Some updatedUserMessageIdx =>
      take (S updatedUserMessageIdx) prev ++ reply
        :: drop (S updatedUserMessageIdx) prev
  | None => prev ++ [reply]
  end.

Definition insertReply (originalUserMessageId : string)
    (reply : ChatMessage.t) (prev : list ChatMessage.t)
    : list ChatMessage.t :=
  sortByTimestamp (placeReply originalUserMessageId reply prev).

(** ** The application state and the content gateway *)

(** The state the hooks share: the files of [useFileSystem], the histories
    of [useDocumentHistory], the state of [useChatLogic], and the
    notifications shown so far, latest last. *)
Record AppState := {
  files : list AppFile.t;
  documentHistories : Histories;
  chatMessages : list ChatMessage.t;
  isAILoading : bool;
  isAICollaborating : bool;
  previousDocumentContentForUndo : option string;
  notifications : list NotificationContent
}.

Definition setContentState (fs : list AppFile.t) (hs : Histories)
    (st : AppState) : AppState :=
  {| files := fs; documentHistories := hs;
     chatMessages := chatMessages st; isAILoading := isAILoading st;
     isAICollaborating := isAICollaborating st;
     previousDocumentContentForUndo := previousDocumentContentForUndo st;
     notifications := notifications st |}.

Definition setChatMessages (ms : list ChatMessage.t) (st : AppState)
    : AppState :=
  {| files := files st; documentHistories := documentHistories st;
     chatMessages := ms; isAILoading := isAILoading st;
     isAICollaborating := isAICollaborating st;
     previousDocumentContentForUndo := previousDocumentContentForUndo st;
     notifications := notifications st |}.

Definition setIsAILoading (b : bool) (st : AppState) : AppState :=
  {| files := files st; documentHistories := documentHistories st;
     chatMessages := chatMessages st; isAILoading := b;
     isAICollaborating := isAICollaborating st;
     previousDocumentContentForUndo := previousDocumentContentForUndo st;
     notifications := notifications st |}.

Definition setIsAICollaborating (b : bool) (st : AppState) : AppState :=
  {| files := files st; documentHistories := documentHistories st;
     chatMessages := chatMessages st; isAILoading := isAILoading st;
     isAICollaborating := b;
     previousDocumentContentForUndo := previousDocumentContentForUndo st;
     notifications := notifications st |}.

Definition setPreviousDocumentContentForUndo (c : option string)
    (st : AppState) : AppState :=
  {| files := files st; documentHistories := documentHistories st;
     chatMessages := chatMessages st; isAILoading := isAILoading st;
     isAICollaborating := isAICollaborating st;
     previousDocumentContentForUndo := c;
     notifications := notifications st |}.

Definition showNotification (ty : NotificationType) (msg : string)
    (ttl : option string) (st : AppState) : AppState :=
  {| files := files st; documentHistories := documentHistories st;
     chatMessages := chatMessages st; isAILoading := isAILoading st;
     isAICollaborating := isAICollaborating st;
     previousDocumentContentForUndo := previousDocumentContentForUndo st;
     notifications :=
       notifications st ++ [{| type := ty; message := msg; title := ttl |}] |}.

Definition updateFileContentOnly (fileId newContent : string)
    (prevFiles : list AppFile.t) : list AppFile.t :=
  (λ f, if decide (AppFile.id f = fileId)
        then AppFile.withContent f newContent else f) <$> prevFiles.

(** [handleDocumentContentChange]: the stored content is replaced and the
    content is pushed on the history; an empty id is falsy and then nothing
    is done. *)
Definition handleDocumentContentChange (fileId newContent : string)
    (st : AppState) : AppState :=
  if decide (fileId = ""%string) then st
  else setContentState (updateFileContentOnly fileId newContent (files st))
                       (addHistoryStep fileId newContent (documentHistories st))
                       st.

Definition noActiveDocumentNote : string :=
  " (Nota: No hay un documento activo para aplicar cambios.)".

(** [sendNewMessage] from the answer of the assistant on: [aiResult] is
    [None] when the call threw. The timer that clears the collaboration
    flag 500 ms later is not part of the step. *)
Definition receiveAIResult (activeFile : option AppFile.t)
    (aiResult : option AIResponse) (newId : string) (now : Z)
    (st : AppState) : AppState :=
  match aiResult with
  | None =>
      let st := setChatMessages
        (addMessageToList
           (ChatMessage.aiMessage newId "Hubo un problema contactando a la IA."
                                  now)
           (chatMessages st)) st in
      setIsAILoading false st
  | Some r =>
      match action_type r, new_document_content r, activeFile with
      | DOCUMENT_UPDATE, Some newDocumentContent, Some f =>
          let st := setPreviousDocumentContentForUndo
                      (Some (AppFile.content f)) st in
          let st := setIsAICollaborating true st in
          let st := handleDocumentContentChange (AppFile.id f)
                      newDocumentContent st in
          let st := setChatMessages
            (addMessageToList
               (ChatMessage.aiMessage newId (chat_message r) now)
               (chatMessages st)) st in
          setIsAILoading false st
      | DOCUMENT_UPDATE, _, None =>
          let st := setChatMessages
            (addMessageToList
               (ChatMessage.aiMessage newId
                  (chat_message r +:+ noActiveDocumentNote) now)
               (chatMessages st)) st in
          setIsAILoading false st
      | _, _, _ =>
          let st := setChatMessages
            (addMessageToList
               (ChatMessage.aiMessage newId (chat_message r) now)
               (chatMessages st)) st in
          setIsAILoading false st
      end
  end.

(** [editAndRegenerateMessage] up to the call of the assistant. *)
Definition editAndRegenerateBegin (originalUserMessageId newText : string)
    (now : Z) (originalUserMessageImagePart : option ChatMessage.ImagePart)
    (originalUserMessageImagePreviewUrl : option string)
    (st : AppState) : AppState :=
  let st := setIsAILoading true st in
  let st := setPreviousDocumentContentForUndo None st in
  match editedTranscript originalUserMessageId newText now
          originalUserMessageImagePart originalUserMessageImagePreviewUrl
          (chatMessages st) with
  | None =>
      let st := showNotification error
                  "Mensaje original no encontrado para editar."
                  (Some "Error de Edición"%string) st in
      setIsAILoading false st
  | Some tempUpdatedMessages =>
      setChatMessages (sortByTimestamp tempUpdatedMessages) st
  end.

(** [editAndRegenerateMessage] from the answer of the assistant on. *)
Definition editAndRegenerateFinish (originalUserMessageId : string)
    (activeFile : option AppFile.t) (aiResult : option AIResponse)
    (newId : string) (now : Z) (st : AppState) : AppState :=
  match aiResult with
  | None =>
      let errorResponseMessage :=
        ChatMessage.aiMessage newId
          "Hubo un problema contactando a la IA durante la regeneración." now in
      let st := setChatMessages
        (insertReply originalUserMessageId errorResponseMessage
                     (chatMessages st)) st in
      setIsAILoading false st
  | Some r =>
      let '(replyText, st) :=
        match action_type r, new_document_content r, activeFile with
        | DOCUMENT_UPDATE, Some newDocumentContent, Some f =>
            let st := setPreviousDocumentContentForUndo
                        (Some (AppFile.content f)) st in
            let st := setIsAICollaborating true st in
            (chat_message r,
             handleDocumentContentChange (AppFile.id f) newDocumentContent st)
        | DOCUMENT_UPDATE, _, None =>
            (chat_message r +:+ noActiveDocumentNote, st)
        | _, _, _ => (chat_message r, st)
        end in
      let st := setChatMessages
        (insertReply originalUserMessageId
           (ChatMessage.aiMessage newId replyText now) (chatMessages st)) st in
      setIsAILoading false st
  end.

Definition deleteChatMessage (messageId : string) (st : AppState)
    : AppState :=
  let st := setChatMessages
              (deleteChatMessageList messageId (chatMessages st)) st in
  showNotification info "Mensaje eliminado." None st.

Definition undoAIDocumentChange (activeFile : option AppFile.t)
    (st : AppState) : AppState :=
  match activeFile, previousDocumentContentForUndo st with
  | Some f, Some previousContent =>
      let st := handleDocumentContentChange (AppFile.id f) previousContent st in
      let st := setPreviousDocumentContentForUndo None st in
      showNotification info "El último cambio de la IA ha sido deshecho." None st
  | _, _ => st
  end.

Definition addWelcomeMessage (fileName : string) (isNewFile : bool)
    (newId : string) (now : Z) (st : AppState) : AppState :=
  setChatMessages
    (addWelcomeMessageList fileName isNewFile newId now (chatMessages st)) st.

(** ** Notions used by the statements *)

(** The last [n] elements of a list. *)
Definition lastn {A} (n : nat) (l : list A) : list A :=
  drop (length l - n) l.

(** An entry whose cursor is on the last snapshot. *)
Definition tipEntry (h : list string) : DocumentHistoryEntry :=
  {| history := h; currentIndex := Z.of_nat (length h) - 1 |}.

(** The snapshot under the cursor of a document, if any. *)
Definition currentContent (fileId : string) (s : Histories) : option string :=
  e ← s !! fileId; js_index (history e) (currentIndex e).

(** The index invariant of an entry, and of a store. *)
Definition entryOk (e : DocumentHistoryEntry) : Prop :=
  0 <= currentIndex e < Z.of_nat (length (history e)).

Definition storeOk (s : Histories) : Prop :=
  ∀ fileId e, s !! fileId = Some e → entryOk e.

Definition storeCapped (s : Histories) : Prop :=
  ∀ fileId e, s !! fileId = Some e → (length (history e) ≤ 50)%nat.

(** A call of one of the operations that change the store. *)
Inductive HistoryOp :=
| OpInitialize (fileId content : string)
| OpPush (fileId content : string)
| OpUndo (eager : bool) (fileId : string)
| OpRedo (eager : bool) (fileId : string)
| OpReset (fileId content : string)
| OpDiscard (fileId : string).

Definition opId (op : HistoryOp) : string :=
  match op with
  | OpInitialize i _ | OpPush i _ | OpUndo _ i | OpRedo _ i
  | OpReset i _ | OpDiscard i => i
  end.

Definition runOp (op : HistoryOp) (s : Histories) : Histories :=
  match op with
  | OpInitialize i c => initializeHistory i c s
  | OpPush i c => addHistoryStep i c s
  | OpUndo eager i => (undo eager i s).1
  | OpRedo eager i => (redo eager i s).1
  | OpReset i c => resetFileHistory i c s
  | OpDiscard i => deleteFileHistory i s
  end.

(** The stores reached from the empty one, the state of a first start. *)
Inductive reachable : Histories → Prop :=
| reachable_empty : reachable ∅
| reachable_step op s : reachable s → reachable (runOp op s).

(** Pushing a sequence of contents, first to last. *)
Definition pushAll (fileId : string) (cs : list string) (s : Histories)
    : Histories :=
  foldl (λ acc c, addHistoryStep fileId c acc) s cs.

(** Calls of [undo], one for each flag of [eagers], with what each
    returned, first call first. *)
Fixpoint undoTimes (eagers : list bool) (fileId : string) (s : Histories)
    : Histories * list (option string) :=
  match eagers with
  | [] => (s, [])
  | eager :: rest =>
      let '(s1, r) := undo eager fileId s in
      let '(s2, rs) := undoTimes rest fileId s1 in
      (s2, r :: rs)
  end.

Fixpoint redoTimes (eagers : list bool) (fileId : string) (s : Histories)
    : Histories * list (option string) :=
  match eagers with
  | [] => (s, [])
  | eager :: rest =>
      let '(s1, r) := redo eager fileId s in
      let '(s2, rs) := redoTimes rest fileId s1 in
      (s2, r :: rs)
  end.

(** No content equals the one before it, [c0] being before the first. *)
Fixpoint changing (c0 : string) (cs : list string) : Prop :=
  match cs with
  | [] => True
  | c :: cs' => c0 ≠ c ∧ changing c cs'
  end.

(** [ChatMessage] timestamps ascend along the list. *)
Definition byTimestamp (a b : ChatMessage.t) : Prop :=
  ChatMessage.timestamp a <= ChatMessage.timestamp b.

Definition ascending (l : list ChatMessage.t) : Prop :=
  StronglySorted byTimestamp l.

(** [x] stands somewhere before [y] in [l]. *)
Definition precedes (x y : ChatMessage.t) (l : list ChatMessage.t) : Prop :=
  [x; y] `sublist_of` l.

(** ** The editor controls of the application controller *)

(** [handleUndoFromEditor]: the cursor of the active document moves back,
    and the stored content follows when [historyUndo] returns a snapshot,
    which it does only when React runs its updater inside the call
    ([eager]); no history step is added. An empty id is falsy. *)
Definition handleUndoFromEditor (eager : bool)
    (activeFileId : option string) (st : AppState) : AppState :=
  match activeFileId with
  | None => st
  | Some fileId =>
      if decide (fileId = ""%string) then st
      else
        let '(hs, newContent) := undo eager fileId (documentHistories st) in
        match newContent with
        | Some c => setContentState (updateFileContentOnly fileId c (files st))
                                    hs st
        | None => setContentState (files st) hs st
        end
  end.

Definition handleRedoFromEditor (eager : bool)
    (activeFileId : option string) (st : AppState) : AppState :=
  match activeFileId with
  | None => st
  | Some fileId =>
      if decide (fileId = ""%string) then st
      else
        let '(hs, newContent) := redo eager fileId (documentHistories st) in
        match newContent with
        | Some c => setContentState (updateFileContentOnly fileId c (files st))
                                    hs st
        | None => setContentState (files st) hs st
        end
  end.

(** The stored content of every file that has a history entry is the
    snapshot under the cursor of that entry. *)
Definition synced (fs : list AppFile.t) (hs : Histories) : Prop :=
  ∀ f e, f ∈ fs →
    hs !! AppFile.id f = Some e →
    js_index (history e) (currentIndex e) = Some (AppFile.content f).

Definition inSync (st : AppState) : Prop :=
  synced (files st) (documentHistories st).

(** ** The effect of the controller on a change of the active document *)

(** [files.find(f => f.id === activeFileId && !f.deletedAt)] *)
Definition findActiveFile (activeFileId : option string)
    (fs : list AppFile.t) : option AppFile.t :=
  match activeFileId with
  | None => None
  | Some i =>
      snd <$> list_find
        (λ f, AppFile.id f = i ∧ AppFile.deletedAt f = None) fs
  end.

(** The heuristic of the effect for a file just created: the first file
    with the id is less than a second old at [now], the value of
    [Date.now()]. *)
Definition isNewFileCreation (fileId : string) (now : Z)
    (fs : list AppFile.t) : bool :=
  match list_find (λ f, AppFile.id f = fileId) fs with
  | Some (_, f) => bool_decide (now - AppFile.createdAt f < 1000)
  | None => true
  end.

(** The effect that runs when the active document changes, as far as it
    acts on the state of the chat; what it does to the width of the chat
    panel is left out. [now] is [Date.now()], [stamp] the time given to the
    welcome message. *)
Definition activeFileChanged (activeFileId : option string) (now : Z)
    (newId : string) (stamp : Z) (st : AppState) : AppState :=
  match activeFileId with
  | None => setPreviousDocumentContentForUndo None st
  | Some i =>
      if decide (i = ""%string)
      then setPreviousDocumentContentForUndo None st
      else
        match findActiveFile activeFileId (files st) with
        | Some activeFile =>
            let st := setPreviousDocumentContentForUndo None st in
            addWelcomeMessage (AppFile.name activeFile)
              (isNewFileCreation i now (files st)) newId stamp st
        | None => st
        end
  end.

(** ** The start of a turn: [sendNewMessage] up to the call *)

(** [s.trim() === ''] for a string held as its UTF-8 bytes: the string is
    made of white space and line terminators only, which are U+0009 to
    U+000D, U+0020, U+00A0, U+1680, U+2000 to U+200A, U+2028, U+2029,
    U+202F, U+205F, U+3000 and U+FEFF. *)
Fixpoint trimIsEmpty (s : string) : bool :=
  match s with
  | EmptyString => true
  | String a s1 =>
      let x := Ascii.N_of_ascii a in
      if ((9 <=? x) && (x <=? 13) || (x =? 32))%N then trimIsEmpty s1
      else
        match s1 with
        | EmptyString => false
        | String b s2 =>
            let y := Ascii.N_of_ascii b in
            if ((x =? 194) && (y =? 160))%N then trimIsEmpty s2
            else
              match s2 with
              | EmptyString => false
              | String c s3 =>
                  let z := Ascii.N_of_ascii c in
                  if ((x =? 225) && (y =? 154) && (z =? 128)
                      || (x =? 226) && (y =? 128)
                         && ((128 <=? z) && (z <=? 138)
                             || (z =? 168) || (z =? 169) || (z =? 175))
                      || (x =? 226) && (y =? 129) && (z =? 159)
                      || (x =? 227) && (y =? 128) && (z =? 128)
                      || (x =? 239) && (y =? 187) && (z =? 191))%N
                  then trimIsEmpty s3
                  else false
              end
        end
  end.

(** [sendNewMessage] up to the call of the assistant: the two checks, then
    the message of the user is appended, the loading flag set and the
    snapshot for the undo of the assistant's change cleared. *)
Definition sendNewMessageBegin (messageText : string)
    (activeFile : option AppFile.t)
    (imagePart : option ChatMessage.ImagePart)
    (imagePreviewUrl : option string) (newId : string) (now : Z)
    (st : AppState) : AppState :=
  if trimIsEmpty messageText && bool_decide (imagePart = None)
  then showNotification info
         "Por favor, escribe un mensaje o adjunta una imagen."
         (Some "Mensaje Vacío"%string) st
  else if bool_decide (activeFile = None) && bool_decide (imagePart = None)
          && negb (trimIsEmpty messageText)
  then showNotification info
         "Por favor, abre un documento o adjunta una imagen para chatear."
         (Some "Contexto Requerido"%string) st
  else
    let userMessage :=
      ChatMessage.userMessage newId messageText now imagePart
                              imagePreviewUrl in
    let st := setChatMessages
                (addMessageToList userMessage (chatMessages st)) st in
    let st := setIsAILoading true st in
    setPreviousDocumentContentForUndo None st.

(** The messages that follow the edited one, once the stale reply is
    taken out: the first is dropped when the assistant sent it and its id
    is not empty. *)
Definition afterEdit (l2 : list ChatMessage.t) : list ChatMessage.t :=
  match l2 with
  | A :: l2' =>
      if decide (ChatMessage.sender A = ChatMessage.ai
                 ∧ ChatMessage.id A ≠ ""%string)
      then l2' else l2
  | [] => []
  end.


(** ** Folders and files: hooks/useFileSystem *)

Module Folder.
Record t := {
  id : string;
  name : string;
  parentId : option string;
  deletedAt : option Z
}.
End Folder.

Inductive ItemType := ItemFile | ItemFolder.

#[global] Instance ItemType_eq_dec : EqDecision ItemType.
Proof. solve_decision. Defined.

(** The state of [useFileSystem], with the history store its callbacks
    act on and the notifications shown so far, latest last. *)
Module Fs.
Record t := {
  folders : list Folder.t;
  files : list AppFile.t;
  activeFileId : option string;
  documentHistories : Histories;
  notifications : list NotificationContent
}.
End Fs.

Definition fsNotify (ty : NotificationType) (msg : string)
    (st : Fs.t) : Fs.t :=
  {| Fs.folders := Fs.folders st; Fs.files := Fs.files st;
     Fs.activeFileId := Fs.activeFileId st;
     Fs.documentHistories := Fs.documentHistories st;
     Fs.notifications :=
       Fs.notifications st
       ++ [{| type := ty; message := msg; title := None |}] |}.

Definition fileWithDeletedAt (f : AppFile.t) (d : option Z) : AppFile.t :=
  {| AppFile.id := AppFile.id f; AppFile.name := AppFile.name f;
     AppFile.folderId := AppFile.folderId f;
     AppFile.content := AppFile.content f;
     AppFile.createdAt := AppFile.createdAt f; AppFile.deletedAt := d |}.

Definition fileWithFolderId (f : AppFile.t) (p : option string) : AppFile.t :=
  {| AppFile.id := AppFile.id f; AppFile.name := AppFile.name f;
     AppFile.folderId := p; AppFile.content := AppFile.content f;
     AppFile.createdAt := AppFile.createdAt f;
     AppFile.deletedAt := AppFile.deletedAt f |}.

Definition fileWithName (f : AppFile.t) (n : string) : AppFile.t :=
  {| AppFile.id := AppFile.id f; AppFile.name := n;
     AppFile.folderId := AppFile.folderId f;
     AppFile.content := AppFile.content f;
     AppFile.createdAt := AppFile.createdAt f;
     AppFile.deletedAt := AppFile.deletedAt f |}.

Definition folderWithDeletedAt (f : Folder.t) (d : option Z) : Folder.t :=
  {| Folder.id := Folder.id f; Folder.name := Folder.name f;
     Folder.parentId := Folder.parentId f; Folder.deletedAt := d |}.

Definition folderWithParentId (f : Folder.t) (p : option string) : Folder.t :=
  {| Folder.id := Folder.id f; Folder.name := Folder.name f;
     Folder.parentId := p; Folder.deletedAt := Folder.deletedAt f |}.

Definition folderWithName (f : Folder.t) (n : string) : Folder.t :=
  {| Folder.id := Folder.id f; Folder.name := n;
     Folder.parentId := Folder.parentId f;
     Folder.deletedAt := Folder.deletedAt f |}.

(** [s.includes(needle)] *)
Definition includes (needle s : string) : bool :=
  if String.index 0 needle s is Some _ then true else false.

(** [Array.from(new Set(l))]: the first occurrence of each element, in
    order. *)
Definition dedupe (l : list string) : list string :=
  foldl (λ acc x, if decide (x ∈ acc) then acc else acc ++ [x]) [] l.

Definition createFolder (folderName : string) (parentId : option string)
    (newId : string) (st : Fs.t) : Fs.t :=
  let newFolder := {| Folder.id := newId; Folder.name := folderName;
                      Folder.parentId := parentId;
                      Folder.deletedAt := None |} in
  fsNotify success ("Carpeta " +:+ quote +:+ folderName +:+ quote +:+ " creada.")
    {| Fs.folders := Fs.folders st ++ [newFolder]; Fs.files := Fs.files st;
       Fs.activeFileId := Fs.activeFileId st;
       Fs.documentHistories := Fs.documentHistories st;
       Fs.notifications := Fs.notifications st |}.

(** [createFile]: [content] is [None] for [undefined], the file a user
    makes empty; the new file is returned with the state. *)
Definition createFile (fileName : string) (folderId : option string)
    (content : option string) (newId : string) (now : Z) (st : Fs.t)
    : Fs.t * AppFile.t :=
  let initialContent := default ""%string content in
  let newFile := {| AppFile.id := newId; AppFile.name := fileName;
                    AppFile.folderId := folderId;
                    AppFile.content := initialContent;
                    AppFile.createdAt := now; AppFile.deletedAt := None |} in
  let st1 :=
    {| Fs.folders := Fs.folders st; Fs.files := Fs.files st ++ [newFile];
       Fs.activeFileId := Fs.activeFileId st;
       Fs.documentHistories :=
         initializeHistory newId initialContent (Fs.documentHistories st);
       Fs.notifications := Fs.notifications st |} in
  match content with
  | None =>
      ({| Fs.folders := Fs.folders st1; Fs.files := Fs.files st1;
          Fs.activeFileId := Some newId;
          Fs.documentHistories := Fs.documentHistories st1;
          Fs.notifications := Fs.notifications st1 |}, newFile)
  | Some _ =>
      (fsNotify success
         ("Archivo " +:+ quote +:+ fileName +:+ quote +:+ " "
          +:+ (if includes "Copia de" fileName
               then "duplicado" else "subido y procesado") +:+ ".")
         st1, newFile)
  end.

Definition setActiveFileId (a : option string) (st : Fs.t) : Fs.t :=
  {| Fs.folders := Fs.folders st; Fs.files := Fs.files st;
     Fs.activeFileId := a;
     Fs.documentHistories := Fs.documentHistories st;
     Fs.notifications := Fs.notifications st |}.

Definition selectFile (fileId : option string) (st : Fs.t) : Fs.t :=
  match fileId with
  | None => setActiveFileId None st
  | Some i =>
      match list_find (λ f, AppFile.id f = i ∧ AppFile.deletedAt f = None)
                      (Fs.files st) with
      | Some (_, selectedFile) =>
          {| Fs.folders := Fs.folders st; Fs.files := Fs.files st;
             Fs.activeFileId := Some i;
             Fs.documentHistories :=
               initializeHistory i (AppFile.content selectedFile)
                                 (Fs.documentHistories st);
             Fs.notifications := Fs.notifications st |}
      | None => setActiveFileId None st
      end
  end.

(** The ids of the folders, and of the files, right under a folder. *)
Definition childFolderIds (currentFolders : list Folder.t)
    (currentFolderId : string) : list string :=
  Folder.id <$> filter (λ f, Folder.parentId f = Some currentFolderId)
                       currentFolders.

Definition childFileIds (currentFiles : list AppFile.t)
    (currentFolderId : string) : list string :=
  AppFile.id <$> filter (λ f, AppFile.folderId f = Some currentFolderId)
                        currentFiles.

(** The loop of [getAllDescendantAndSelfIds]: one round takes the folder at
    the head of the queue and appends the folders and the files right under
    it. [fuel] bounds the number of rounds; [None] when it runs out. *)
Fixpoint descend (fuel : nat) (q folderIds fileIds : list string)
    (currentFolders : list Folder.t) (currentFiles : list AppFile.t)
    : option (list string * list string) :=
  match q with
  | [] => Some (fileIds, folderIds)
  | currentFolderId :: q' =>
      match fuel with
      | O => None
      | S fuel' =>
          let childFolders :=
            childFolderIds currentFolders currentFolderId in
          let childFiles := childFileIds currentFiles currentFolderId in
          descend fuel' (q' ++ childFolders) (folderIds ++ childFolders)
            (fileIds ++ childFiles) currentFolders currentFiles
      end
  end.

(** The ids of the files and of the folders, in that order. An item type
    that is not ['file'], a missing one too, is taken as a folder. *)
Definition getAllDescendantAndSelfIds (fuel : nat) (itemId : string)
    (itemType : option ItemType) (currentFolders : list Folder.t)
    (currentFiles : list AppFile.t) : option (list string * list string) :=
  match itemType with
  | Some ItemFile => Some (dedupe [itemId], dedupe [])
  | _ =>
      '(fileIds, folderIds) ←
        descend fuel [itemId] [itemId] [] currentFolders currentFiles;
      Some (dedupe fileIds, dedupe folderIds)
  end.

(** The [forEach] over the items of a bulk operation: the ids found for
    each item, appended. *)
Fixpoint collectIds (fuel : nat) (itemIds : list string)
    (itemTypes : list ItemType) (index : nat)
    (currentFolders : list Folder.t) (currentFiles : list AppFile.t)
    : option (list string * list string) :=
  match itemIds with
  | [] => Some ([], [])
  | itemId :: rest =>
      '(descFiles, descFolders) ←
        getAllDescendantAndSelfIds fuel itemId (itemTypes !! index)
          currentFolders currentFiles;
      '(moreFiles, moreFolders) ←
        collectIds fuel rest itemTypes (S index) currentFolders currentFiles;
      Some (descFiles ++ moreFiles, descFolders ++ moreFolders)
  end.

Definition clearActiveIfIn (ids : list string) (st : Fs.t) : option string :=
  match Fs.activeFileId st with
  | Some a =>
      if decide (a ≠ ""%string ∧ a ∈ ids) then None else Some a
  | None => None
  end.

Definition deleteItems (fuel : nat) (itemIds : list string)
    (itemTypes : list ItemType) (now : Z) (st : Fs.t) : option Fs.t :=
  '(allFiles, allFolders) ←
    collectIds fuel itemIds itemTypes 0 (Fs.folders st) (Fs.files st);
  let allFilesToMarkDeleted := dedupe allFiles in
  let allFoldersToMarkDeleted := dedupe allFolders in
  let count := (length allFilesToMarkDeleted
                + length allFoldersToMarkDeleted)%nat in
  Some (fsNotify success
          (pretty count +:+ " elemento(s) movido(s) a la papelera.")
          {| Fs.folders :=
               (λ f, if decide (Folder.id f ∈ allFoldersToMarkDeleted)
                     then folderWithDeletedAt f (Some now) else f)
                 <$> Fs.folders st;
             Fs.files :=
               (λ f, if decide (AppFile.id f ∈ allFilesToMarkDeleted)
                     then fileWithDeletedAt f (Some now) else f)
                 <$> Fs.files st;
             Fs.activeFileId := clearActiveIfIn allFilesToMarkDeleted st;
             Fs.documentHistories := Fs.documentHistories st;
             Fs.notifications := Fs.notifications st |}).

Definition restoreItems (fuel : nat) (itemIds : list string)
    (itemTypes : list ItemType) (st : Fs.t) : option Fs.t :=
  '(allFiles, allFolders) ←
    collectIds fuel itemIds itemTypes 0 (Fs.folders st) (Fs.files st);
  let allFilesToRestore := dedupe allFiles in
  let allFoldersToRestore := dedupe allFolders in
  let count := (length allFilesToRestore + length allFoldersToRestore)%nat in
  Some (fsNotify success
          (pretty count +:+ " elemento(s) restaurado(s) de la papelera.")
          {| Fs.folders :=
               (λ f, if decide (Folder.id f ∈ allFoldersToRestore)
                     then folderWithDeletedAt f None else f)
                 <$> Fs.folders st;
             Fs.files :=
               (λ f, if decide (AppFile.id f ∈ allFilesToRestore)
                     then fileWithDeletedAt f None else f)
                 <$> Fs.files st;
             Fs.activeFileId := Fs.activeFileId st;
             Fs.documentHistories := Fs.documentHistories st;
             Fs.notifications := Fs.notifications st |}).

Definition permanentDeleteItems (fuel : nat) (itemIds : list string)
    (itemTypes : list ItemType) (st : Fs.t) : option Fs.t :=
  '(allFiles, allFolders) ←
    collectIds fuel itemIds itemTypes 0 (Fs.folders st) (Fs.files st);
  let allFilesToDeletePerm := dedupe allFiles in
  let allFoldersToDeletePerm := dedupe allFolders in
  let count := (length allFilesToDeletePerm
                + length allFoldersToDeletePerm)%nat in
  Some (fsNotify success
          (pretty count +:+ " elemento(s) eliminado(s) permanentemente.")
          {| Fs.folders :=
               filter (λ f, Folder.id f ∉ allFoldersToDeletePerm)
                      (Fs.folders st);
             Fs.files :=
               filter (λ f, AppFile.id f ∉ allFilesToDeletePerm)
                      (Fs.files st);
             Fs.activeFileId := clearActiveIfIn allFilesToDeletePerm st;
             Fs.documentHistories :=
               foldl (λ hs i, deleteFileHistory i hs)
                     (Fs.documentHistories st) allFilesToDeletePerm;
             Fs.notifications := Fs.notifications st |}).

(** [itemIdsToMove.indexOf(x)], [None] for [-1]. *)
Definition indexOf (x : string) (l : list string) : option nat :=
  fst <$> list_find (λ y, y = x) l.

(** [itemIdsToMove.includes(id) && itemTypes[itemIdsToMove.indexOf(id)]
    === ty] *)
Definition movedAs (ty : ItemType) (i : string) (itemIdsToMove : list string)
    (itemTypes : list ItemType) : Prop :=
  ∃ k, indexOf i itemIdsToMove = Some k ∧ itemTypes !! k = Some ty.

#[global] Instance movedAs_dec ty i itemIdsToMove itemTypes :
  Decision (movedAs ty i itemIdsToMove itemTypes).
Proof.
  unfold movedAs. destruct (indexOf i itemIdsToMove) as [k|].
  - destruct (decide (itemTypes !! k = Some ty)) as [H|H].
    + left. by exists k.
    + right. intros (k' & [= <-] & ?). done.
  - right. by intros (k & [=] & _).
Defined.

Definition moveItems (itemIdsToMove : list string)
    (itemTypes : list ItemType) (targetParentId : option string)
    (st : Fs.t) : Fs.t :=
  let targetFolderName :=
    match targetParentId with
    | None => "Medios (Raíz)"%string
    | Some p =>
        if decide (p = ""%string) then "Medios (Raíz)"%string
        else
          match list_find (λ f, Folder.id f = p) (Fs.folders st) with
          | Some (_, f) =>
              if decide (Folder.name f = ""%string)
              then "carpeta desconocida"%string else Folder.name f
          | None => "carpeta desconocida"%string
          end
    end in
  fsNotify success
    (pretty (length itemIdsToMove) +:+ " elemento(s) movido(s) a " +:+ quote
     +:+ targetFolderName +:+ quote +:+ ".")
    {| Fs.folders :=
         (λ f, if decide (movedAs ItemFolder (Folder.id f) itemIdsToMove
                            itemTypes)
               then folderWithParentId f targetParentId else f)
           <$> Fs.folders st;
       Fs.files :=
         (λ f, if decide (movedAs ItemFile (AppFile.id f) itemIdsToMove
                            itemTypes)
               then fileWithFolderId f targetParentId else f)
           <$> Fs.files st;
       Fs.activeFileId := Fs.activeFileId st;
       Fs.documentHistories := Fs.documentHistories st;
       Fs.notifications := Fs.notifications st |}.

Definition renameFile (fileId newName : string) (st : Fs.t) : Fs.t :=
  match list_find (λ f, AppFile.id f = fileId) (Fs.files st) with
  | None => st
  | Some (_, oldFile) =>
      fsNotify success
        ("Archivo renombrado de " +:+ quote +:+ AppFile.name oldFile +:+ quote
         +:+ " a " +:+ quote +:+ newName +:+ quote +:+ ".")
        {| Fs.folders := Fs.folders st;
           Fs.files :=
             (λ f, if decide (AppFile.id f = fileId)
                   then fileWithName f newName else f) <$> Fs.files st;
           Fs.activeFileId := Fs.activeFileId st;
           Fs.documentHistories := Fs.documentHistories st;
           Fs.notifications := Fs.notifications st |}
  end.

Definition renameFolder (folderId newName : string) (st : Fs.t) : Fs.t :=
  match list_find (λ f, Folder.id f = folderId) (Fs.folders st) with
  | None => st
  | Some (_, oldFolder) =>
      fsNotify success
        ("Carpeta renombrada de " +:+ quote +:+ Folder.name oldFolder +:+ quote
         +:+ " a " +:+ quote +:+ newName +:+ quote +:+ ".")
        {| Fs.folders :=
             (λ f, if decide (Folder.id f = folderId)
                   then folderWithName f newName else f) <$> Fs.folders st;
           Fs.files := Fs.files st;
           Fs.activeFileId := Fs.activeFileId st;
           Fs.documentHistories := Fs.documentHistories st;
           Fs.notifications := Fs.notifications st |}
  end.

Definition duplicateFile (fileId newId : string) (now : Z) (st : Fs.t)
    : Fs.t :=
  match list_find (λ f, AppFile.id f = fileId) (Fs.files st) with
  | None => st
  | Some (_, originalFile) =>
      (createFile ("Copia de " +:+ AppFile.name originalFile)
         (AppFile.folderId originalFile)
         (Some (AppFile.content originalFile)) newId now st).1
  end.

(** The gateway half of the hook: [updateFileContentOnly] on the state. *)
Definition fsUpdateFileContentOnly (fileId newContent : string) (st : Fs.t)
    : Fs.t :=
  {| Fs.folders := Fs.folders st;
     Fs.files := updateFileContentOnly fileId newContent (Fs.files st);
     Fs.activeFileId := Fs.activeFileId st;
     Fs.documentHistories := Fs.documentHistories st;
     Fs.notifications := Fs.notifications st |}.

Definition getFolderNameById (i : option string) (st : Fs.t) : string :=
  match i with
  | None => "Medios (Raíz)"%string
  | Some p =>
      if decide (p = ""%string) then "Medios (Raíz)"%string
      else
        match list_find (λ f, Folder.id f = p) (Fs.folders st) with
        | Some (_, f) =>
            if decide (Folder.name f = ""%string)
            then "Desconocido"%string else Folder.name f
        | None => "Desconocido"%string
        end
  end.

(** The invariant of the files against the histories: ids are distinct, and
    the content of a file that has a history entry is the snapshot under
    the cursor of that entry. *)
Definition fsOk (st : Fs.t) : Prop :=
  NoDup (AppFile.id <$> Fs.files st)
  ∧ synced (Fs.files st) (Fs.documentHistories st).

(** What a search has found lies under the starting folder [X], and what
    lies right under a folder already taken from the queue has been
    found. *)
Definition foundSound (currentFolders : list Folder.t)
    (currentFiles : list AppFile.t) (X : string)
    (folderIds fileIds : list string) : Prop :=
  (∀ a, a ∈ folderIds →
        a = X ∨ ∃ p, p ∈ folderIds ∧ a ∈ childFolderIds currentFolders p)
  ∧ (∀ b, b ∈ fileIds →
          ∃ p, p ∈ folderIds ∧ b ∈ childFileIds currentFiles p).

Definition foundClosed (currentFolders : list Folder.t)
    (currentFiles : list AppFile.t) (done folderIds fileIds : list string)
    : Prop :=
  ∀ p, p ∈ done →
    childFolderIds currentFolders p ⊆ folderIds
    ∧ childFileIds currentFiles p ⊆ fileIds.

(** ** The move dialog of the explorer: components/MediaExplorer *)

(** [getDescendantFolderIds_local]: the ids of the folders below a folder,
    each child followed by what lies below it. The recursion goes as deep
    as the folders nest; [fuel] bounds the depth, [None] when it runs
    out. *)
Fixpoint getDescendantFolderIds_local (fuel : nat) (folderId : string)
    (folders : list Folder.t) : option (list string) :=
  match fuel with
  | O => None
  | S fuel' =>
      foldl (λ acc child,
               ids ← acc;
               below ← getDescendantFolderIds_local fuel' (Folder.id child)
                         folders;
               Some ((ids ++ [Folder.id child]) ++ below))
            (Some [])
            (filter (λ f, Folder.parentId f = Some folderId) folders)
  end.

(** The name shown for a folder id in a template: [undefined] when no
    folder has the id. *)
Definition folderNameOrUndefined (i : string) (allFolders : list Folder.t)
    : string :=
  match list_find (λ f, Folder.id f = i) allFolders with
  | Some (_, f) => Folder.name f
  | None => "undefined"%string
  end.

(** The loop of [handleMoveSelectedItems] over the selection, an object
    held as the list of its entries in the order of its keys: the message
    of the first check that fails, [None] when all pass. *)
Fixpoint checkMove (fuel : nat) (items : list (string * ItemType))
    (targetFolderForMove : option string) (allFolders : list Folder.t)
    : option (option string) :=
  match items with
  | [] => Some None
  | (itemId, ItemFile) :: rest =>
      checkMove fuel rest targetFolderForMove allFolders
  | (itemId, ItemFolder) :: rest =>
      if decide (targetFolderForMove = Some itemId)
      then Some (Some "No se puede mover una carpeta dentro de sí misma."%string)
      else
        descendantIds ← getDescendantFolderIds_local fuel itemId allFolders;
        match targetFolderForMove with
        | Some target =>
            if decide (target ∈ descendantIds)
            then Some (Some ("No se puede mover la carpeta " +:+ quote
                             +:+ folderNameOrUndefined itemId allFolders
                             +:+ quote
                             +:+ " a una de sus propias subcarpetas."))
            else checkMove fuel rest targetFolderForMove allFolders
        | None => checkMove fuel rest targetFolderForMove allFolders
        end
  end.

(** [handleMoveSelectedItems], as far as it acts on folders, files and
    notices; what it does to the dialog is left out. The target is [None]
    while none is chosen ([undefined]), [Some None] for the root. *)
Definition handleMoveSelectedItems (fuel : nat)
    (selectedItems : list (string * ItemType))
    (targetFolderForMove : option (option string)) (st : Fs.t)
    : option Fs.t :=
  match selectedItems with
  | [] => Some st
  | _ :: _ =>
      match targetFolderForMove with
      | None => Some st
      | Some target =>
          failed ← checkMove fuel selectedItems target (Fs.folders st);
          match failed with
          | Some msg => Some (fsNotify error msg st)
          | None =>
              Some (moveItems selectedItems.*1 selectedItems.*2 target st)
          end
      end
  end.

(** The folders form a forest: the parent links have no circle. *)
Definition forest (folders : list Folder.t) : Prop :=
  ∃ rank : string → nat,
    ∀ f p, f ∈ folders → Folder.parentId f = Some p →
           (rank p < rank (Folder.id f))%nat.

(** ** Tables: utils/tabularDataParser *)

(** Where the characters of a string matter, as they do to [trim] and
    [split], a string is the list of its UTF-16 code units. *)
Definition jsString := list N.

Definition COMMA : N := 44%N.
Definition LF : N := 10%N.
Definition CR : N := 13%N.

(** The white space and the line terminators of ECMAScript, which [trim]
    removes. *)
Definition isWhiteSpace (c : N) : bool :=
  ((9 <=? c) && (c <=? 13) || (c =? 32) || (c =? 160) || (c =? 5760)
   || (8192 <=? c) && (c <=? 8202) || (c =? 8232) || (c =? 8233)
   || (c =? 8239) || (c =? 8287) || (c =? 12288) || (c =? 65279))%N.

Fixpoint trimStart (s : jsString) : jsString :=
  match s with
  | [] => []
  | c :: s' => if isWhiteSpace c then trimStart s' else s
  end.

Definition trimEnd (s : jsString) : jsString :=
  reverse (trimStart (reverse s)).

Definition trim (s : jsString) : jsString := trimEnd (trimStart s).

(** Puts a code unit before the first piece of a split. *)
Definition consHead (c : N) (pieces : list jsString) : list jsString :=
  match pieces with
  | piece :: rest => (c :: piece) :: rest
  | [] => [[c]]
  end.

(** [s.split(',')], for the separator [sep]. *)
Fixpoint splitOn (sep : N) (s : jsString) : list jsString :=
  match s with
  | [] => [[]]
  | c :: s' =>
      if decide (c = sep) then [] :: splitOn sep s'
      else consHead c (splitOn sep s')
  end.

(** [s.split(/\r?\n/)] *)
Fixpoint splitLines (s : jsString) : list jsString :=
  match s with
  | [] => [[]]
  | c :: s' =>
      if decide (c = LF) then [] :: splitLines s'
      else
        match s' with
        | c' :: s'' =>
            if decide (c = CR ∧ c' = LF) then [] :: splitLines s''
            else consHead c (splitLines s')
        | [] => [[c]]
        end
  end.

(** [a.join(sep)] for an array of strings. *)
Fixpoint join (sep : jsString) (a : list jsString) : jsString :=
  match a with
  | [] => []
  | x :: rest =>
      match rest with
      | [] => x
      | _ :: _ => x ++ sep ++ join sep rest
      end
  end.

Module ParsedCsvData.
Record t := {
  headers : list jsString;
  rows : list (list jsString)
}.
End ParsedCsvData.

(** [cells.every(cell => cell === '')] *)
Definition allEmpty (cells : list jsString) : bool :=
  forallb (λ cell, bool_decide (cell = [])) cells.

(** One round of the loop of [parseCsv] over the lines after the first:
    [None] for a line that is skipped, else the cells, padded and cut to
    the number [n] of headers. *)
Definition parseRow (n : nat) (line : jsString) : option (list jsString) :=
  if decide (trim line = []) then None
  else
    let cells := trim <$> splitOn COMMA line in
    if allEmpty cells then None
    else
      let paddedCells := cells ++ replicate (n - length cells) [] in
      Some (take n paddedCells).

Definition parseCsv (csvString : jsString) : option ParsedCsvData.t :=
  if decide (csvString = [] ∨ trim csvString = []) then None
  else
    match splitLines (trim csvString) with
    | [] => None
    | line0 :: lines =>
        let headers := trim <$> splitOn COMMA line0 in
        if decide (length headers = 0%nat ∨ allEmpty headers = true)
        then None
        else
          Some {| ParsedCsvData.headers := headers;
                  ParsedCsvData.rows := omap (parseRow (length headers))
                                             lines |}
    end.

(** [serializeCsv]; [None] is a [data] that is null. *)
Definition serializeCsv (data : option ParsedCsvData.t) : jsString :=
  match data with
  | None => []
  | Some data =>
      let headerString := join [COMMA] (ParsedCsvData.headers data) in
      let rowStrings := join [COMMA] <$> ParsedCsvData.rows data in
      join [LF] (headerString :: rowStrings)
  end.

(** ** The table editor: [DocumentEditor] *)

(** The modifiers that the editor passes to [modifyCsvData], and the new
    table of [handleCellEdit]. An index is the row or the column the menu
    was opened on. *)
Definition cellEdit (rowIndex colIndex : nat) (value : jsString)
    (data : ParsedCsvData.t) : ParsedCsvData.t :=
  {| ParsedCsvData.headers := ParsedCsvData.headers data;
     ParsedCsvData.rows :=
       alter (λ row, <[colIndex := value]> row) rowIndex
             (ParsedCsvData.rows data) |}.

(** [a.splice(start, 0, x)] *)
Definition spliceIn {A} (start : nat) (x : A) (a : list A) : list A :=
  take start a ++ x :: drop start a.

Definition insertRow (above : bool) (rowIndex : nat)
    (data : ParsedCsvData.t) : ParsedCsvData.t :=
  let newEmptyRow :=
    replicate (length (ParsedCsvData.headers data)) ([] : jsString) in
  {| ParsedCsvData.headers := ParsedCsvData.headers data;
     ParsedCsvData.rows :=
       spliceIn (if above then rowIndex else S rowIndex) newEmptyRow
                (ParsedCsvData.rows data) |}.

Definition deleteRow (rowIndex : nat) (data : ParsedCsvData.t)
    : ParsedCsvData.t :=
  if decide (rowIndex < length (ParsedCsvData.rows data))%nat then
    let rows := delete rowIndex (ParsedCsvData.rows data) in
    {| ParsedCsvData.headers := ParsedCsvData.headers data;
       ParsedCsvData.rows :=
         match rows with
         | [] => [replicate (length (ParsedCsvData.headers data)) []]
         | _ :: _ => rows
         end |}
  else data.

(** [NuevaCol] *)
Definition NuevaCol : jsString :=
  [78; 117; 101; 118; 97; 67; 111; 108]%N.

Definition insertColumn (before : bool) (colIndex : nat)
    (data : ParsedCsvData.t) : ParsedCsvData.t :=
  let at_ := if before then colIndex else S colIndex in
  {| ParsedCsvData.headers :=
       spliceIn at_ NuevaCol (ParsedCsvData.headers data);
     ParsedCsvData.rows :=
       spliceIn at_ [] <$> ParsedCsvData.rows data |}.

Definition deleteColumn (colIndex : nat) (data : ParsedCsvData.t)
    : ParsedCsvData.t :=
  if decide (1 < length (ParsedCsvData.headers data))%nat then
    {| ParsedCsvData.headers := delete colIndex (ParsedCsvData.headers data);
       ParsedCsvData.rows := delete colIndex <$> ParsedCsvData.rows data |}
  else data.

(** What [modifyCsvData] and [handleCellEdit] hand to [onContentChange],
    and what the editor reads back from the content. *)
Definition writtenAndRead (data : ParsedCsvData.t)
    : option ParsedCsvData.t :=
  parseCsv (serializeCsv (Some data)).

(** Neither end of the string is white. *)
Definition trimmedEnds (s : jsString) : Prop :=
  (∀ c, head s = Some c → isWhiteSpace c = false)
  ∧ (∀ c, last s = Some c → isWhiteSpace c = false).

(** A cell as [parseCsv] yields it: trimmed, without comma or line feed. *)
Definition cleanCell (cell : jsString) : Prop :=
  trim cell = cell ∧ (COMMA ∉ cell) ∧ (LF ∉ cell).

(** A table as [parseCsv] yields it: a header that is not blank, clean
    cells, every row as long as the header. *)
Definition wellFormed (data : ParsedCsvData.t) : Prop :=
  allEmpty (ParsedCsvData.headers data) = false
  ∧ Forall cleanCell (ParsedCsvData.headers data)
  ∧ Forall (λ row, length row = length (ParsedCsvData.headers data)
                   ∧ Forall cleanCell row)
           (ParsedCsvData.rows data).

Definition dropEmptyRows (data : ParsedCsvData.t) : ParsedCsvData.t :=
  {| ParsedCsvData.headers := ParsedCsvData.headers data;
     ParsedCsvData.rows :=
       filter (λ row, allEmpty row = false) (ParsedCsvData.rows data) |}.

(** Lengths of concatenations, up to linear arithmetic. *)
Ltac solve_length :=
  repeat (progress (rewrite ?length_app; simpl)); lia.

(** * Properties *)

(** ** Array primitives *)

Section ArrayFacts.
Context {A : Type}.
Implicit Types (l : list A) (x : A).

Lemma js_index_nat l (n : nat) : js_index l (Z.of_nat n) = l !! n.
Proof.
  unfold js_index. destruct (decide _) as [_|H]; [|lia].
  by rewrite Nat2Z.id.
Qed.

Lemma js_index_neg l i : i < 0 → js_index l i = None.
Proof. unfold js_index. intros. destruct (decide _); [lia|done]. Qed.

Lemma js_index_last l : js_index l (Z.of_nat (length l) - 1) = last l.
Proof.
  destruct l as [|x l'] using rev_ind.
  - by rewrite js_index_neg.
  - rewrite length_app, last_snoc. simpl.
    replace (Z.of_nat (length l' + 1) - 1) with (Z.of_nat (length l')) by lia.
    rewrite js_index_nat. by rewrite lookup_app_r, Nat.sub_diag.
Qed.

Lemma js_index_Some_range l i x :
  js_index l i = Some x → 0 <= i < Z.of_nat (length l).
Proof.
  unfold js_index. destruct (decide _); [|done].
  intros H%lookup_lt_Some. lia.
Qed.

Lemma js_slice_upto_take l (k : nat) :
  js_slice_upto l (Z.of_nat k) = take k l.
Proof.
  unfold js_slice_upto. destruct (decide _); [lia|].
  destruct (decide (k ≤ length l)%nat).
  - f_equal. lia.
  - rewrite !take_ge; [done| lia | lia].
Qed.

Lemma js_slice_last_lastn l (n : nat) :
  js_slice_last l (Z.of_nat n) = lastn n l.
Proof. unfold js_slice_last, lastn. f_equal. lia. Qed.

Lemma lastn_all n l : (length l ≤ n)%nat → lastn n l = l.
Proof.
  intros. unfold lastn. by replace (length l - n)%nat with 0%nat by lia.
Qed.

Lemma length_lastn n l : length (lastn n l) = (length l `min` n)%nat.
Proof. unfold lastn. rewrite length_drop. lia. Qed.

Lemma lastn_app_r n l1 l2 :
  (length l2 ≤ n)%nat →
  lastn n (l1 ++ l2) = lastn (n - length l2) l1 ++ l2.
Proof.
  intros. unfold lastn. rewrite length_app.
  rewrite drop_app_le by lia. do 2 f_equal. lia.
Qed.

Lemma lastn_lastn_app n l1 l2 :
  lastn n (lastn n l1 ++ l2) = lastn n (l1 ++ l2).
Proof.
  unfold lastn. rewrite !length_app, length_drop.
  destruct (decide (length l2 ≤ n)%nat).
  - rewrite !drop_app_le by (rewrite ?length_drop; lia).
    rewrite drop_drop. do 2 f_equal. lia.
  - rewrite !drop_app_ge by (rewrite ?length_drop; lia).
    rewrite length_drop. f_equal. lia.
Qed.

Lemma lastn_snoc_last n l x : (0 < n)%nat → last (lastn n (l ++ [x])) = Some x.
Proof.
  intros. rewrite lastn_app_r by (simpl; lia). apply last_snoc.
Qed.

(** The cap of [addHistoryStep] keeps the last [MAX_HISTORY_STEPS]
    elements. *)
Lemma cap_lastn l :
  (if decide (MAX_HISTORY_STEPS < Z.of_nat (length l))
   then js_slice_last l MAX_HISTORY_STEPS else l) = lastn 50 l.
Proof.
  unfold MAX_HISTORY_STEPS. destruct (decide _).
  - by rewrite <- js_slice_last_lastn.
  - rewrite lastn_all; [done | lia].
Qed.
End ArrayFacts.

(** ** The history store *)

Section HistoryFacts.
Implicit Types (s prev : Histories) (e : DocumentHistoryEntry).
Implicit Types (fileId other c content : string).

Lemma entry_eta e :
  {| history := history e; currentIndex := currentIndex e |} = e.
Proof. by destruct e. Qed.

(** [addHistoryStep] without the clamping of [slice]. *)
Lemma addHistoryStep_unfold fileId c s :
  addHistoryStep fileId c s =
    let cur := default {| history := [""%string]; currentIndex := -1 |}
                       (s !! fileId) in
    if decide (js_index (history cur) (currentIndex cur) = Some c)
    then s
    else <[fileId := tipEntry
             (lastn 50 (js_slice_upto (history cur) (currentIndex cur + 1)
                        ++ [c]))]> s.
Proof.
  unfold addHistoryStep. cbv zeta.
  set (cur := default _ _).
  destruct (decide (0 <= _ ∧ _)) as [[_ H]|H];
    destruct (decide (js_index _ _ = _)) as [H'|H']; try done.
  - destruct H. split; [|done]. apply js_index_Some_range in H'. lia.
  - by rewrite cap_lastn.
Qed.

Lemma addHistoryStep_unknown fileId c s :
  s !! fileId = None →
  addHistoryStep fileId c s = <[fileId := freshEntry c]> s.
Proof.
  intros H. by rewrite addHistoryStep_unfold, H.
Qed.

Lemma addHistoryStep_same fileId c s e :
  s !! fileId = Some e →
  js_index (history e) (currentIndex e) = Some c →
  addHistoryStep fileId c s = s.
Proof.
  intros H Hc. rewrite addHistoryStep_unfold, H. simpl.
  by destruct (decide _).
Qed.

Lemma addHistoryStep_other_content fileId c s e :
  s !! fileId = Some e →
  -1 <= currentIndex e →
  js_index (history e) (currentIndex e) ≠ Some c →
  addHistoryStep fileId c s =
    <[fileId := tipEntry
        (lastn 50 (take (Z.to_nat (currentIndex e + 1)) (history e) ++ [c]))]> s.
Proof.
  intros H Hi Hc. rewrite addHistoryStep_unfold, H. simpl.
  destruct (decide _); [done|].
  rewrite <- (Z2Nat.id (currentIndex e + 1)) at 1 by lia.
  by rewrite js_slice_upto_take.
Qed.

Lemma tipEntry_current h c :
  last h = Some c →
  js_index (history (tipEntry h)) (currentIndex (tipEntry h)) = Some c.
Proof. intros H. simpl. by rewrite js_index_last. Qed.

(** After a push the cursor is on the pushed content. *)
Lemma addHistoryStep_current fileId c s :
  currentContent fileId (addHistoryStep fileId c s) = Some c.
Proof.
  unfold currentContent. rewrite addHistoryStep_unfold. cbv zeta.
  destruct (decide _) as [H|H].
  - destruct (s !! fileId) as [e|] eqn:E; simpl in *; [done|].
    by rewrite js_index_neg in H by lia.
  - rewrite lookup_insert_eq. simpl. rewrite js_index_last.
    apply lastn_snoc_last. lia.
Qed.

Lemma addHistoryStep_lookup_ne fileId other c s :
  fileId ≠ other → addHistoryStep fileId c s !! other = s !! other.
Proof.
  intros. rewrite addHistoryStep_unfold. cbv zeta.
  destruct (decide _); [done|]. by rewrite lookup_insert_ne.
Qed.

Lemma initializeHistory_lookup_ne fileId other c s :
  fileId ≠ other → initializeHistory fileId c s !! other = s !! other.
Proof.
  intros. unfold initializeHistory.
  destruct (s !! fileId); [destruct (decide _)|]; try done;
    by rewrite lookup_insert_ne.
Qed.

Lemma undo_lookup_ne eager fileId other s :
  fileId ≠ other → (undo eager fileId s).1 !! other = s !! other.
Proof.
  intros. unfold undo.
  destruct (s !! fileId); [destruct (decide _)|]; simpl; try done;
    by rewrite lookup_insert_ne.
Qed.

Lemma redo_lookup_ne eager fileId other s :
  fileId ≠ other → (redo eager fileId s).1 !! other = s !! other.
Proof.
  intros. unfold redo.
  destruct (s !! fileId); [destruct (decide _)|]; simpl; try done;
    by rewrite lookup_insert_ne.
Qed.

Lemma runOp_lookup_ne op other s :
  opId op ≠ other → runOp op s !! other = s !! other.
Proof.
  destruct op; simpl; intros.
  - by apply initializeHistory_lookup_ne.
  - by apply addHistoryStep_lookup_ne.
  - by apply undo_lookup_ne.
  - by apply redo_lookup_ne.
  - unfold resetFileHistory. by rewrite lookup_insert_ne.
  - unfold deleteFileHistory. by rewrite lookup_delete_ne.
Qed.

Lemma undo_history eager fileId other s :
  history <$> (undo eager fileId s).1 !! other = history <$> s !! other.
Proof.
  destruct (decide (fileId = other)) as [<-|]; [|by rewrite undo_lookup_ne].
  unfold undo. destruct (s !! fileId) as [e|] eqn:E; simpl; [|by rewrite E].
  destruct (decide _); simpl; [|by rewrite E].
  by rewrite lookup_insert_eq.
Qed.

Lemma redo_history eager fileId other s :
  history <$> (redo eager fileId s).1 !! other = history <$> s !! other.
Proof.
  destruct (decide (fileId = other)) as [<-|]; [|by rewrite redo_lookup_ne].
  unfold redo. destruct (s !! fileId) as [e|] eqn:E; simpl; [|by rewrite E].
  destruct (decide _); simpl; [|by rewrite E].
  by rewrite lookup_insert_eq.
Qed.

(** Each operation keeps the index invariant. *)
Lemma storeOk_insert fileId e s :
  entryOk e → storeOk s → storeOk (<[fileId := e]> s).
Proof.
  intros He Hs i e'. rewrite lookup_insert.
  destruct (decide _); [by intros [= <-]|apply Hs].
Qed.

Lemma entryOk_fresh c : entryOk (freshEntry c).
Proof. unfold entryOk. simpl. lia. Qed.

Lemma entryOk_tip h : h ≠ [] → entryOk (tipEntry h).
Proof. unfold entryOk. destruct h; [done|]. simpl. lia. Qed.

Lemma lastn_snoc_nonempty (h : list string) c : lastn 50 (h ++ [c]) ≠ [].
Proof.
  intros H. pose proof (lastn_snoc_last 50 h c ltac:(lia)) as H'.
  by rewrite H in H'.
Qed.

Lemma runOp_storeOk op s : storeOk s → storeOk (runOp op s).
Proof.
  intros Hs. destruct op as [i c|i c|eager i|eager i|i c|i]; simpl.
  - unfold initializeHistory.
    destruct (s !! i); [destruct (decide _)|]; try done;
      apply storeOk_insert; auto using entryOk_fresh.
  - rewrite addHistoryStep_unfold. cbv zeta. destruct (decide _); [done|].
    apply storeOk_insert; [|done]. apply entryOk_tip, lastn_snoc_nonempty.
  - unfold undo. destruct (s !! i) as [e|] eqn:E; [|done].
    destruct (decide _); [|done]. simpl.
    apply storeOk_insert; [|done]. apply Hs in E. unfold entryOk in *.
    simpl. lia.
  - unfold redo. destruct (s !! i) as [e|] eqn:E; [|done].
    destruct (decide _); [|done]. simpl.
    apply storeOk_insert; [|done]. apply Hs in E. unfold entryOk in *.
    simpl. lia.
  - apply storeOk_insert; auto using entryOk_fresh.
  - intros j e. unfold deleteFileHistory. rewrite lookup_delete.
    destruct (decide _); [done|apply Hs].
Qed.

Lemma runOp_storeCapped op s : storeCapped s → storeCapped (runOp op s).
Proof.
  assert (Hins : ∀ i e s', (length (history e) ≤ 50)%nat →
            storeCapped s' → storeCapped (<[i := e]> s')).
  { intros i e s' He Hs' j e'. rewrite lookup_insert.
    destruct (decide _); [by intros [= <-]|apply Hs']. }
  intros Hs. destruct op as [i c|i c|eager i|eager i|i c|i]; simpl.
  - unfold initializeHistory.
    destruct (s !! i); [destruct (decide _)|]; try done;
      apply Hins; simpl; auto; lia.
  - rewrite addHistoryStep_unfold. cbv zeta. destruct (decide _); [done|].
    apply Hins; [|done]. simpl. rewrite length_lastn. lia.
  - unfold undo. destruct (s !! i) as [e|] eqn:E; [|done].
    destruct (decide _); [|done]. simpl. apply Hins; [|done].
    simpl. by eapply Hs.
  - unfold redo. destruct (s !! i) as [e|] eqn:E; [|done].
    destruct (decide _); [|done]. simpl. apply Hins; [|done].
    simpl. by eapply Hs.
  - apply Hins; simpl; auto; lia.
  - intros j e. unfold deleteFileHistory. rewrite lookup_delete.
    destruct (decide _); [done|apply Hs].
Qed.

Lemma reachable_storeOk s : reachable s → storeOk s.
Proof.
  induction 1 as [|op s _ IH]; [by intros i e; rewrite lookup_empty|].
  by apply runOp_storeOk.
Qed.

Lemma reachable_storeCapped s : reachable s → storeCapped s.
Proof.
  induction 1 as [|op s _ IH]; [by intros i e; rewrite lookup_empty|].
  by apply runOp_storeCapped.
Qed.
End HistoryFacts.

(** ** Re-initialisation *)

Section Initialize.
Implicit Types (s prev : Histories) (e : DocumentHistoryEntry).

Lemma initializeHistory_kept fileId content prev e :
  prev !! fileId = Some e →
  last (history e) = Some content →
  initializeHistory fileId content prev = prev.
Proof.
  intros H Hl. unfold initializeHistory. rewrite H, js_index_last.
  by destruct (decide _).
Qed.

Lemma initializeHistory_replaced fileId content prev :
  (∀ e, prev !! fileId = Some e → last (history e) ≠ Some content) →
  initializeHistory fileId content prev
    = <[fileId := freshEntry content]> prev.
Proof.
  intros H. unfold initializeHistory.
  destruct (prev !! fileId) as [e|]; [|done].
  rewrite js_index_last. destruct (decide _) as [Hl|]; [|done].
  by destruct (H e).
Qed.

(** C3. [initializeHistory] leaves the store as it is exactly when the
    document has an entry whose last array element is the given content,
    whatever its cursor; in every other case the entry becomes the one
    with the single snapshot [content] and cursor 0. For an entry with
    history a, b, c (cursor anywhere), initialising with c changes
    nothing and initialising with x yields history x, cursor 0. *)
Theorem initialize_keeps_iff_last_matches fileId content prev :
  (initializeHistory fileId content prev = prev
     ↔ ∃ e, prev !! fileId = Some e ∧ last (history e) = Some content)
  ∧ (initializeHistory fileId content prev = prev
     ∨ initializeHistory fileId content prev
         = <[fileId := {| history := [content]; currentIndex := 0 |}]> prev)
  ∧ (∀ i, prev !! fileId
            = Some {| history := ["a"; "b"; "c"]%string; currentIndex := i |} →
       initializeHistory fileId "c" prev = prev
       ∧ initializeHistory fileId "x" prev
           = <[fileId := {| history := ["x"%string]; currentIndex := 0 |}]> prev).
Proof.
  split_and!.
  - split.
    + intros Heq.
      destruct (prev !! fileId) as [e|] eqn:E.
      * exists e. split; [done|].
        destruct (decide (last (history e) = Some content)) as [|Hne];
          [done|].
        rewrite initializeHistory_replaced in Heq
          by (intros e' ?; by simplify_eq).
        assert (Hl : <[fileId := freshEntry content]> prev !! fileId
                     = Some e) by (by rewrite Heq).
        rewrite lookup_insert_eq in Hl. by simplify_eq.
      * rewrite initializeHistory_replaced in Heq by (intros ??; simplify_eq).
        assert (Hl : <[fileId := freshEntry content]> prev !! fileId = None)
          by (by rewrite Heq).
        by rewrite lookup_insert_eq in Hl.
    + intros (e & H & Hl). by eapply initializeHistory_kept.
  - unfold initializeHistory.
    destruct (prev !! fileId); [destruct (decide _)|]; auto.
  - intros i H. split.
    + by eapply initializeHistory_kept.
    + apply initializeHistory_replaced. intros e' ?. by simplify_eq.
Qed.

Lemma initialize_keeps_iff_last_matches_witness :
  let prev : Histories :=
    {[ "doc"%string :=
         {| history := ["a"; "b"; "c"]%string; currentIndex := 0 |} ]} in
  initializeHistory "doc" "c" prev = prev
  ∧ initializeHistory "doc" "x" prev
      = <[ "doc"%string :=
             {| history := ["x"%string]; currentIndex := 0 |} ]> prev.
Proof.
  intros prev.
  apply (proj2 (proj2 (initialize_keeps_iff_last_matches "doc" "c" prev)) 0).
  reflexivity.
Defined.
End Initialize.

(** ** Unknown documents *)

Section UnknownId.
Implicit Types (s prev : Histories).

(** C2, as the code has it. On a document without an entry: [undo] and
    [redo] return nothing and leave the store unchanged, whether React
    runs their updater inside the call or not, the queries
    answer false, false, discarding leaves the store unchanged,
    [initializeHistory] and [resetFileHistory] create the single-snapshot
    entry, and [addHistoryStep] creates the entry with the single
    snapshot pushed and cursor 0. *)
Theorem unknown_id_behaviour fileId c prev :
  prev !! fileId = None →
  (∀ eager, undo eager fileId prev = (prev, None))
  ∧ (∀ eager, redo eager fileId prev = (prev, None))
  ∧ getHistoryState (Some fileId) prev
      = {| canUndo := false; canRedo := false |}
  ∧ getHistoryState None prev = {| canUndo := false; canRedo := false |}
  ∧ deleteFileHistory fileId prev = prev
  ∧ initializeHistory fileId c prev
      = <[fileId := {| history := [c]; currentIndex := 0 |}]> prev
  ∧ resetFileHistory fileId c prev
      = <[fileId := {| history := [c]; currentIndex := 0 |}]> prev
  ∧ addHistoryStep fileId c prev
      = <[fileId := {| history := [c]; currentIndex := 0 |}]> prev.
Proof.
  intros H. split_and!.
  - intros eager. unfold undo. by rewrite H.
  - intros eager. unfold redo. by rewrite H.
  - unfold getHistoryState. rewrite H. by destruct (decide _).
  - done.
  - unfold deleteFileHistory. by apply delete_id.
  - unfold initializeHistory. by rewrite H.
  - done.
  - by apply addHistoryStep_unknown.
Qed.

Lemma unknown_id_behaviour_witness :
  undo true "doc" (∅ : Histories) = (∅, None)
  ∧ addHistoryStep "doc" "text" (∅ : Histories)
      = {[ "doc"%string :=
             {| history := ["text"%string]; currentIndex := 0 |} ]}.
Proof.
  pose proof (unknown_id_behaviour "doc" "text" ∅ (lookup_empty _))
    as (Hu & _ & _ & _ & _ & _ & _ & Hp).
  split; [exact (Hu true) | exact Hp].
Defined.

(** C2, as stated, fails: a push on an unknown document is not a no-op,
    it creates an entry. *)
Lemma push_unknown_id_not_noop :
  ¬ (∀ fileId c (prev : Histories),
       prev !! fileId = None → addHistoryStep fileId c prev = prev).
Proof.
  intros H. specialize (H "doc"%string "text"%string ∅ (lookup_empty _)).
  assert (Hl : addHistoryStep "doc" "text" (∅ : Histories) !! "doc"%string
               = None) by (by rewrite H).
  by rewrite addHistoryStep_unknown, lookup_insert_eq in Hl.
Qed.
End UnknownId.

(** ** Frame and invariant *)

Section Frame.
Implicit Types (s : Histories).

(** C10. [undo] and [redo] leave the snapshot sequence of every entry as
    it is, and every operation called with one document id leaves the
    entry of every other id as it is. *)
Theorem history_frame s fileId other :
  (∀ eager,
     history <$> (undo eager fileId s).1 !! other = history <$> s !! other)
  ∧ (∀ eager,
       history <$> (redo eager fileId s).1 !! other = history <$> s !! other)
  ∧ (fileId ≠ other →
       ∀ op, opId op = fileId → runOp op s !! other = s !! other).
Proof.
  split_and!.
  - intros eager. apply undo_history.
  - intros eager. apply redo_history.
  - intros Hne op <-. by apply runOp_lookup_ne.
Qed.

Lemma history_frame_witness :
  let s : Histories :=
    {[ "a"%string := {| history := ["x"; "y"]%string; currentIndex := 1 |};
       "b"%string := {| history := ["z"]%string; currentIndex := 0 |} ]} in
  runOp (OpPush "a" "w") s !! "b"%string = s !! "b"%string.
Proof.
  intros s.
  apply (proj2 (proj2 (history_frame s "a" "b"))); [done | reflexivity].
Defined.

(** C7. Every store reached from the empty one has, for every entry,
    [0 <= currentIndex < length history]; and each of initialize, push,
    undo, redo, reset and discard keeps that invariant. *)
Theorem history_index_invariant :
  (∀ s, reachable s → storeOk s)
  ∧ (∀ s fileId c eager, storeOk s →
       storeOk (initializeHistory fileId c s)
       ∧ storeOk (addHistoryStep fileId c s)
       ∧ storeOk (undo eager fileId s).1
       ∧ storeOk (redo eager fileId s).1
       ∧ storeOk (resetFileHistory fileId c s)
       ∧ storeOk (deleteFileHistory fileId s)).
Proof.
  split; [apply reachable_storeOk|].
  intros s fileId c eager Hs. split_and!.
  - apply (runOp_storeOk (OpInitialize fileId c)), Hs.
  - apply (runOp_storeOk (OpPush fileId c)), Hs.
  - apply (runOp_storeOk (OpUndo eager fileId)), Hs.
  - apply (runOp_storeOk (OpRedo eager fileId)), Hs.
  - apply (runOp_storeOk (OpReset fileId c)), Hs.
  - apply (runOp_storeOk (OpDiscard fileId)), Hs.
Qed.

Lemma history_index_invariant_witness :
  let s : Histories := runOp (OpPush "a" "y") (runOp (OpInitialize "a" "x") ∅) in
  storeOk s ∧ storeOk (undo false "a" s).1.
Proof.
  intros s.
  destruct history_index_invariant as [Hreach Hkeep].
  assert (Hs : storeOk s).
  { apply Hreach. do 2 apply reachable_step. apply reachable_empty. }
  split; [exact Hs|]. apply (Hkeep s "a"%string "x"%string false Hs).
Defined.
End Frame.

(** ** Sequences of pushes *)

Section PushRuns.
Implicit Types (s : Histories) (e : DocumentHistoryEntry).
Implicit Types (h cs pre : list string) (c : string).

Lemma take_tip h : take (Z.to_nat (Z.of_nat (length h) - 1 + 1)) h = h.
Proof. apply take_ge. lia. Qed.

(** A push of a new content on an entry at its tip. *)
Lemma addHistoryStep_tip fileId c c0 h s :
  s !! fileId = Some (tipEntry h) →
  last h = Some c0 → c0 ≠ c →
  addHistoryStep fileId c s = <[fileId := tipEntry (lastn 50 (h ++ [c]))]> s.
Proof.
  intros H Hl Hne.
  rewrite (addHistoryStep_other_content _ _ _ _ H).
  - simpl. by rewrite take_tip.
  - simpl. lia.
  - rewrite (tipEntry_current _ _ Hl). congruence.
Qed.

Lemma pushAll_cons fileId c cs s :
  pushAll fileId (c :: cs) s = pushAll fileId cs (addHistoryStep fileId c s).
Proof. done. Qed.

Lemma pushAll_tip fileId cs : ∀ c0 h s,
  s !! fileId = Some (tipEntry h) →
  last h = Some c0 → changing c0 cs → cs ≠ [] →
  pushAll fileId cs s !! fileId = Some (tipEntry (lastn 50 (h ++ cs))).
Proof.
  induction cs as [|c cs IH]; [done|].
  intros c0 h s H Hl [Hne Hch] _. rewrite pushAll_cons.
  rewrite (addHistoryStep_tip _ _ _ _ _ H Hl Hne).
  destruct cs as [|c' cs'].
  - simpl. by rewrite lookup_insert_eq.
  - rewrite (IH c (lastn 50 (h ++ [c]))); [| by rewrite lookup_insert_eq
      | apply lastn_snoc_last; lia | done | done].
    by rewrite lastn_lastn_app, <- app_assoc.
Qed.

Lemma pushAll_lookup_ne fileId other cs : ∀ s,
  fileId ≠ other → pushAll fileId cs s !! other = s !! other.
Proof.
  induction cs as [|c cs IH]; intros s Hne; [done|]. rewrite pushAll_cons.
  rewrite IH by done.
  by apply addHistoryStep_lookup_ne.
Qed.

(** After the first push of a run the cursor is on its content and what
    lies up to the cursor ends with it. *)
Lemma addHistoryStep_view fileId c s :
  ∃ e pre, addHistoryStep fileId c s !! fileId = Some e
    ∧ -1 <= currentIndex e
    ∧ js_index (history e) (currentIndex e) = Some c
    ∧ take (Z.to_nat (currentIndex e + 1)) (history e) = pre ++ [c].
Proof.
  pose proof (addHistoryStep_current fileId c s) as Hc.
  unfold currentContent in Hc.
  destruct (addHistoryStep fileId c s !! fileId) as [e|]; [|done].
  simpl in Hc. exists e.
  pose proof (js_index_Some_range _ _ _ Hc) as Hr.
  unfold js_index in Hc. destruct (decide _); [|lia].
  exists (take (Z.to_nat (currentIndex e)) (history e)).
  split_and!; [done | lia | | ].
  - unfold js_index. by destruct (decide _).
  - replace (Z.to_nat (currentIndex e + 1)) with (S (Z.to_nat (currentIndex e)))
      by lia.
    by apply take_S_r.
Qed.

(** Two or more changing contents pushed on any store leave the entry at
    its tip, its history the last 50 of some list ending with the
    contents pushed. *)
Lemma pushAll_any fileId c1 c2 cs s :
  changing c1 (c2 :: cs) →
  ∃ pre, pushAll fileId (c1 :: c2 :: cs) s !! fileId
         = Some (tipEntry (lastn 50 (pre ++ c1 :: c2 :: cs))).
Proof.
  intros [Hne Hch].
  destruct (addHistoryStep_view fileId c1 s) as (e & pre & He & Hi & Hc & Ht).
  exists pre. rewrite !pushAll_cons.
  assert (H2 : addHistoryStep fileId c2 (addHistoryStep fileId c1 s)
               = <[fileId := tipEntry (lastn 50 ((pre ++ [c1]) ++ [c2]))]>
                   (addHistoryStep fileId c1 s)).
  { rewrite (addHistoryStep_other_content _ _ _ _ He Hi); [by rewrite Ht|].
    rewrite Hc. congruence. }
  rewrite H2.
  destruct cs as [|c3 cs'].
  - simpl. rewrite lookup_insert_eq. by rewrite <- app_assoc.
  - pose proof (pushAll_tip fileId (c3 :: cs') c2
                  (lastn 50 ((pre ++ [c1]) ++ [c2]))) as Hrun.
    rewrite Hrun;
      [| by rewrite lookup_insert_eq | apply lastn_snoc_last; lia
       | done | done].
    rewrite lastn_lastn_app. by rewrite <- !app_assoc.
Qed.

Lemma NoDup_changing c cs : NoDup (c :: cs) → changing c cs.
Proof.
  revert c. induction cs as [|c' cs IH]; intros c Hnd; [done|].
  split.
  - apply NoDup_cons in Hnd as [Hnin _]. set_solver.
  - apply IH. by apply NoDup_cons in Hnd as [_ ?].
Qed.
End PushRuns.

(** ** Runs of undo and redo *)

Section UndoRedoRuns.
Implicit Types (s : Histories) (e : DocumentHistoryEntry).
Implicit Types (eagers : list bool).

(** A run of [undo] that stays above the first snapshot: the cursor goes
    back one step a call, and a call returns the snapshot it lands on when
    React runs its updater inside the call. *)
Lemma undoTimes_run fileId eagers : ∀ s e,
  s !! fileId = Some e →
  Z.of_nat (length eagers) <= currentIndex e →
  undoTimes eagers fileId s
    = (<[fileId := {| history := history e;
                      currentIndex := currentIndex e
                                      - Z.of_nat (length eagers) |}]> s,
       imap (λ k (eager : bool),
               if eager
               then js_index (history e) (currentIndex e - 1 - Z.of_nat k)
               else None) eagers).
Proof.
  induction eagers as [|eager eagers IH]; intros s e H Hlen.
  - simpl. rewrite Z.sub_0_r, entry_eta. by rewrite insert_id.
  - cbn [undoTimes]. unfold undo at 1. rewrite H.
    cbn [length] in Hlen. destruct (decide _) as [_|]; [|lia].
    cbv zeta.
    rewrite (IH _ {| history := history e;
                     currentIndex := currentIndex e - 1 |})
      by (rewrite ?lookup_insert_eq; simpl; first [done|lia]).
    rewrite insert_insert_eq. cbn [history currentIndex length].
    rewrite imap_cons. f_equal.
    + do 2 f_equal. lia.
    + f_equal; [by rewrite Z.sub_0_r|].
      apply imap_ext. intros k b _. simpl. destruct b; [|done].
      f_equal. lia.
Qed.

Lemma redoTimes_run fileId eagers : ∀ s e,
  s !! fileId = Some e →
  currentIndex e + Z.of_nat (length eagers)
    <= Z.of_nat (length (history e)) - 1 →
  redoTimes eagers fileId s
    = (<[fileId := {| history := history e;
                      currentIndex := currentIndex e
                                      + Z.of_nat (length eagers) |}]> s,
       imap (λ k (eager : bool),
               if eager
               then js_index (history e) (currentIndex e + 1 + Z.of_nat k)
               else None) eagers).
Proof.
  induction eagers as [|eager eagers IH]; intros s e H Hlen.
  - simpl. rewrite Z.add_0_r, entry_eta. by rewrite insert_id.
  - cbn [redoTimes]. unfold redo at 1. rewrite H.
    cbn [length] in Hlen. destruct (decide _) as [_|]; [|lia].
    cbv zeta.
    rewrite (IH _ {| history := history e;
                     currentIndex := currentIndex e + 1 |})
      by (rewrite ?lookup_insert_eq; simpl; first [done|lia]).
    rewrite insert_insert_eq. cbn [history currentIndex length].
    rewrite imap_cons. f_equal.
    + do 2 f_equal. lia.
    + f_equal; [by rewrite Z.add_0_r|].
      apply imap_ext. intros k b _. simpl. destruct b; [|done].
      f_equal. lia.
Qed.
End UndoRedoRuns.

(** ** The push contract, the cap and the undo/redo law *)

Section PushContract.
Implicit Types (s : Histories) (e : DocumentHistoryEntry).

Lemma addHistoryStep_idem fileId c s :
  addHistoryStep fileId c (addHistoryStep fileId c s)
    = addHistoryStep fileId c s.
Proof.
  pose proof (addHistoryStep_current fileId c s) as Hc.
  unfold currentContent in Hc.
  destruct (addHistoryStep fileId c s !! fileId) as [e|] eqn:E; [|done].
  by eapply addHistoryStep_same.
Qed.

Lemma branch_truncation eager fileId c0 c1 c2 c3 s :
  s !! fileId = None ∨ s !! fileId = Some (freshEntry c0) →
  c0 ≠ c1 → c1 ≠ c2 → c1 ≠ c3 →
  addHistoryStep fileId c3
    (undo eager fileId
       (addHistoryStep fileId c2
          (addHistoryStep fileId c1 (addHistoryStep fileId c0 s)))).1
  = <[fileId := {| history := [c0; c1; c3]; currentIndex := 2 |}]> s.
Proof.
  intros Hs H01 H12 H13.
  assert (H0 : addHistoryStep fileId c0 s = <[fileId := tipEntry [c0]]> s).
  { destruct Hs as [Hs|Hs].
    - by apply addHistoryStep_unknown.
    - rewrite (addHistoryStep_same _ _ _ _ Hs) by done.
      by rewrite insert_id. }
  rewrite H0.
  rewrite (addHistoryStep_tip fileId c1 c0 [c0]);
    [| by rewrite lookup_insert_eq | done | done].
  rewrite insert_insert_eq.
  rewrite (addHistoryStep_tip fileId c2 c1 [c0; c1]);
    [| by rewrite lookup_insert_eq | done | done].
  rewrite insert_insert_eq.
  unfold undo. rewrite lookup_insert_eq. simpl.
  rewrite insert_insert_eq.
  erewrite addHistoryStep_other_content;
    [| by rewrite lookup_insert_eq | simpl; lia | cbv; congruence].
  by rewrite insert_insert_eq.
Qed.

(** C4. On a document with an entry, a push of the content under the
    cursor changes nothing; a push of another content keeps the
    snapshots up to the cursor, appends the content, keeps the last 50
    of the result and puts the cursor on the last one. So a push
    repeated is a push done once; and pushing c0, c1, c2, undoing, and
    pushing c3 (each content differing from the one under the cursor
    when it is pushed, on a document that is new or holds only c0)
    leaves the history c0, c1, c3 with cursor 2 and nothing to redo. *)
Theorem push_contract :
  (∀ fileId c s e, s !! fileId = Some e → entryOk e →
     let kept := take (Z.to_nat (currentIndex e) + 1) (history e) ++ [c] in
     let trimmed := drop (length kept - 50) kept in
     if decide (history e !! Z.to_nat (currentIndex e) = Some c)
     then addHistoryStep fileId c s = s
     else addHistoryStep fileId c s
          = <[fileId := {| history := trimmed;
                           currentIndex := Z.of_nat (length trimmed) - 1 |}]> s)
  ∧ (∀ fileId c s,
       addHistoryStep fileId c (addHistoryStep fileId c s)
         = addHistoryStep fileId c s)
  ∧ (∀ fileId c0 c1 c2 c3 s eager,
       s !! fileId = None ∨ s !! fileId = Some (freshEntry c0) →
       c0 ≠ c1 → c1 ≠ c2 → c1 ≠ c3 →
       let s' :=
         addHistoryStep fileId c3
           (undo eager fileId
              (addHistoryStep fileId c2
                 (addHistoryStep fileId c1 (addHistoryStep fileId c0 s)))).1 in
       s' !! fileId = Some {| history := [c0; c1; c3]; currentIndex := 2 |}
       ∧ canRedo (getHistoryState (Some fileId) s') = false).
Proof.
  split_and!.
  - intros fileId c s e H [Hlo Hhi]. cbv zeta.
    assert (Hix : js_index (history e) (currentIndex e)
                  = history e !! Z.to_nat (currentIndex e)).
    { unfold js_index. destruct (decide _); [done|lia]. }
    destruct (decide _) as [Hc|Hc].
    + eapply addHistoryStep_same; [done|]. by rewrite Hix.
    + rewrite (addHistoryStep_other_content _ _ _ _ H);
        [| lia | by rewrite Hix].
      replace (Z.to_nat (currentIndex e + 1))
        with (Z.to_nat (currentIndex e) + 1)%nat by lia.
      done.
  - apply addHistoryStep_idem.
  - intros fileId c0 c1 c2 c3 s eager Hs H01 H12 H13. cbv zeta.
    rewrite branch_truncation by done.
    unfold getHistoryState. rewrite lookup_insert_eq.
    split; [done|]. by destruct (decide _).
Qed.

Lemma push_contract_witness :
  let s0 : Histories :=
    {[ "d"%string := {| history := ["a"; "b"]%string; currentIndex := 1 |} ]} in
  let s : Histories := ∅ in
  let s' :=
    addHistoryStep "d" "c3"
      (undo false "d"
         (addHistoryStep "d" "c2"
            (addHistoryStep "d" "c1" (addHistoryStep "d" "c0" s)))).1 in
  addHistoryStep "d" "c" s0
    = <[ "d"%string :=
           {| history := ["a"; "b"; "c"]%string; currentIndex := 2 |} ]> s0
  ∧ s' !! "d"%string
      = Some {| history := ["c0"; "c1"; "c3"]%string; currentIndex := 2 |}
  ∧ canRedo (getHistoryState (Some "d"%string) s') = false.
Proof.
  intros s0 s s'. split.
  - apply (proj1 push_contract "d"%string "c"%string s0
             {| history := ["a"; "b"]%string; currentIndex := 1 |}).
    + reflexivity.
    + unfold entryOk. simpl. lia.
  - apply (proj2 (proj2 push_contract) "d"%string "c0"%string "c1"%string
             "c2"%string "c3"%string s false);
      [by left | done | done | done].
Defined.
End PushContract.

Section Cap.
Implicit Types (s : Histories) (e : DocumentHistoryEntry).

(** After [initializeHistory] the entry is at its tip on [c0], provided
    an entry that is kept had its cursor on its last snapshot. *)
Lemma initializeHistory_tip fileId c0 s :
  (∀ e, s !! fileId = Some e → last (history e) = Some c0 →
        currentIndex e = Z.of_nat (length (history e)) - 1) →
  ∃ pre, initializeHistory fileId c0 s !! fileId
         = Some (tipEntry (pre ++ [c0])).
Proof.
  intros Htip.
  destruct (s !! fileId) as [e|] eqn:E.
  - destruct (decide (last (history e) = Some c0)) as [Hl|Hl].
    + rewrite (initializeHistory_kept _ _ _ _ E Hl), E.
      destruct (proj1 (last_Some _ _) Hl) as [pre Hpre].
      exists pre. f_equal. destruct e as [h i]. simpl in *.
      unfold tipEntry. rewrite <- Hpre. f_equal.
      by apply (Htip {| history := h; currentIndex := i |}).
    + rewrite initializeHistory_replaced
        by (intros e' ?; by simplify_eq).
      exists []. by rewrite lookup_insert_eq.
  - rewrite initializeHistory_replaced by (intros e' ?; by simplify_eq).
    exists []. by rewrite lookup_insert_eq.
Qed.


Lemma lastn_app_long {A} n (l1 l2 : list A) :
  (n ≤ length l2)%nat → lastn n (l1 ++ l2) = lastn n l2.
Proof.
  intros. unfold lastn. rewrite length_app.
  rewrite drop_app_ge by lia. f_equal. lia.
Qed.

Lemma push_sixty fileId cs s :
  NoDup cs → length cs = 60%nat →
  pushAll fileId cs s !! fileId
    = Some {| history := drop 10 cs; currentIndex := 49 |}.
Proof.
  intros Hnd Hlen.
  destruct cs as [|c1 [|c2 cs']]; [done.. | ].
  destruct (pushAll_any fileId c1 c2 cs' s) as [pre ->].
  { by apply NoDup_changing. }
  rewrite lastn_app_long by lia.
  unfold tipEntry, lastn. rewrite Hlen. do 2 f_equal.
  rewrite length_drop, Hlen. done.
Qed.

(** C8. No entry of a store reached from the empty one holds more than
    50 snapshots, and each operation keeps it so. Sixty pairwise
    distinct contents pushed on an initialised document leave exactly
    the last fifty of them, the first ten pushed being gone, with the
    cursor on the last position, which holds the content pushed last.
    Counting the initial content among the sixty (so fifty-nine pushes),
    on an entry that starts at its tip, the first ten of the sixty are
    gone likewise. *)
Theorem cap_enforcement :
  (∀ s, reachable s → storeCapped s)
  ∧ (∀ op s, storeCapped s → storeCapped (runOp op s))
  ∧ (∀ fileId c0 cs s, NoDup cs → length cs = 60%nat →
       let s' := pushAll fileId cs (initializeHistory fileId c0 s) in
       s' !! fileId = Some {| history := drop 10 cs; currentIndex := 49 |}
       ∧ length (drop 10 cs) = 50%nat
       ∧ (∀ c, c ∈ take 10 cs → c ∉ drop 10 cs)
       ∧ currentContent fileId s' = last cs)
  ∧ (∀ fileId c0 cs s, NoDup (c0 :: cs) → length (c0 :: cs) = 60%nat →
       (∀ e, s !! fileId = Some e → last (history e) = Some c0 →
             currentIndex e = Z.of_nat (length (history e)) - 1) →
       pushAll fileId cs (initializeHistory fileId c0 s) !! fileId
       = Some {| history := drop 10 (c0 :: cs); currentIndex := 49 |}).
Proof.
  split_and!.
  - apply reachable_storeCapped.
  - apply runOp_storeCapped.
  - intros fileId c0 cs s Hnd Hlen. cbv zeta.
    pose proof (push_sixty fileId cs (initializeHistory fileId c0 s) Hnd Hlen)
      as Hs'.
    split_and!.
    + done.
    + rewrite length_drop. lia.
    + intros c Hin Hin'. rewrite <- (take_drop 10 cs) in Hnd.
      apply NoDup_app in Hnd as (_ & Hd & _). by apply (Hd c).
    + unfold currentContent. rewrite Hs'. simpl.
      replace 49 with (Z.of_nat (length (drop 10 cs)) - 1)
        by (rewrite length_drop; lia).
      rewrite js_index_last. rewrite <- (take_drop 10 cs) at 2.
      rewrite last_app. destruct (last (drop 10 cs)) eqn:E; [done|].
      apply last_None in E. apply (f_equal length) in E.
      rewrite length_drop in E. simpl in E. lia.
  - intros fileId c0 cs s Hnd Hlen Htip.
    destruct (initializeHistory_tip fileId c0 s Htip) as [pre0 H0].
    rewrite (pushAll_tip fileId cs c0 (pre0 ++ [c0]) _ H0 (last_snoc _ _));
      [| by apply NoDup_changing | by destruct cs].
    rewrite <- app_assoc. simpl app at 2.
    rewrite lastn_app_long by lia.
    unfold tipEntry, lastn. rewrite Hlen. do 2 f_equal.
    rewrite length_drop, Hlen. done.
Qed.

Lemma cap_enforcement_witness :
  let cs := (λ n, String (Ascii.ascii_of_nat n) EmptyString) <$> seq 0 60 in
  let cs' := (λ n, String (Ascii.ascii_of_nat n) EmptyString) <$> seq 0 59 in
  pushAll "d" cs (initializeHistory "d" "start" ∅) !! "d"%string
    = Some {| history := drop 10 cs; currentIndex := 49 |}
  ∧ pushAll "d" cs' (initializeHistory "d" "start" ∅) !! "d"%string
    = Some {| history := drop 10 ("start"%string :: cs'); currentIndex := 49 |}
  ∧ storeCapped (runOp (OpPush "d" "x") (runOp (OpInitialize "d" "start") ∅)).
Proof.
  intros cs cs'. destruct cap_enforcement as (Hreach & Hkeep & Hsixty & Hwith).
  split_and!.
  - apply (Hsixty "d"%string "start"%string cs ∅).
    + apply (bool_decide_unpack (NoDup cs)). vm_compute. exact I.
    + reflexivity.
  - apply (Hwith "d"%string "start"%string cs' ∅).
    + apply (bool_decide_unpack (NoDup _)). vm_compute. exact I.
    + reflexivity.
    + intros e He. by rewrite lookup_empty in He.
  - apply Hkeep, Hreach. apply reachable_step, reachable_empty.
Defined.

End Cap.

Section UndoRedoLaw.
Implicit Types (s : Histories) (e : DocumentHistoryEntry).

(** C1, as the code has it. Let c1 .. cn (1 <= n <= 49) be pushed after
    [initializeHistory] with c0, each content differing from the one
    before it, on a store where the entry, if [initializeHistory] keeps
    it, has its cursor on its last snapshot. Then after the k-th of n
    calls of [undo] the content under the cursor is c(n-k), after the k-th
    of the n calls of [redo] that follow it is ck, and the store is again
    the one before the first undo, with cn under the cursor. A call
    returns the content it moves the cursor to when React runs its updater
    inside the call; what a call returns otherwise is not stated here.
    Calls are counted from 0 in [eagers1] and [eagers2]. *)
Theorem undo_redo_inverse fileId c0 rest s eagers1 eagers2 :
  rest ≠ [] →
  (length rest ≤ 49)%nat →
  changing c0 rest →
  (∀ e, s !! fileId = Some e → last (history e) = Some c0 →
        currentIndex e = Z.of_nat (length (history e)) - 1) →
  let n := length rest in
  length eagers1 = n →
  length eagers2 = n →
  let pushed := pushAll fileId rest (initializeHistory fileId c0 s) in
  let undone := undoTimes eagers1 fileId pushed in
  let redone := redoTimes eagers2 fileId undone.1 in
  (∀ k, (k ≤ n)%nat →
     currentContent fileId (undoTimes (take k eagers1) fileId pushed).1
     = (c0 :: rest) !! (n - k)%nat)
  ∧ (∀ k, eagers1 !! k = Some true →
       undone.2 !! k = Some ((c0 :: rest) !! (n - S k)%nat))
  ∧ (∀ k, (k ≤ n)%nat →
       currentContent fileId (redoTimes (take k eagers2) fileId undone.1).1
       = (c0 :: rest) !! k)
  ∧ (∀ k, eagers2 !! k = Some true → redone.2 !! k = Some (rest !! k))
  ∧ redone.1 = pushed
  ∧ currentContent fileId redone.1 = last rest.
Proof.
  intros Hne Hlen Hch Htip n Hn1 Hn2. cbv zeta.
  destruct (initializeHistory_tip fileId c0 s Htip) as [pre0 H0].
  pose proof (pushAll_tip fileId rest c0 (pre0 ++ [c0]) _ H0
                (last_snoc _ _) Hch Hne) as H1.
  rewrite <- app_assoc in H1.
  rewrite lastn_app_r in H1 by (simpl; lia).
  set (pre := lastn (50 - length ([c0] ++ rest)) pre0) in H1.
  set (pushed := pushAll fileId rest (initializeHistory fileId c0 s)) in *.
  set (h := pre ++ [c0] ++ rest) in H1.
  assert (Hh : length h = (length pre + S n)%nat).
  { unfold h. rewrite !length_app. simpl. lia. }
  assert (Hat : ∀ k, h !! (length pre + k)%nat = (c0 :: rest) !! k).
  { intros k. unfold h. rewrite lookup_app_r by lia. f_equal. lia. }
  (* the store after the first calls of undo *)
  assert (Hu : ∀ es, (length es ≤ n)%nat →
            undoTimes es fileId pushed
            = (<[fileId := {| history := h;
                              currentIndex :=
                                Z.of_nat (length pre + (n - length es)) |}]>
                 pushed,
               imap (λ k (eager : bool),
                       if eager then (c0 :: rest) !! (n - S k)%nat
                       else None) es)).
  { intros es Hes.
    rewrite (undoTimes_run fileId es pushed (tipEntry h) H1)
      by (unfold tipEntry; simpl; lia).
    unfold tipEntry. cbn [history currentIndex]. f_equal.
    - do 2 f_equal. lia.
    - apply imap_ext. intros k b Hk. apply lookup_lt_Some in Hk.
      destruct b; [|done]. rewrite <- Hat.
      replace (Z.of_nat (length h) - 1 - 1 - Z.of_nat k)
        with (Z.of_nat (length pre + (n - S k))) by lia.
      apply js_index_nat. }
  rewrite (Hu eagers1) by lia. cbn [fst snd].
  rewrite Hn1, Nat.sub_diag, Nat.add_0_r.
  set (back := <[fileId := {| history := h;
                              currentIndex := Z.of_nat (length pre) |}]>
                 pushed).
  assert (Hback : back !! fileId
                  = Some {| history := h;
                            currentIndex := Z.of_nat (length pre) |})
    by (unfold back; by rewrite lookup_insert_eq).
  assert (Hr : ∀ es, (length es ≤ n)%nat →
            redoTimes es fileId back
            = (<[fileId := {| history := h;
                              currentIndex :=
                                Z.of_nat (length pre + length es) |}]> pushed,
               imap (λ k (eager : bool),
                       if eager then rest !! k else None) es)).
  { intros es Hes.
    rewrite (redoTimes_run fileId es back _ Hback)
      by (cbn [history currentIndex]; lia).
    cbn [history currentIndex]. unfold back. rewrite insert_insert_eq.
    f_equal.
    - do 2 f_equal. lia.
    - apply imap_ext. intros k b Hk. destruct b; [|done].
      replace (Z.of_nat (length pre) + 1 + Z.of_nat k)
        with (Z.of_nat (length pre + S k)) by lia.
      rewrite js_index_nat. by rewrite Hat. }
  rewrite (Hr eagers2) by lia. cbn [fst snd]. split_and!.
  - intros k Hk. rewrite Hu by (rewrite length_take; lia). cbn [fst].
    unfold currentContent. rewrite lookup_insert_eq. simpl.
    rewrite js_index_nat, length_take, Hn1, Nat.min_l by lia. apply Hat.
  - intros k Hk. by rewrite list_lookup_imap, Hk.
  - intros k Hk. rewrite Hr by (rewrite length_take; lia). cbn [fst].
    unfold currentContent. rewrite lookup_insert_eq. simpl.
    rewrite js_index_nat, length_take, Hn2, Nat.min_l by lia. apply Hat.
  - intros k Hk. by rewrite list_lookup_imap, Hk.
  - rewrite Hn2. apply insert_id. rewrite H1. unfold tipEntry.
    do 2 f_equal. lia.
  - rewrite Hn2. unfold currentContent. rewrite lookup_insert_eq. simpl.
    rewrite js_index_nat, Hat. fold n.
    destruct rest as [|y rest' _] using rev_ind; [done|].
    rewrite last_snoc. unfold n. rewrite length_app. simpl.
    change (c0 :: rest' ++ [y]) with ((c0 :: rest') ++ [y]).
    rewrite lookup_app_r by (simpl; lia). simpl.
    by replace (length rest' + 1 - S (length rest'))%nat with 0%nat by lia.
Qed.

Lemma undo_redo_inverse_witness :
  let pushed := pushAll "d" ["b"; "c"]%string (initializeHistory "d" "a" ∅) in
  let undone := undoTimes [true; false] "d" pushed in
  let redone := redoTimes [false; true] "d" undone.1 in
  currentContent "d" (undoTimes [true] "d" pushed).1 = Some "b"%string
  ∧ currentContent "d" undone.1 = Some "a"%string
  ∧ undone.2 !! 0%nat = Some (Some "b"%string)
  ∧ currentContent "d" (redoTimes [false] "d" undone.1).1 = Some "b"%string
  ∧ redone.2 !! 1%nat = Some (Some "c"%string)
  ∧ redone.1 = pushed
  ∧ currentContent "d" redone.1 = Some "c"%string.
Proof.
  destruct (undo_redo_inverse "d" "a" ["b"; "c"]%string ∅
              [true; false] [false; true])
    as (Hback & Hret & Hforth & Hret' & Hstore & Hlast).
  - done.
  - simpl. lia.
  - by repeat split.
  - intros e H. by rewrite lookup_empty in H.
  - reflexivity.
  - reflexivity.
  - split_and!.
    + apply (Hback 1%nat). simpl. lia.
    + apply (Hback 2%nat). simpl. lia.
    + by apply (Hret 0%nat).
    + apply (Hforth 1%nat). simpl. lia.
    + by apply (Hret' 1%nat).
    + exact Hstore.
    + exact Hlast.
Defined.

(** C1, as stated, fails: when a content equals the one before it the
    push is not recorded, and the undo that should return it returns
    nothing, also when React runs every updater inside its call. *)
Lemma undo_redo_inverse_fails_on_repeat :
  ¬ (∀ fileId c0 rest (s : Histories),
       rest ≠ [] →
       (undoTimes (replicate (length rest) true) fileId
          (pushAll fileId rest (initializeHistory fileId c0 s))).2
       = Some <$> reverse (take (length rest) (c0 :: rest))).
Proof.
  intros H.
  specialize (H "d"%string "a"%string ["a"%string] ∅ ltac:(done)).
  revert H. simpl.
  rewrite (initializeHistory_replaced "d" "a" ∅)
    by (intros e He; by rewrite lookup_empty in He).
  erewrite addHistoryStep_same; [| by rewrite lookup_insert_eq | done].
  unfold undo. rewrite lookup_insert_eq. simpl. done.
Qed.

(** The two other conditions of the law are needed as well. Past the
    cap the first contents are gone: after c0 and fifty changing pushes
    the fiftieth undo returns nothing. *)
Lemma law_fails_past_the_cap :
  let rest := (λ n, String (Ascii.ascii_of_nat n) EmptyString) <$> seq 1 50 in
  changing "start" rest
  ∧ last (undoTimes (replicate 50 true) "d"
            (pushAll "d" rest (initializeHistory "d" "start" ∅))).2
    = Some None.
Proof. split; [by vm_compute | by vm_compute]. Qed.

(** An entry kept by [initializeHistory] with its cursor behind its last
    snapshot: the undo returns the snapshot the cursor was on, not
    [c0]. *)
Lemma law_fails_behind_the_tip :
  let s : Histories :=
    {[ "d"%string := {| history := ["x"; "a"]%string; currentIndex := 0 |} ]} in
  (undoTimes [true] "d"
     (pushAll "d" ["b"%string] (initializeHistory "d" "a" s))).2
  = [Some "x"%string].
Proof. by vm_compute. Qed.

(** The value that [undo] returns is assigned by its updater: when React
    queues the updater the cursor moves and the call returns nothing. *)
Lemma undo_returns_nothing_when_queued :
  let s : Histories :=
    {[ "d"%string := {| history := ["a"; "b"]%string; currentIndex := 1 |} ]} in
  undo false "d" s
  = ({[ "d"%string := {| history := ["a"; "b"]%string; currentIndex := 0 |} ]},
     None)
  ∧ undo true "d" s
    = ({[ "d"%string := {| history := ["a"; "b"]%string; currentIndex := 0 |} ]},
       Some "a"%string).
Proof.
  intros s. unfold undo, s. rewrite lookup_singleton_eq. simpl.
  by rewrite insert_singleton_eq.
Qed.
End UndoRedoLaw.

(** ** Sorting the transcript *)

Section Sorting.
Implicit Types (m x y : ChatMessage.t) (l : list ChatMessage.t).

Lemma insertByTimestamp_perm m l : insertByTimestamp m l ≡ₚ m :: l.
Proof.
  induction l as [|y l IH]; simpl; [done|].
  destruct (decide _); [done|]. rewrite IH. apply perm_swap.
Qed.

Lemma sortByTimestamp_perm l : sortByTimestamp l ≡ₚ l.
Proof.
  induction l as [|x l IH]; simpl; [done|].
  rewrite insertByTimestamp_perm. by rewrite IH.
Qed.

Lemma insertByTimestamp_ascending m l :
  ascending l → ascending (insertByTimestamp m l).
Proof.
  unfold ascending. induction l as [|y l IH]; simpl; intros Hl.
  - repeat constructor.
  - apply StronglySorted_inv in Hl as [Hl Hy].
    destruct (decide _) as [Hle|Hgt].
    + constructor; [by constructor|].
      constructor; [done|].
      eapply Forall_impl; [exact Hy|]. unfold byTimestamp. intros; lia.
    + constructor; [by apply IH|].
      rewrite insertByTimestamp_perm. constructor; [|done].
      unfold byTimestamp. lia.
Qed.

Lemma sortByTimestamp_ascending l : ascending (sortByTimestamp l).
Proof.
  induction l as [|x l IH]; simpl; [constructor|].
  by apply insertByTimestamp_ascending.
Qed.

(** A message is put before the first one that is not earlier. *)
Lemma insertByTimestamp_split m l :
  ∃ l1 l2, l = l1 ++ l2 ∧ insertByTimestamp m l = l1 ++ m :: l2
    ∧ Forall (λ y, ChatMessage.timestamp y < ChatMessage.timestamp m) l1.
Proof.
  induction l as [|y l (l1 & l2 & -> & Hins & Hlt)]; simpl.
  - by exists [], [].
  - destruct (decide _) as [Hle|Hgt].
    + by exists [], (y :: l1 ++ l2).
    + exists (y :: l1), l2. rewrite Hins. split_and!; [done..|].
      constructor; [lia|done].
Qed.

Lemma insertByTimestamp_head m l :
  Forall (byTimestamp m) l → insertByTimestamp m l = m :: l.
Proof.
  destruct l as [|y l]; [done|]. intros [Hy _]%Forall_cons. simpl.
  by destruct (decide _).
Qed.

Lemma sortByTimestamp_id l : ascending l → sortByTimestamp l = l.
Proof.
  unfold ascending. induction l as [|x l IH]; [done|].
  intros [Hl Hx]%StronglySorted_inv. simpl. rewrite IH by done.
  by apply insertByTimestamp_head.
Qed.

Lemma insertByTimestamp_sublist m l : l `sublist_of` insertByTimestamp m l.
Proof.
  destruct (insertByTimestamp_split m l) as (l1 & l2 & -> & -> & _).
  apply sublist_app; [done|]. by apply sublist_cons.
Qed.

(** The sort is stable: a message that stands before one that is not
    earlier still stands before it afterwards. *)
Lemma sortByTimestamp_stable x y l :
  precedes x y l → byTimestamp x y → precedes x y (sortByTimestamp l).
Proof.
  unfold precedes, byTimestamp. intros Hsub Hle.
  induction l as [|z l IH]; [by apply sublist_nil_r in Hsub|].
  simpl. apply sublist_cons_r in Hsub as [Hsub|(l' & [= <- <-] & Hsub)].
  - etrans; [by apply IH|]. apply insertByTimestamp_sublist.
  - destruct (insertByTimestamp_split x (sortByTimestamp l))
      as (l1 & l2 & Heq & -> & Hlt).
    assert (Hy : y ∈ l1 ++ l2).
    { rewrite <- Heq, sortByTimestamp_perm.
      by apply singleton_sublist_l. }
    apply elem_of_app in Hy as [Hy|Hy].
    + rewrite Forall_forall in Hlt. apply Hlt in Hy. lia.
    + apply sublist_inserts_l, sublist_skip.
      by apply singleton_sublist_l.
Qed.
End Sorting.

(** ** The transcript stays sorted *)

Section TranscriptOrder.
Implicit Types (st : AppState) (l prev : list ChatMessage.t).

Lemma chatMessages_handleDocumentContentChange fileId c st :
  chatMessages (handleDocumentContentChange fileId c st) = chatMessages st.
Proof. unfold handleDocumentContentChange. by destruct (decide _). Qed.

(** What [receiveAIResult] does to the transcript: one message of the
    assistant is appended. *)
Lemma chatMessages_receiveAIResult activeFile aiResult newId now st :
  ∃ replyText,
    chatMessages (receiveAIResult activeFile aiResult newId now st)
    = addMessageToList (ChatMessage.aiMessage newId replyText now)
                       (chatMessages st).
Proof.
  unfold receiveAIResult.
  destruct aiResult as [r|]; [|by eexists].
  destruct (action_type r), (new_document_content r), activeFile;
    eexists; simpl; rewrite ?chatMessages_handleDocumentContentChange;
    done.
Qed.

(** What [editAndRegenerateFinish] does to the transcript: one message of
    the assistant is placed after the edited message. Its text is the
    answer, with a note when the answer is an update and no document is
    active, or the notice of a failure when the call threw. *)
Lemma chatMessages_editAndRegenerateFinish
    originalUserMessageId activeFile aiResult newId now st :
  chatMessages (editAndRegenerateFinish originalUserMessageId activeFile
                  aiResult newId now st)
  = insertReply originalUserMessageId
      (ChatMessage.aiMessage newId
         match aiResult with
         | None =>
             "Hubo un problema contactando a la IA durante la regeneración."
         | Some r =>
             match action_type r, activeFile with
             | DOCUMENT_UPDATE, None =>
                 chat_message r
                 +:+ " (Nota: No hay un documento activo para aplicar cambios.)"
             | _, _ => chat_message r
             end
         end now)
      (chatMessages st).
Proof.
  unfold editAndRegenerateFinish.
  destruct aiResult as [r|]; [|done].
  destruct (action_type r), (new_document_content r), activeFile;
    simpl; rewrite ?chatMessages_handleDocumentContentChange; done.
Qed.

Lemma chatMessages_editAndRegenerateBegin
    originalUserMessageId newText now imagePart previewUrl st :
  chatMessages (editAndRegenerateBegin originalUserMessageId newText now
                  imagePart previewUrl st)
  = match editedTranscript originalUserMessageId newText now imagePart
            previewUrl (chatMessages st) with
    | Some tempUpdatedMessages => sortByTimestamp tempUpdatedMessages
    | None => chatMessages st
    end.
Proof.
  unfold editAndRegenerateBegin. simpl.
  by destruct (editedTranscript _ _ _ _ _ _).
Qed.

(** C6. Whatever the transcript was before, it is in ascending order of
    timestamp after the initial load, after a message is appended, after
    either step of edit-and-regenerate that stores a transcript, after a
    message is deleted and after the welcome message is replaced. The
    one call that stores nothing, an edit of a message that is not in
    the transcript, leaves the transcript as it was. *)
Theorem transcript_sorted_after_mutation :
  (∀ savedMessages, ascending (loadChatMessages savedMessages))
  ∧ (∀ message prev, ascending (addMessageToList message prev))
  ∧ (∀ activeFile aiResult newId now st,
       ascending (chatMessages
                    (receiveAIResult activeFile aiResult newId now st)))
  ∧ (∀ msgId newText now imagePart previewUrl st,
       let st' := editAndRegenerateBegin msgId newText now imagePart
                    previewUrl st in
       match findIndexById msgId (chatMessages st) with
       | Some _ => ascending (chatMessages st')
       | None => chatMessages st' = chatMessages st
       end)
  ∧ (∀ msgId activeFile aiResult newId now st,
       ascending (chatMessages
                    (editAndRegenerateFinish msgId activeFile aiResult
                       newId now st)))
  ∧ (∀ messageId st, ascending (chatMessages (deleteChatMessage messageId st)))
  ∧ (∀ fileName isNewFile newId now st,
       ascending (chatMessages
                    (addWelcomeMessage fileName isNewFile newId now st))).
Proof.
  split_and!.
  - intros [l|]; simpl; [apply sortByTimestamp_ascending | constructor].
  - intros. apply sortByTimestamp_ascending.
  - intros.
    destruct (chatMessages_receiveAIResult activeFile aiResult newId now st)
      as [replyText ->].
    apply sortByTimestamp_ascending.
  - intros msgId newText now imagePart previewUrl st. cbv zeta.
    rewrite chatMessages_editAndRegenerateBegin.
    unfold editedTranscript.
    destruct (findIndexById _ _) as [i|]; [|done].
    destruct (staleReplyId _ _) as [oldId|];
      [destruct (decide _)|]; apply sortByTimestamp_ascending.
  - intros.
    rewrite chatMessages_editAndRegenerateFinish.
    apply sortByTimestamp_ascending.
  - intros. apply sortByTimestamp_ascending.
  - intros. apply sortByTimestamp_ascending.
Qed.
End TranscriptOrder.

(** ** Edit and regenerate *)

Section EditRegenerate.
Implicit Types (st : AppState) (l prev : list ChatMessage.t).
Implicit Types (m reply : ChatMessage.t).

(** Where [findIndexById] lands when one message only has the id. *)
Lemma findIndexById_unique m l :
  m ∈ l →
  (∀ y, y ∈ l → ChatMessage.id y = ChatMessage.id m → y = m) →
  ∃ l1 l2, l = l1 ++ m :: l2
    ∧ findIndexById (ChatMessage.id m) l = Some (length l1).
Proof.
  intros Hin Huniq. unfold findIndexById.
  destruct (list_find_elem_of
              (λ msg, ChatMessage.id msg = ChatMessage.id m) l m Hin eq_refl)
    as [[i x] Hf].
  rewrite Hf. simpl.
  apply list_find_Some in Hf as (Hi & Hx & _).
  assert (x = m) as ->.
  { apply Huniq; [|done]. by eapply list_elem_of_lookup_2. }
  exists (take i l), (drop (S i) l). split.
  - by rewrite take_drop_middle.
  - rewrite length_take. apply lookup_lt_Some in Hi. f_equal. lia.
Qed.

Lemma placeReply_after m reply l1 l2 :
  findIndexById (ChatMessage.id m) (l1 ++ m :: l2) = Some (length l1) →
  placeReply (ChatMessage.id m) reply (l1 ++ m :: l2)
    = l1 ++ m :: reply :: l2.
Proof.
  intros Hf. unfold placeReply. rewrite Hf.
  replace (take (S (length l1)) (l1 ++ m :: l2)) with (l1 ++ [m]).
  2:{ rewrite take_app_ge by lia.
      replace (S (length l1) - length l1)%nat with 1%nat by lia. done. }
  replace (drop (S (length l1)) (l1 ++ m :: l2)) with l2.
  2:{ rewrite drop_app_ge by lia.
      replace (S (length l1) - length l1)%nat with 1%nat by lia. done. }
  by rewrite <- app_assoc.
Qed.

Lemma NoDup_four {A} (a b c d : A) :
  NoDup [a; b; c; d] → a ≠ b ∧ a ≠ c ∧ a ≠ d ∧ b ≠ c ∧ b ≠ d ∧ c ≠ d.
Proof. rewrite !NoDup_cons, !not_elem_of_cons. tauto. Qed.

(** The edit of the first of four messages, the second being a reply. *)
Lemma editedTranscript_four U1 A1 U2 A2 newText now imagePart previewUrl :
  NoDup (ChatMessage.id <$> [U1; A1; U2; A2]) →
  ChatMessage.sender A1 = ChatMessage.ai →
  ChatMessage.id A1 ≠ ""%string →
  editedTranscript (ChatMessage.id U1) newText now imagePart previewUrl
    [U1; A1; U2; A2]
  = Some [editedMessage U1 newText now imagePart previewUrl; U2; A2].
Proof.
  intros (H12 & H13 & H14 & H23 & H24 & H34)%NoDup_four HA1 HA1id.
  unfold editedTranscript, findIndexById. simpl.
  destruct (decide (ChatMessage.id U1 = ChatMessage.id U1)); [|done].
  simpl. unfold staleReplyId. simpl.
  destruct (decide (ChatMessage.sender A1 = ChatMessage.ai)); [|done].
  destruct (decide (ChatMessage.id A1 = ""%string)); [done|].
  f_equal.
  rewrite filter_cons_True by (simpl; congruence).
  rewrite filter_cons_False by (intros Hn; by apply Hn).
  rewrite !filter_cons_True by (simpl; congruence).
  done.
Qed.

(** Where the messages end up when the edited message is later than the
    two that are left and the reply is not earlier than it: both move to
    the end, after U2 and A2. *)
Lemma insertReply_positions U1' U2 A2 reply :
  ChatMessage.id U1' ≠ ChatMessage.id U2 →
  ChatMessage.id U1' ≠ ChatMessage.id A2 →
  byTimestamp U2 A2 →
  ChatMessage.timestamp A2 < ChatMessage.timestamp U1' →
  ChatMessage.timestamp U1' <= ChatMessage.timestamp reply →
  insertReply (ChatMessage.id U1') reply (sortByTimestamp [U1'; U2; A2])
  = [U2; A2; U1'; reply].
Proof.
  intros H13 H14 Hle Hnow1 Hnow2. unfold byTimestamp in Hle.
  assert (Hsort : sortByTimestamp [U1'; U2; A2] = [U2; A2; U1']).
  { simpl. repeat (destruct (decide _); simpl in *; try lia). done. }
  rewrite Hsort. unfold insertReply.
  change [U2; A2; U1'] with ([U2; A2] ++ U1' :: []).
  rewrite (placeReply_after U1').
  - apply sortByTimestamp_id. unfold ascending. simpl.
    repeat constructor; unfold byTimestamp; simpl; lia.
  - unfold findIndexById. simpl.
    destruct (decide _); [congruence|].
    destruct (decide _); [congruence|].
    by destruct (decide _).
Qed.

(** C5. Let the transcript be U1, A1, U2, A2, with distinct ids, A1 sent
    by the assistant, and U2 not later than A2. Editing U1 gives the
    message U1' that has the id, the sender and the streaming fields of
    U1, the new text, the time of the edit as timestamp, and the
    attachment given with the edit. A1, the message right after U1, is
    removed and nothing else is: the transcript stored before the call is
    U1', U2, A2, sorted. The reply A1' has the new id, the assistant as
    sender, the time of the answer as timestamp and as text the answer
    (with a note when it asks for an update and no document is active),
    or the notice of a failure when the call threw; it is placed right
    after U1' before the transcript is sorted. The final transcript is in
    ascending order of timestamp and holds exactly U1', A1', U2 and A2,
    the last two unchanged and in their original order. When the edit is
    later than A2 and the answer not earlier than the edit, the final
    transcript is U2, A2, U1', A1' in this order. *)
Theorem edit_regenerate_replaces_stale_reply
    U1 A1 U2 A2 newText now1 imagePart previewUrl
    activeFile aiResult newId now2 st :
  chatMessages st = [U1; A1; U2; A2] →
  NoDup (ChatMessage.id <$> [U1; A1; U2; A2]) →
  ChatMessage.sender A1 = ChatMessage.ai →
  ChatMessage.id A1 ≠ ""%string →
  byTimestamp U2 A2 →
  let U1' := {| ChatMessage.id := ChatMessage.id U1;
                ChatMessage.sender := ChatMessage.sender U1;
                ChatMessage.text := newText;
                ChatMessage.timestamp := now1;
                ChatMessage.imagePreviewUrl := previewUrl;
                ChatMessage.imagePart := imagePart;
                ChatMessage.isStreaming := ChatMessage.isStreaming U1;
                ChatMessage.fullText := ChatMessage.fullText U1 |} in
  let replyText :=
    match aiResult with
    | None => "Hubo un problema contactando a la IA durante la regeneración."
    | Some r =>
        match action_type r, activeFile with
        | DOCUMENT_UPDATE, None =>
            chat_message r
            +:+ " (Nota: No hay un documento activo para aplicar cambios.)"
        | _, _ => chat_message r
        end
    end%string in
  let A1' := {| ChatMessage.id := newId;
                ChatMessage.sender := ChatMessage.ai;
                ChatMessage.text := replyText;
                ChatMessage.timestamp := now2;
                ChatMessage.imagePreviewUrl := None;
                ChatMessage.imagePart := None;
                ChatMessage.isStreaming := None;
                ChatMessage.fullText := None |} in
  let st1 := editAndRegenerateBegin (ChatMessage.id U1) newText now1
               imagePart previewUrl st in
  let st2 := editAndRegenerateFinish (ChatMessage.id U1) activeFile aiResult
               newId now2 st1 in
  editedTranscript (ChatMessage.id U1) newText now1 imagePart previewUrl
    (chatMessages st) = Some [U1'; U2; A2]
  ∧ chatMessages st1 = sortByTimestamp [U1'; U2; A2]
  ∧ (∃ l1 l2,
      chatMessages st1 = l1 ++ U1' :: l2
      ∧ placeReply (ChatMessage.id U1) A1' (chatMessages st1)
          = l1 ++ U1' :: A1' :: l2
      ∧ chatMessages st2 = sortByTimestamp (l1 ++ U1' :: A1' :: l2))
  ∧ ascending (chatMessages st2)
  ∧ chatMessages st2 ≡ₚ [U1'; A1'; U2; A2]
  ∧ precedes U2 A2 (chatMessages st2)
  ∧ (ChatMessage.timestamp A2 < now1 → now1 <= now2 →
     chatMessages st2 = [U2; A2; U1'; A1']).
Proof.
  intros Hst Hnd HA1 HA1id Hle U1' replyText A1' st1 st2.
  pose proof (NoDup_four _ _ _ _ Hnd) as (H12 & H13 & H14 & H23 & H24 & H34).
  assert (Hedit : editedTranscript (ChatMessage.id U1) newText now1 imagePart
                    previewUrl (chatMessages st) = Some [U1'; U2; A2]).
  { rewrite Hst. by apply editedTranscript_four. }
  assert (Hst1 : chatMessages st1 = sortByTimestamp [U1'; U2; A2]).
  { subst st1. by rewrite chatMessages_editAndRegenerateBegin, Hedit. }
  split; [done|]. split; [done|].
  assert (Hst2 : chatMessages st2
                 = insertReply (ChatMessage.id U1) A1' (chatMessages st1)).
  { subst st2. by rewrite chatMessages_editAndRegenerateFinish. }
  destruct (findIndexById_unique U1' (chatMessages st1))
    as (l1 & l2 & Hsplit & Hfind).
  { rewrite Hst1, sortByTimestamp_perm. by left. }
  { intros y. rewrite Hst1, sortByTimestamp_perm.
    rewrite !elem_of_cons, elem_of_nil. simpl.
    intros [->|[->|[->|[]]]]; [done|congruence..]. }
  assert (Hplace : placeReply (ChatMessage.id U1) A1' (chatMessages st1)
                   = l1 ++ U1' :: A1' :: l2).
  { rewrite Hsplit. apply (placeReply_after U1'). by rewrite <- Hsplit. }
  assert (Hfinal : chatMessages st2
                   = sortByTimestamp (l1 ++ U1' :: A1' :: l2)).
  { rewrite Hst2. unfold insertReply. by rewrite Hplace. }
  split_and!.
  - by exists l1, l2.
  - rewrite Hfinal. apply sortByTimestamp_ascending.
  - rewrite Hfinal, sortByTimestamp_perm.
    assert (Hrest : l1 ++ l2 ≡ₚ [U2; A2]).
    { apply (Permutation_cons_inv (a := U1')).
      rewrite Permutation_middle, <- Hsplit, Hst1.
      apply sortByTimestamp_perm. }
    rewrite <- !Permutation_middle. by rewrite Hrest.
  - rewrite Hfinal. apply sortByTimestamp_stable; [|done].
    unfold precedes. etrans; [|etrans].
    + apply (sortByTimestamp_stable U2 A2 [U1'; U2; A2]); [|done].
      apply sublist_cons. done.
    + rewrite <- Hst1, Hsplit. done.
    + apply sublist_app; [done|]. apply sublist_skip.
      by apply sublist_cons.
  - intros Hnow1 Hnow2. rewrite Hst2, Hst1.
    by apply (insertReply_positions U1' U2 A2 A1').
Qed.

Lemma edit_regenerate_replaces_stale_reply_witness :
  let U1 := ChatMessage.userMessage "u1" "first" 1 None None in
  let A1 := ChatMessage.aiMessage "a1" "reply one" 2 in
  let U2 := ChatMessage.userMessage "u2" "second" 3 None None in
  let A2 := ChatMessage.aiMessage "a2" "reply two" 4 in
  let st := {| files := []; documentHistories := ∅;
               chatMessages := [U1; A1; U2; A2]; isAILoading := false;
               isAICollaborating := false;
               previousDocumentContentForUndo := None;
               notifications := [] |} in
  let st1 := editAndRegenerateBegin "u1" "first, edited" 10 None None st in
  let st2 := editAndRegenerateFinish "u1" None
               (Some {| action_type := CHAT_REPLY;
                        new_document_content := None;
                        chat_message := "new reply" |}) "a3" 11 st1 in
  chatMessages st1
  = [U2; A2;
     {| ChatMessage.id := "u1"; ChatMessage.sender := ChatMessage.user;
        ChatMessage.text := "first, edited"; ChatMessage.timestamp := 10;
        ChatMessage.imagePreviewUrl := None; ChatMessage.imagePart := None;
        ChatMessage.isStreaming := None; ChatMessage.fullText := None |}]
  ∧ chatMessages st2
    = [U2; A2;
       {| ChatMessage.id := "u1"; ChatMessage.sender := ChatMessage.user;
          ChatMessage.text := "first, edited"; ChatMessage.timestamp := 10;
          ChatMessage.imagePreviewUrl := None; ChatMessage.imagePart := None;
          ChatMessage.isStreaming := None; ChatMessage.fullText := None |};
       {| ChatMessage.id := "a3"; ChatMessage.sender := ChatMessage.ai;
          ChatMessage.text := "new reply"; ChatMessage.timestamp := 11;
          ChatMessage.imagePreviewUrl := None; ChatMessage.imagePart := None;
          ChatMessage.isStreaming := None; ChatMessage.fullText := None |}]
  ∧ ascending (chatMessages st2) ∧ precedes U2 A2 (chatMessages st2).
Proof.
  intros U1 A1 U2 A2 st st1 st2.
  destruct (edit_regenerate_replaces_stale_reply U1 A1 U2 A2
              "first, edited" 10 None None None
              (Some {| action_type := CHAT_REPLY;
                       new_document_content := None;
                       chat_message := "new reply" |}) "a3" 11 st)
    as (_ & Hst1 & _ & Hasc & _ & Hprec & Hpos).
  - reflexivity.
  - apply (bool_decide_unpack (NoDup _)). vm_compute. exact I.
  - reflexivity.
  - discriminate.
  - unfold byTimestamp. simpl. lia.
  - split; [exact Hst1|]. split; [apply Hpos; simpl; lia|].
    split; [exact Hasc | exact Hprec].
Defined.

End EditRegenerate.

(** ** Undoing the change of the assistant *)

Section AIUndo.
Implicit Types (st : AppState) (f g : AppFile.t) (fs : list AppFile.t).

Lemma updateFileContentOnly_content fileId c fs g :
  g ∈ updateFileContentOnly fileId c fs →
  AppFile.id g = fileId → AppFile.content g = c.
Proof.
  unfold updateFileContentOnly.
  intros (f & -> & _)%list_elem_of_fmap.
  by destruct (decide _).
Qed.



(** The state after an answer that updates the active document. *)
Lemma receiveAIResult_update f r newContent newId now st :
  action_type r = DOCUMENT_UPDATE →
  new_document_content r = Some newContent →
  AppFile.id f ≠ ""%string →
  let st1 := receiveAIResult (Some f) (Some r) newId now st in
  files st1 = updateFileContentOnly (AppFile.id f) newContent (files st)
  ∧ documentHistories st1
      = addHistoryStep (AppFile.id f) newContent (documentHistories st)
  ∧ previousDocumentContentForUndo st1 = Some (AppFile.content f).
Proof.
  intros Ha Hc Hid. unfold receiveAIResult. rewrite Ha, Hc. simpl.
  unfold handleDocumentContentChange. by destruct (decide _).
Qed.

Lemma undoAIDocumentChange_applies f previousContent st :
  previousDocumentContentForUndo st = Some previousContent →
  AppFile.id f ≠ ""%string →
  let st' := undoAIDocumentChange (Some f) st in
  files st' = updateFileContentOnly (AppFile.id f) previousContent (files st)
  ∧ documentHistories st'
      = addHistoryStep (AppFile.id f) previousContent (documentHistories st)
  ∧ previousDocumentContentForUndo st' = None.
Proof.
  intros Hp Hid. unfold undoAIDocumentChange. rewrite Hp. simpl.
  unfold handleDocumentContentChange. by destruct (decide _).
Qed.

Lemma undoAIDocumentChange_nothing activeFile st :
  activeFile = None ∨ previousDocumentContentForUndo st = None →
  undoAIDocumentChange activeFile st = st.
Proof.
  unfold undoAIDocumentChange. intros [->| ->]; [done|].
  by destruct activeFile.
Qed.

(** C9. The undo of the assistant's change after an update, on the
    active document f1 with the content "before", to which the assistant
    answers with an update to "after". The answer stores "after" and
    keeps "before" as the snapshot. The file stored is a new value, so
    the active file has changed and the effect on the active document
    runs: it clears the snapshot, and the undo that follows changes
    nothing, the content stays "after". And when the document is given
    the content "typed" while the assistant is working, the snapshot is
    still the content the file had when the message was sent: right after
    the answer the undo stores "before", not the content "typed" that the
    update replaced. *)
Theorem ai_undo_lost_after_update :
  let f := {| AppFile.id := "f1"; AppFile.name := "ledger.txt";
              AppFile.folderId := None; AppFile.content := "before";
              AppFile.createdAt := 0; AppFile.deletedAt := None |} in
  let st := {| files := [f];
               documentHistories := {[ "f1"%string := freshEntry "before" ]};
               chatMessages := []; isAILoading := false;
               isAICollaborating := false;
               previousDocumentContentForUndo := None;
               notifications := [] |} in
  let r := {| action_type := DOCUMENT_UPDATE;
              new_document_content := Some "after"%string;
              chat_message := "done" |} in
  let sent := sendNewMessageBegin "tidy up" (Some f) None None "u1" 5000 st in
  let edited := receiveAIResult (Some f) (Some r) "m1" 6000 sent in
  let shown := activeFileChanged (Some "f1"%string) 6000 "w1" 6000 edited in
  let undone :=
    undoAIDocumentChange (findActiveFile (Some "f1"%string) (files shown))
                         shown in
  let typed := handleDocumentContentChange "f1" "typed" sent in
  let edited' := receiveAIResult (Some f) (Some r) "m1" 6000 typed in
  let undone' :=
    undoAIDocumentChange (findActiveFile (Some "f1"%string) (files edited'))
                         edited' in
  (AppFile.content <$> files edited = ["after"%string]
   ∧ previousDocumentContentForUndo edited = Some "before"%string
   ∧ findActiveFile (Some "f1"%string) (files edited)
       ≠ findActiveFile (Some "f1"%string) (files sent)
   ∧ previousDocumentContentForUndo shown = None
   ∧ undone = shown
   ∧ AppFile.content <$> files undone = ["after"%string])
  ∧ (AppFile.content <$> files typed = ["typed"%string]
     ∧ AppFile.content <$> files edited' = ["after"%string]
     ∧ previousDocumentContentForUndo edited' = Some "before"%string
     ∧ AppFile.content <$> files undone' = ["before"%string]
     ∧ previousDocumentContentForUndo undone' = None).
Proof.
  intros f st r sent edited shown undone typed edited' undone'.
  split; split_and!; try (vm_compute; reflexivity).
  vm_compute. discriminate.
Qed.

(** X28. [undoAIDocumentChange] as a function of the state it is called
    in. With a snapshot and an active document it passes the snapshot
    through the gateway: the content of the document becomes the
    snapshot, the snapshot is pushed on its history and is the content
    under the cursor, the snapshot is cleared and the notice is shown; a
    second call then changes nothing. Without a snapshot or without an
    active document the call changes nothing. *)
Theorem ai_undo_applies_snapshot_once :
  (∀ f previousContent st,
     previousDocumentContentForUndo st = Some previousContent →
     AppFile.id f ≠ ""%string →
     let st' := undoAIDocumentChange (Some f) st in
     st' = showNotification info
             "El último cambio de la IA ha sido deshecho." None
             (setPreviousDocumentContentForUndo None
                (handleDocumentContentChange (AppFile.id f)
                   previousContent st))
     ∧ files st'
         = updateFileContentOnly (AppFile.id f) previousContent (files st)
     ∧ (∀ g, g ∈ files st' → AppFile.id g = AppFile.id f →
             AppFile.content g = previousContent)
     ∧ documentHistories st'
         = addHistoryStep (AppFile.id f) previousContent
                          (documentHistories st)
     ∧ currentContent (AppFile.id f) (documentHistories st')
         = Some previousContent
     ∧ previousDocumentContentForUndo st' = None
     ∧ ∀ activeFile, undoAIDocumentChange activeFile st' = st')
  ∧ (∀ activeFile st,
       activeFile = None ∨ previousDocumentContentForUndo st = None →
       undoAIDocumentChange activeFile st = st).
Proof.
  split.
  - intros f previousContent st Hp Hid. cbv zeta.
    destruct (undoAIDocumentChange_applies f previousContent st Hp Hid)
      as (Hf & Hh & Hn).
    split_and!.
    + unfold undoAIDocumentChange. by rewrite Hp.
    + done.
    + intros g. rewrite Hf. apply updateFileContentOnly_content.
    + done.
    + rewrite Hh. apply addHistoryStep_current.
    + done.
    + intros activeFile. apply undoAIDocumentChange_nothing. by right.
  - apply undoAIDocumentChange_nothing.
Qed.

Lemma ai_undo_applies_snapshot_once_witness :
  let f := {| AppFile.id := "f1"; AppFile.name := "ledger.txt";
              AppFile.folderId := None; AppFile.content := "after";
              AppFile.createdAt := 0; AppFile.deletedAt := None |} in
  let st := {| files := [f];
               documentHistories :=
                 {[ "f1"%string :=
                      {| history := ["before"; "after"]%string;
                         currentIndex := 1 |} ]};
               chatMessages := []; isAILoading := false;
               isAICollaborating := false;
               previousDocumentContentForUndo := Some "before"%string;
               notifications := [] |} in
  let st' := undoAIDocumentChange (Some f) st in
  files st' = [AppFile.withContent f "before"]
  ∧ currentContent "f1" (documentHistories st') = Some "before"%string
  ∧ previousDocumentContentForUndo st' = None
  ∧ undoAIDocumentChange (Some f) st' = st'
  ∧ undoAIDocumentChange None st = st.
Proof.
  intros f st st'.
  destruct ai_undo_applies_snapshot_once as (Happly & Hnothing).
  destruct (Happly f "before"%string st)
    as (_ & Hfiles & _ & _ & Hcur & Hcleared & Hagain);
    [reflexivity | discriminate |].
  split_and!.
  - exact Hfiles.
  - exact Hcur.
  - exact Hcleared.
  - exact (Hagain (Some f)).
  - apply Hnothing. by left.
Defined.

End AIUndo.

(** ** The operations on small inputs *)

Section Examples.
Example slice_negative_end : js_slice_upto [1; 2; 3]%nat (-1) = [1; 2]%nat.
Proof. reflexivity. Qed.

Example slice_last_short : js_slice_last [1; 2; 3]%nat 50 = [1; 2; 3]%nat.
Proof. reflexivity. Qed.

Example push_after_undo_drops_redo :
  let s := pushAll "d" ["b"; "c"]%string (initializeHistory "d" "a" ∅) in
  addHistoryStep "d" "z" (undo true "d" (undo false "d" s).1).1 !! "d"%string
  = Some {| history := ["a"; "z"]%string; currentIndex := 1 |}.
Proof. by vm_compute. Qed.

Example undo_at_start_returns_nothing :
  undo true "d" (initializeHistory "d" "a" ∅)
  = (initializeHistory "d" "a" ∅, None).
Proof. by vm_compute. Qed.

(** The queries treat the empty id as no id. *)
Example history_state_empty_id :
  getHistoryState (Some ""%string)
    {[ ""%string := {| history := ["a"; "b"]%string; currentIndex := 1 |} ]}
  = {| canUndo := false; canRedo := false |}.
Proof. reflexivity. Qed.

(** A message dated before the last one is put in its place. *)
Example append_out_of_order :
  addMessageToList (ChatMessage.aiMessage "m2" "late" 5)
    [ChatMessage.userMessage "m1" "first" 1 None None;
     ChatMessage.userMessage "m3" "third" 9 None None]
  = [ChatMessage.userMessage "m1" "first" 1 None None;
     ChatMessage.aiMessage "m2" "late" 5;
     ChatMessage.userMessage "m3" "third" 9 None None].
Proof. reflexivity. Qed.

(** Messages of the same time keep their order. *)
Example sort_keeps_ties :
  sortByTimestamp
    [ChatMessage.aiMessage "x" "one" 4; ChatMessage.aiMessage "y" "two" 4;
     ChatMessage.aiMessage "z" "zero" 1]
  = [ChatMessage.aiMessage "z" "zero" 1; ChatMessage.aiMessage "x" "one" 4;
     ChatMessage.aiMessage "y" "two" 4].
Proof. reflexivity. Qed.

Example welcome_replaces_previous :
  addWelcomeMessageList "new.txt" true "w1" 7
    [ChatMessage.aiMessage "w0" (welcomeText "old.txt" false) 1;
     ChatMessage.userMessage "u" "hello" 2 None None]
  = [ChatMessage.userMessage "u" "hello" 2 None None;
     ChatMessage.aiMessage "w1" (welcomeText "new.txt" true) 7].
Proof. reflexivity. Qed.

Example delete_keeps_neighbours :
  deleteChatMessageList "u"
    [ChatMessage.userMessage "u" "hello" 2 None None;
     ChatMessage.aiMessage "a" "hi" 3]
  = [ChatMessage.aiMessage "a" "hi" 3].
Proof. reflexivity. Qed.

(** A user message followed by another user message loses no neighbour. *)
Example edit_without_reply :
  editedTranscript "u1" "edited" 9 None None
    [ChatMessage.userMessage "u1" "one" 1 None None;
     ChatMessage.userMessage "u2" "two" 2 None None]
  = Some [ChatMessage.userMessage "u1" "edited" 9 None None;
          ChatMessage.userMessage "u2" "two" 2 None None].
Proof. reflexivity. Qed.

Example edit_unknown_message :
  editedTranscript "nobody" "edited" 9 None None
    [ChatMessage.userMessage "u1" "one" 1 None None] = None.
Proof. reflexivity. Qed.

(** With an empty document id the gateway does nothing, and the snapshot
    is cleared all the same. *)
Example undo_ai_change_empty_id :
  let f := {| AppFile.id := ""; AppFile.name := "n";
              AppFile.folderId := None; AppFile.content := "now";
              AppFile.createdAt := 0; AppFile.deletedAt := None |} in
  let st := {| files := [f]; documentHistories := ∅; chatMessages := [];
               isAILoading := false; isAICollaborating := false;
               previousDocumentContentForUndo := Some "before"%string;
               notifications := [] |} in
  files (undoAIDocumentChange (Some f) st) = [f]
  ∧ previousDocumentContentForUndo (undoAIDocumentChange (Some f) st) = None.
Proof. split; reflexivity. Qed.
End Examples.

(** * Further properties of the code *)

(** ** The history store: single steps *)

Section HistorySteps.
Implicit Types (s : Histories) (e : DocumentHistoryEntry).

Lemma undo_Some eager fileId s e :
  s !! fileId = Some e → 0 < currentIndex e →
  undo eager fileId s
  = (<[fileId := {| history := history e;
                    currentIndex := currentIndex e - 1 |}]> s,
     if eager then js_index (history e) (currentIndex e - 1) else None).
Proof. intros H Hi. unfold undo. rewrite H. by destruct (decide _). Qed.

Lemma undo_None eager fileId s :
  (∀ e, s !! fileId = Some e → currentIndex e <= 0) →
  undo eager fileId s = (s, None).
Proof.
  intros H. unfold undo. destruct (s !! fileId) as [e|]; [|done].
  destruct (decide _) as [Hi|]; [|done]. specialize (H e eq_refl). lia.
Qed.

Lemma redo_Some eager fileId s e :
  s !! fileId = Some e →
  currentIndex e < Z.of_nat (length (history e)) - 1 →
  redo eager fileId s
  = (<[fileId := {| history := history e;
                    currentIndex := currentIndex e + 1 |}]> s,
     if eager then js_index (history e) (currentIndex e + 1) else None).
Proof. intros H Hi. unfold redo. rewrite H. by destruct (decide _). Qed.

Lemma redo_None eager fileId s :
  (∀ e, s !! fileId = Some e →
        Z.of_nat (length (history e)) - 1 <= currentIndex e) →
  redo eager fileId s = (s, None).
Proof.
  intros H. unfold redo. destruct (s !! fileId) as [e|]; [|done].
  destruct (decide _) as [Hi|]; [|done]. specialize (H e eq_refl). lia.
Qed.

Lemma js_index_in_range {A} (l : list A) i :
  0 <= i < Z.of_nat (length l) → is_Some (js_index l i).
Proof.
  intros. unfold js_index. destruct (decide _); [|lia].
  apply lookup_lt_is_Some. lia.
Qed.

(** A store in which the cursor of an entry has moved is another store. *)
Lemma insert_moved_ne fileId s e i :
  s !! fileId = Some e → i ≠ currentIndex e →
  <[fileId := {| history := history e; currentIndex := i |}]> s ≠ s.
Proof.
  intros E Hi Heq.
  apply (f_equal (λ m : Histories, m !! fileId)) in Heq.
  rewrite lookup_insert_eq, E in Heq. injection Heq as Heq.
  apply Hi. by rewrite <- Heq.
Qed.

(** X1. On a store that keeps the index invariant and for a non-empty id,
    the queries agree with what the operations do to the store: [canUndo]
    holds exactly when [undo] moves the cursor, and [canRedo] exactly when
    [redo] does, whether React runs the updater inside the call or not.
    The call returns a snapshot exactly when the query holds and React
    runs the updater inside the call: when the updater is queued the call
    returns nothing, though the cursor moves. *)
Theorem history_state_agrees_with_steps fileId s eager :
  storeOk s → fileId ≠ ""%string →
  (canUndo (getHistoryState (Some fileId) s) = true
     ↔ (undo eager fileId s).1 ≠ s)
  ∧ (is_Some (undo eager fileId s).2
     ↔ eager = true ∧ canUndo (getHistoryState (Some fileId) s) = true)
  ∧ (canRedo (getHistoryState (Some fileId) s) = true
     ↔ (redo eager fileId s).1 ≠ s)
  ∧ (is_Some (redo eager fileId s).2
     ↔ eager = true ∧ canRedo (getHistoryState (Some fileId) s) = true).
Proof.
  intros Hok Hid. unfold getHistoryState.
  destruct (decide _) as [|_]; [done|].
  destruct (s !! fileId) as [e|] eqn:E.
  - pose proof (Hok _ _ E) as [Hlo Hhi]. cbn [canUndo canRedo].
    rewrite !bool_decide_eq_true.
    assert (Hu : (0 < currentIndex e ↔ (undo eager fileId s).1 ≠ s)
                 ∧ (is_Some (undo eager fileId s).2
                    ↔ eager = true ∧ 0 < currentIndex e)).
    { destruct (decide (0 < currentIndex e)) as [Hi|Hi].
      - rewrite (undo_Some _ _ _ _ E Hi). cbn [fst snd]. split.
        + split; [|done]. intros _. apply insert_moved_ne; [done|lia].
        + destruct eager.
          * split; [done|]. intros _. apply js_index_in_range. lia.
          * split; [by intros [? ?]|by intros [? _]].
      - rewrite (undo_None eager fileId s)
          by (intros e' He'; rewrite E in He'; injection He' as <-; lia).
        cbn [fst snd]. split.
        + split; [lia|done].
        + split; [by intros [? ?]|intros [_ ?]; lia]. }
    assert (Hr : (currentIndex e < Z.of_nat (length (history e)) - 1
                  ↔ (redo eager fileId s).1 ≠ s)
                 ∧ (is_Some (redo eager fileId s).2
                    ↔ eager = true
                      ∧ currentIndex e < Z.of_nat (length (history e)) - 1)).
    { destruct (decide (currentIndex e < Z.of_nat (length (history e)) - 1))
        as [Hi|Hi].
      - rewrite (redo_Some _ _ _ _ E Hi). cbn [fst snd]. split.
        + split; [|done]. intros _. apply insert_moved_ne; [done|lia].
        + destruct eager.
          * split; [done|]. intros _. apply js_index_in_range. lia.
          * split; [by intros [? ?]|by intros [? _]].
      - rewrite (redo_None eager fileId s)
          by (intros e' He'; rewrite E in He'; injection He' as <-; lia).
        cbn [fst snd]. split.
        + split; [lia|done].
        + split; [by intros [? ?]|intros [_ ?]; lia]. }
    destruct Hu as [Hu1 Hu2], Hr as [Hr1 Hr2]. done.
  - rewrite (undo_None eager fileId s), (redo_None eager fileId s)
      by (intros e' He'; by rewrite E in He').
    cbn [fst snd canUndo canRedo]. split_and!.
    + split; [done|by intros ?].
    + split; [by intros [? ?]|by intros [_ ?]].
    + split; [done|by intros ?].
    + split; [by intros [? ?]|by intros [_ ?]].
Qed.

Lemma history_state_agrees_with_steps_witness :
  let s : Histories :=
    {[ "d"%string := {| history := ["a"; "b"]%string; currentIndex := 1 |} ]} in
  (canUndo (getHistoryState (Some "d"%string) s) = true
     ↔ (undo false "d" s).1 ≠ s)
  ∧ (is_Some (undo false "d" s).2
     ↔ false = true ∧ canUndo (getHistoryState (Some "d"%string) s) = true).
Proof.
  intros s.
  destruct (history_state_agrees_with_steps "d" s false) as (H1 & H2 & _).
  - intros i e. unfold s. rewrite lookup_singleton_Some.
    intros [_ <-]. unfold entryOk. simpl. lia.
  - discriminate.
  - split; [exact H1 | exact H2].
Defined.

(** X2. On a store that keeps the index invariant one step back and one
    step forward cancel: when [undo] moves the cursor, [redo] brings the
    store back, and it returns the content that was under the cursor when
    React runs its updater inside the call, nothing otherwise; and the
    same with the two exchanged. *)
Theorem undo_redo_single_step fileId s eager1 eager2 :
  storeOk s →
  ((undo eager1 fileId s).1 ≠ s →
     redo eager2 fileId (undo eager1 fileId s).1
     = (s, if eager2 then currentContent fileId s else None))
  ∧ ((redo eager1 fileId s).1 ≠ s →
     undo eager2 fileId (redo eager1 fileId s).1
     = (s, if eager2 then currentContent fileId s else None)).
Proof.
  intros Hok. unfold currentContent.
  destruct (s !! fileId) as [e|] eqn:E.
  2:{ rewrite (undo_None eager1 fileId s), (redo_None eager1 fileId s)
        by (intros e' He'; by rewrite E in He').
      split; simpl; by intros ?. }
  pose proof (Hok _ _ E) as [Hlo Hhi]. simpl. split.
  - destruct (decide (0 < currentIndex e)) as [Hi|Hi].
    2:{ rewrite (undo_None eager1 fileId s)
          by (intros e' He'; rewrite E in He'; injection He' as <-; lia).
        simpl. by intros ?. }
    intros _. rewrite (undo_Some _ _ _ _ E Hi). simpl.
    erewrite redo_Some; [| by rewrite lookup_insert_eq | simpl; lia].
    simpl. replace (currentIndex e - 1 + 1) with (currentIndex e) by lia.
    by rewrite insert_insert_eq, entry_eta, insert_id.
  - destruct (decide (currentIndex e < Z.of_nat (length (history e)) - 1))
      as [Hi|Hi].
    2:{ rewrite (redo_None eager1 fileId s)
          by (intros e' He'; rewrite E in He'; injection He' as <-; lia).
        simpl. by intros ?. }
    intros _. rewrite (redo_Some _ _ _ _ E Hi). simpl.
    erewrite undo_Some; [| by rewrite lookup_insert_eq | simpl; lia].
    simpl. replace (currentIndex e + 1 - 1) with (currentIndex e) by lia.
    by rewrite insert_insert_eq, entry_eta, insert_id.
Qed.

Lemma undo_redo_single_step_witness :
  let s : Histories :=
    {[ "d"%string := {| history := ["a"; "b"; "c"]%string; currentIndex := 1 |} ]} in
  redo true "d" (undo false "d" s).1 = (s, Some "b"%string)
  ∧ undo false "d" (redo true "d" s).1 = (s, None).
Proof.
  intros s.
  assert (Hok : storeOk s).
  { intros i e. unfold s. rewrite lookup_singleton_Some.
    intros [_ <-]. unfold entryOk. simpl. lia. }
  assert (Hmoved : ∀ i, i ≠ 1 →
            ({[ "d"%string := {| history := ["a"; "b"; "c"]%string;
                                 currentIndex := i |} ]} : Histories) ≠ s).
  { intros i Hi Heq.
    apply (f_equal (λ m : Histories, m !! "d"%string)) in Heq.
    unfold s in Heq. rewrite !lookup_singleton_eq in Heq.
    injection Heq as Heq. done. }
  split.
  - apply (proj1 (undo_redo_single_step "d" s false true Hok)).
    unfold undo, s. rewrite lookup_singleton_eq. simpl.
    rewrite insert_singleton_eq. by apply Hmoved.
  - apply (proj2 (undo_redo_single_step "d" s true false Hok)).
    unfold redo, s. rewrite lookup_singleton_eq. simpl.
    rewrite insert_singleton_eq. by apply Hmoved.
Defined.
End HistorySteps.

Section HistoryComposition.
Implicit Types (s : Histories) (e : DocumentHistoryEntry).

(** X3. After [initializeHistory] the document has an entry whose last
    snapshot is the content given, and a second call with the same content
    changes nothing. *)
Theorem initialize_settles fileId c s :
  (∃ e, initializeHistory fileId c s !! fileId = Some e
        ∧ last (history e) = Some c)
  ∧ initializeHistory fileId c (initializeHistory fileId c s)
    = initializeHistory fileId c s.
Proof.
  assert (H : ∃ e, initializeHistory fileId c s !! fileId = Some e
                   ∧ last (history e) = Some c).
  { unfold initializeHistory.
    destruct (s !! fileId) as [e|] eqn:E.
    - rewrite js_index_last. destruct (decide _) as [Hl|].
      + by exists e.
      + exists (freshEntry c). by rewrite lookup_insert_eq.
    - exists (freshEntry c). by rewrite lookup_insert_eq. }
  split; [done|]. destruct H as (e & He & Hl).
  by eapply initializeHistory_kept.
Qed.

Lemma take_upto_cursor e c0 :
  js_index (history e) (currentIndex e) = Some c0 →
  take (Z.to_nat (currentIndex e + 1)) (history e)
  = take (Z.to_nat (currentIndex e)) (history e) ++ [c0].
Proof.
  intros Hc. pose proof (js_index_Some_range _ _ _ Hc) as Hr.
  unfold js_index in Hc. destruct (decide _); [|lia].
  replace (Z.to_nat (currentIndex e + 1)) with (S (Z.to_nat (currentIndex e)))
    by lia.
  by apply take_S_r.
Qed.

(** The history after a push that changes the content: some snapshots,
    then the content that was under the cursor, then the one pushed. *)
Lemma addHistoryStep_changes fileId c c0 s e :
  s !! fileId = Some e →
  js_index (history e) (currentIndex e) = Some c0 → c0 ≠ c →
  ∃ q, addHistoryStep fileId c s
       = <[fileId := {| history := q ++ [c0; c];
                        currentIndex := Z.of_nat (length q) + 1 |}]> s.
Proof.
  intros E Hc Hne. pose proof (js_index_Some_range _ _ _ Hc) as Hr.
  rewrite (addHistoryStep_other_content _ _ _ _ E);
    [| lia | rewrite Hc; congruence].
  rewrite (take_upto_cursor _ _ Hc), <- app_assoc. simpl.
  rewrite lastn_app_r by (simpl; lia).
  eexists. unfold tipEntry. do 2 f_equal.
  rewrite length_app. simpl. lia.
Qed.

(** X4. A push that changes the content, then [undo]: the content that was
    under the cursor before the push is under it again, and [redo] then
    gives back the store as it was after the push. Each of the two calls
    returns the content it puts under the cursor when React runs its
    updater inside the call, and nothing when the updater is queued. *)
Theorem push_then_undo fileId c c0 s eager1 eager2 :
  currentContent fileId s = Some c0 → c0 ≠ c →
  let pushed := addHistoryStep fileId c s in
  (undo eager1 fileId pushed).2 = (if eager1 then Some c0 else None)
  ∧ currentContent fileId (undo eager1 fileId pushed).1 = Some c0
  ∧ redo eager2 fileId (undo eager1 fileId pushed).1
    = (pushed, if eager2 then Some c else None).
Proof.
  intros Hc Hne pushed. unfold currentContent in *.
  destruct (s !! fileId) as [e|] eqn:E; [|done]. simpl in Hc.
  destruct (addHistoryStep_changes fileId c c0 s e E Hc Hne) as [q Hq].
  subst pushed. rewrite Hq.
  erewrite undo_Some; [| by rewrite lookup_insert_eq | simpl; lia].
  cbn [fst snd history currentIndex].
  replace (Z.of_nat (length q) + 1 - 1) with (Z.of_nat (length q)) by lia.
  rewrite insert_insert_eq, lookup_insert_eq. simpl.
  assert (Hq0 : js_index (q ++ [c0; c]) (Z.of_nat (length q)) = Some c0).
  { rewrite js_index_nat. by rewrite lookup_app_r, Nat.sub_diag by lia. }
  split_and!; [by destruct eager1|done|].
  erewrite redo_Some;
    [| by rewrite lookup_insert_eq | simpl; rewrite length_app; simpl; lia].
  cbn [history currentIndex]. rewrite insert_insert_eq. f_equal.
  destruct eager2; [|done].
  replace (Z.of_nat (length q) + 1) with (Z.of_nat (S (length q))) by lia.
  rewrite js_index_nat.
  rewrite lookup_app_r by lia.
  by replace (S (length q) - length q)%nat with 1%nat by lia.
Qed.

Lemma push_then_undo_witness :
  let s : Histories :=
    {[ "d"%string := {| history := ["a"; "b"; "c"]%string; currentIndex := 1 |} ]} in
  (undo true "d" (addHistoryStep "d" "x" s)).2 = Some "b"%string
  ∧ (undo false "d" (addHistoryStep "d" "x" s)).2 = None
  ∧ currentContent "d" (undo false "d" (addHistoryStep "d" "x" s)).1
    = Some "b"%string.
Proof.
  intros s.
  destruct (push_then_undo "d" "x" "b" s true true) as (Hret & _);
    [reflexivity | discriminate |].
  destruct (push_then_undo "d" "x" "b" s false true) as (Hnone & Hcur & _);
    [reflexivity | discriminate |].
  split; [exact Hret|]. split; [exact Hnone | exact Hcur].
Defined.

(** X5. A push that changes the store leaves nothing to redo, however
    React runs the updater of [redo]; the one push that keeps what was
    ahead of the cursor is the push of the content already under it,
    which changes nothing. *)
Theorem changing_push_discards_redo fileId c s eager :
  addHistoryStep fileId c s ≠ s →
  redo eager fileId (addHistoryStep fileId c s)
  = (addHistoryStep fileId c s, None)
  ∧ canRedo (getHistoryState (Some fileId) (addHistoryStep fileId c s))
    = false.
Proof.
  intros Hne. rewrite addHistoryStep_unfold in *. cbv zeta in *.
  destruct (decide _); [done|]. split.
  - apply redo_None. intros e. rewrite lookup_insert_eq. intros [= <-].
    simpl. lia.
  - unfold getHistoryState. destruct (decide _); [done|].
    rewrite lookup_insert_eq. simpl. apply bool_decide_eq_false. lia.
Qed.

Lemma changing_push_discards_redo_witness :
  let s : Histories :=
    {[ "d"%string := {| history := ["a"; "b"; "c"]%string; currentIndex := 0 |} ]} in
  redo true "d" (addHistoryStep "d" "x" s) = (addHistoryStep "d" "x" s, None).
Proof.
  intros s. apply (changing_push_discards_redo "d" "x" s true).
  intros H. apply (f_equal (λ m : Histories, m !! "d"%string)) in H.
  vm_compute in H. discriminate H.
Defined.

(** X6. Discarding a document forgets whatever was done to it: the store
    after a discard is the same whether or not another operation on that
    document came first, the document is unknown afterwards, and a reset
    is a discard followed by [initializeHistory]. *)
Theorem discard_forgets fileId s :
  (∀ op, opId op = fileId →
     deleteFileHistory fileId (runOp op s) = deleteFileHistory fileId s)
  ∧ deleteFileHistory fileId s !! fileId = None
  ∧ (∀ c, resetFileHistory fileId c s
          = initializeHistory fileId c (deleteFileHistory fileId s)).
Proof.
  split_and!.
  - intros op Hop. apply map_eq. intros i. unfold deleteFileHistory.
    rewrite !lookup_delete. destruct (decide _) as [|Hne]; [done|].
    apply runOp_lookup_ne. congruence.
  - apply lookup_delete_eq.
  - intros c. unfold resetFileHistory, initializeHistory, deleteFileHistory.
    rewrite lookup_delete_eq. by rewrite insert_delete_eq.
Qed.

Lemma discard_forgets_witness :
  deleteFileHistory "d" (runOp (OpPush "d" "x") ∅)
  = deleteFileHistory "d" (∅ : Histories).
Proof.
  apply (proj1 (discard_forgets "d" ∅) (OpPush "d" "x")). reflexivity.
Defined.
End HistoryComposition.

(** ** Stored content and history cursor *)

Section ContentSync.
Implicit Types (st : AppState) (f g : AppFile.t).

Lemma AppState_eta st :
  {| files := files st; documentHistories := documentHistories st;
     chatMessages := chatMessages st; isAILoading := isAILoading st;
     isAICollaborating := isAICollaborating st;
     previousDocumentContentForUndo := previousDocumentContentForUndo st;
     notifications := notifications st |} = st.
Proof. by destruct st. Qed.

Lemma inSync_same st st' :
  files st' = files st →
  documentHistories st' = documentHistories st →
  inSync st → inSync st'.
Proof. unfold inSync. intros -> ->. done. Qed.

Lemma elem_of_updateFileContentOnly g fileId c fs :
  g ∈ updateFileContentOnly fileId c fs →
  (AppFile.id g = fileId ∧ AppFile.content g = c)
  ∨ (AppFile.id g ≠ fileId ∧ g ∈ fs).
Proof.
  unfold updateFileContentOnly.
  intros (f & -> & Hf)%list_elem_of_fmap.
  destruct (decide _); [by left | by right].
Qed.

(** The content of the files with one id replaced and the entry of that id
    replaced by one whose cursor is on that content. *)
Lemma inSync_replace fileId c (hs : Histories) st :
  (∀ e, hs !! fileId = Some e →
        js_index (history e) (currentIndex e) = Some c) →
  (∀ i, i ≠ fileId → hs !! i = documentHistories st !! i) →
  inSync st →
  inSync (setContentState (updateFileContentOnly fileId c (files st)) hs st).
Proof.
  intros Hcur Hother Hsync g e Hg He. simpl in *.
  apply elem_of_updateFileContentOnly in Hg as [[Hid ->]|[Hid Hg]].
  - rewrite Hid in He. by apply Hcur.
  - rewrite Hother in He by done. by apply Hsync.
Qed.

Lemma inSync_gateway fileId c st :
  inSync st → inSync (handleDocumentContentChange fileId c st).
Proof.
  intros Hsync. unfold handleDocumentContentChange.
  destruct (decide _); [done|].
  apply inSync_replace; [| |done].
  - intros e He. pose proof (addHistoryStep_current fileId c
                               (documentHistories st)) as Hc.
    unfold currentContent in Hc. by rewrite He in Hc.
  - intros i Hi. by apply addHistoryStep_lookup_ne.
Qed.

Lemma inSync_undo activeFileId st :
  inSync st → inSync (handleUndoFromEditor true activeFileId st).
Proof.
  intros Hsync. unfold handleUndoFromEditor.
  destruct activeFileId as [fileId|]; [|done].
  destruct (decide _); [done|].
  destruct (documentHistories st !! fileId) as [e|] eqn:E.
  2:{ rewrite undo_None by (intros e' He'; by rewrite E in He').
      by eapply inSync_same. }
  destruct (decide (0 < currentIndex e)) as [Hi|Hi].
  2:{ rewrite undo_None
        by (intros e' He'; rewrite E in He'; injection He' as <-; lia).
      by eapply inSync_same. }
  rewrite (undo_Some _ _ _ _ E Hi).
  destruct (js_index (history e) (currentIndex e - 1)) as [c|] eqn:Hc.
  - apply inSync_replace; [| |done].
    + intros e'. rewrite lookup_insert_eq. by intros [= <-].
    + intros i Hne. by rewrite lookup_insert_ne.
  - intros g e' Hg. simpl in *. rewrite lookup_insert.
    destruct (decide _) as [Heq|Hne]; [|by apply Hsync].
    intros _. exfalso. rewrite Heq in E.
    pose proof (js_index_Some_range _ _ _ (Hsync g e Hg E)) as Hr.
    destruct (js_index_in_range (history e) (currentIndex e - 1)) as [? Hs];
      [lia|]. by rewrite Hs in Hc.
Qed.

Lemma inSync_redo activeFileId st :
  inSync st → inSync (handleRedoFromEditor true activeFileId st).
Proof.
  intros Hsync. unfold handleRedoFromEditor.
  destruct activeFileId as [fileId|]; [|done].
  destruct (decide _); [done|].
  destruct (documentHistories st !! fileId) as [e|] eqn:E.
  2:{ rewrite redo_None by (intros e' He'; by rewrite E in He').
      by eapply inSync_same. }
  destruct (decide (currentIndex e < Z.of_nat (length (history e)) - 1))
    as [Hi|Hi].
  2:{ rewrite redo_None
        by (intros e' He'; rewrite E in He'; injection He' as <-; lia).
      by eapply inSync_same. }
  rewrite (redo_Some _ _ _ _ E Hi).
  destruct (js_index (history e) (currentIndex e + 1)) as [c|] eqn:Hc.
  - apply inSync_replace; [| |done].
    + intros e'. rewrite lookup_insert_eq. by intros [= <-].
    + intros i Hne. by rewrite lookup_insert_ne.
  - intros g e' Hg. simpl in *. rewrite lookup_insert.
    destruct (decide _) as [Heq|Hne]; [|by apply Hsync].
    intros _. exfalso. rewrite Heq in E.
    pose proof (js_index_Some_range _ _ _ (Hsync g e Hg E)) as Hr.
    destruct (js_index_in_range (history e) (currentIndex e + 1)) as [? Hs];
      [lia|]. by rewrite Hs in Hc.
Qed.

(** The editor's undo and redo when React queues the updater of the
    history: the cursor moves and the files stay. *)
Lemma handleUndoFromEditor_queued fileId st :
  fileId ≠ ""%string →
  handleUndoFromEditor false (Some fileId) st
  = setContentState (files st) (undo false fileId (documentHistories st)).1
                    st.
Proof.
  intros Hid. unfold handleUndoFromEditor. rewrite decide_False by done.
  unfold undo. destruct (documentHistories st !! fileId) as [e|]; [|done].
  by destruct (decide _).
Qed.

Lemma handleRedoFromEditor_queued fileId st :
  fileId ≠ ""%string →
  handleRedoFromEditor false (Some fileId) st
  = setContentState (files st) (redo false fileId (documentHistories st)).1
                    st.
Proof.
  intros Hid. unfold handleRedoFromEditor. rewrite decide_False by done.
  unfold redo. destruct (documentHistories st !! fileId) as [e|]; [|done].
  by destruct (decide _).
Qed.

(** X7. The stored content and the history cursor. If the content of
    every file that has a history entry is the snapshot under the cursor
    of that entry, it is so again after a change through the gateway,
    after an answer of the assistant (new message or regeneration), after
    the undo of the assistant's change, and after the undo and the redo of
    the editor when React runs the updater of the history inside the
    call. When React queues that updater, the undo and the redo of the
    editor move the cursor and leave the files as they are, and the
    content no longer is the snapshot under the cursor, unless the
    snapshot the cursor lands on is the content the file has. *)
Theorem content_follows_cursor st :
  inSync st →
  (∀ fileId c, inSync (handleDocumentContentChange fileId c st))
  ∧ (∀ activeFileId, inSync (handleUndoFromEditor true activeFileId st))
  ∧ (∀ activeFileId, inSync (handleRedoFromEditor true activeFileId st))
  ∧ (∀ activeFile aiResult newId now,
       inSync (receiveAIResult activeFile aiResult newId now st))
  ∧ (∀ msgId activeFile aiResult newId now,
       inSync (editAndRegenerateFinish msgId activeFile aiResult newId now st))
  ∧ (∀ activeFile, inSync (undoAIDocumentChange activeFile st))
  ∧ (∀ f e, f ∈ files st → AppFile.id f ≠ ""%string →
       documentHistories st !! AppFile.id f = Some e →
       (0 < currentIndex e →
        js_index (history e) (currentIndex e - 1)
          ≠ Some (AppFile.content f) →
        files (handleUndoFromEditor false (Some (AppFile.id f)) st)
          = files st
        ∧ ¬ inSync (handleUndoFromEditor false (Some (AppFile.id f)) st))
       ∧ (currentIndex e < Z.of_nat (length (history e)) - 1 →
          js_index (history e) (currentIndex e + 1)
            ≠ Some (AppFile.content f) →
          files (handleRedoFromEditor false (Some (AppFile.id f)) st)
            = files st
          ∧ ¬ inSync (handleRedoFromEditor false (Some (AppFile.id f)) st))).
Proof.
  intros Hsync. split_and!.
  - intros. by apply inSync_gateway.
  - intros. by apply inSync_undo.
  - intros. by apply inSync_redo.
  - intros activeFile aiResult newId now. unfold receiveAIResult.
    destruct aiResult as [r|]; [|by eapply inSync_same].
    destruct (action_type r), (new_document_content r) as [newContent|],
      activeFile as [f|]; try (by eapply inSync_same).
    eapply inSync_same;
      [| | apply (inSync_gateway (AppFile.id f) newContent
                    (setIsAICollaborating true
                       (setPreviousDocumentContentForUndo
                          (Some (AppFile.content f)) st)))];
      [done | done | by eapply inSync_same].
  - intros msgId activeFile aiResult newId now.
    unfold editAndRegenerateFinish.
    destruct aiResult as [r|]; [|by eapply inSync_same].
    destruct (action_type r), (new_document_content r) as [newContent|],
      activeFile as [f|]; try (by eapply inSync_same).
    eapply inSync_same;
      [| | apply (inSync_gateway (AppFile.id f) newContent
                    (setIsAICollaborating true
                       (setPreviousDocumentContentForUndo
                          (Some (AppFile.content f)) st)))];
      [done | done | by eapply inSync_same].
  - intros activeFile. unfold undoAIDocumentChange.
    destruct activeFile as [f|]; [|done].
    destruct (previousDocumentContentForUndo st) as [c|]; [|done].
    eapply inSync_same; [| | apply (inSync_gateway (AppFile.id f) c st)];
      done.
  - intros f e Hf Hid E. split.
    + intros Hi Hne. rewrite handleUndoFromEditor_queued by done.
      rewrite (undo_Some _ _ _ _ E Hi). split; [done|].
      intros Hbad. apply Hne.
      apply (Hbad f {| history := history e;
                       currentIndex := currentIndex e - 1 |} Hf).
      simpl. by rewrite lookup_insert_eq.
    + intros Hi Hne. rewrite handleRedoFromEditor_queued by done.
      rewrite (redo_Some _ _ _ _ E Hi). split; [done|].
      intros Hbad. apply Hne.
      apply (Hbad f {| history := history e;
                       currentIndex := currentIndex e + 1 |} Hf).
      simpl. by rewrite lookup_insert_eq.
Qed.

Lemma content_follows_cursor_witness :
  let f := {| AppFile.id := "f1"; AppFile.name := "notes.txt";
              AppFile.folderId := None; AppFile.content := "b";
              AppFile.createdAt := 0; AppFile.deletedAt := None |} in
  let st := {| files := [f];
               documentHistories :=
                 {[ "f1"%string :=
                      {| history := ["a"; "b"]%string; currentIndex := 1 |} ]};
               chatMessages := []; isAILoading := false;
               isAICollaborating := false;
               previousDocumentContentForUndo := None;
               notifications := [] |} in
  inSync (handleUndoFromEditor true (Some "f1"%string) st)
  ∧ inSync (handleDocumentContentChange "f1" "c" st)
  ∧ files (handleUndoFromEditor false (Some "f1"%string) st) = [f]
  ∧ ¬ inSync (handleUndoFromEditor false (Some "f1"%string) st).
Proof.
  intros f st.
  assert (Hsync : inSync st).
  { intros g e Hg He. apply list_elem_of_singleton in Hg as ->.
    simpl in He. rewrite lookup_singleton_eq in He. by injection He as <-. }
  destruct (content_follows_cursor st Hsync)
    as (Hg & Hu & _ & _ & _ & _ & Hq).
  destruct (Hq f {| history := ["a"; "b"]%string; currentIndex := 1 |})
    as [Hqu _]; [by left | discriminate | reflexivity |].
  destruct Hqu as [Hfiles Hlost]; [reflexivity | discriminate |].
  split; [apply Hu|]. split; [apply Hg|]. split; [exact Hfiles | exact Hlost].
Defined.


End ContentSync.

(** ** The transcript: filters and the sort *)

Section TranscriptFilters.
Implicit Types (m : ChatMessage.t) (l prev : list ChatMessage.t).
Context (P : ChatMessage.t → Prop) `{!∀ m, Decision (P m)}.

Lemma Forall_filter_keep (Q : ChatMessage.t → Prop) l :
  Forall Q l → Forall Q (filter P l).
Proof.
  rewrite !Forall_forall. intros HQ x [_ Hx]%list_elem_of_filter.
  by apply HQ.
Qed.

Lemma ascending_filter l : ascending l → ascending (filter P l).
Proof.
  unfold ascending. induction l as [|y l IH]; [done|].
  intros [Hl Hy]%StronglySorted_inv.
  rewrite filter_cons. destruct (decide _); [|by apply IH].
  constructor; [by apply IH|]. by apply Forall_filter_keep.
Qed.

Lemma filter_insertByTimestamp_keep m l :
  ascending l → P m →
  filter P (insertByTimestamp m l) = insertByTimestamp m (filter P l).
Proof.
  unfold ascending. intros Hl Hm. induction l as [|y l IH]; simpl.
  - by rewrite filter_cons_True, filter_nil.
  - apply StronglySorted_inv in Hl as [Hl Hy].
    destruct (decide (ChatMessage.timestamp m <= ChatMessage.timestamp y))
      as [Hle|Hgt].
    + rewrite filter_cons_True by done. symmetry.
      apply insertByTimestamp_head.
      rewrite filter_cons. destruct (decide _).
      * constructor; [done|]. apply Forall_filter_keep.
        eapply Forall_impl; [exact Hy|]. unfold byTimestamp. intros; lia.
      * apply Forall_filter_keep.
        eapply Forall_impl; [exact Hy|]. unfold byTimestamp. intros; lia.
    + rewrite !filter_cons. destruct (decide (P y)).
      * simpl. destruct (decide _); [lia|]. by rewrite IH.
      * by apply IH.
Qed.

Lemma filter_insertByTimestamp_drop m l :
  ¬ P m → filter P (insertByTimestamp m l) = filter P l.
Proof.
  intros Hm. destruct (insertByTimestamp_split m l) as (l1 & l2 & -> & -> & _).
  by rewrite !filter_app, filter_cons_False.
Qed.

(** The sort and a filter can be exchanged. *)
Lemma filter_sortByTimestamp l :
  filter P (sortByTimestamp l) = sortByTimestamp (filter P l).
Proof.
  induction l as [|x l IH]; [done|]. simpl.
  rewrite filter_cons. destruct (decide (P x)).
  - rewrite filter_insertByTimestamp_keep
      by (done || apply sortByTimestamp_ascending).
    simpl. by rewrite IH.
  - by rewrite filter_insertByTimestamp_drop.
Qed.
End TranscriptFilters.

Section TranscriptSteps.
Implicit Types (m : ChatMessage.t) (l prev : list ChatMessage.t).
Implicit Types (st : AppState).

Lemma isWelcome_welcomeText newId fileName isNewFile now :
  isWelcome (ChatMessage.aiMessage newId (welcomeText fileName isNewFile) now)
  = true.
Proof. by destruct isNewFile. Qed.

(** X9. After [addWelcomeMessage] the transcript holds exactly one welcome
    message, the new one, whatever number it held before; the other
    messages are all kept, and in their order when the transcript was
    sorted. *)
Theorem welcome_message_is_single fileName isNewFile newId now prev :
  let result := addWelcomeMessageList fileName isNewFile newId now prev in
  filter (λ m, isWelcome m = true) result
    = [ChatMessage.aiMessage newId (welcomeText fileName isNewFile) now]
  ∧ filter (λ m, isWelcome m = false) result
    ≡ₚ filter (λ m, isWelcome m = false) prev
  ∧ (ascending prev →
     filter (λ m, isWelcome m = false) result
     = filter (λ m, isWelcome m = false) prev).
Proof.
  intros result. subst result. unfold addWelcomeMessageList.
  set (new := ChatMessage.aiMessage newId (welcomeText fileName isNewFile) now).
  assert (Hnew : isWelcome new = true) by apply isWelcome_welcomeText.
  assert (Hkeep : filter (λ m, isWelcome m = false)
                    (filter (λ m, isWelcome m = false) prev ++ [new])
                  = filter (λ m, isWelcome m = false) prev).
  { rewrite filter_app, filter_cons_False, filter_nil, app_nil_r
      by (by rewrite Hnew).
    rewrite list_filter_filter. apply list_filter_iff. intros m. tauto. }
  split_and!.
  - rewrite filter_sortByTimestamp, filter_app.
    rewrite filter_cons_True, filter_nil by done.
    rewrite list_filter_filter.
    replace (filter (λ m, isWelcome m = true ∧ isWelcome m = false) prev)
      with (@nil ChatMessage.t); [done|].
    symmetry. clear. induction prev as [|y l IH]; [done|].
    rewrite filter_cons_False; [done|]. intros [H1 H2]. congruence.
  - by rewrite filter_sortByTimestamp, Hkeep, sortByTimestamp_perm.
  - intros Hasc. rewrite filter_sortByTimestamp, Hkeep.
    by apply sortByTimestamp_id, ascending_filter.
Qed.

Lemma welcome_message_is_single_witness :
  let prev := [ChatMessage.aiMessage "w0" (welcomeText "old.txt" false) 1;
               ChatMessage.userMessage "u" "hello" 2 None None;
               ChatMessage.aiMessage "w1" (welcomeText "other.txt" true) 3] in
  filter (λ m, isWelcome m = false)
    (addWelcomeMessageList "new.txt" true "w2" 7 prev)
  = [ChatMessage.userMessage "u" "hello" 2 None None].
Proof.
  intros prev.
  apply (proj2 (proj2 (welcome_message_is_single "new.txt" true "w2" 7 prev))).
  unfold ascending. repeat constructor; unfold byTimestamp; simpl; lia.
Defined.

(** X10. A change of the active document clears the snapshot for the undo
    of the assistant's change, so that the undo does nothing afterwards,
    when no document is active or the active one is a file that is there
    and not deleted; neither the files nor the histories change. For an
    id that names no such file the state stays as it is, snapshot
    included. *)
Theorem active_change_clears_ai_undo activeFileId now newId stamp st :
  let st' := activeFileChanged activeFileId now newId stamp st in
  files st' = files st
  ∧ documentHistories st' = documentHistories st
  ∧ (activeFileId = None ∨ activeFileId = Some ""%string
     ∨ is_Some (findActiveFile activeFileId (files st)) →
       previousDocumentContentForUndo st' = None
       ∧ ∀ activeFile, undoAIDocumentChange activeFile st' = st')
  ∧ (∀ i, activeFileId = Some i → i ≠ ""%string →
          findActiveFile activeFileId (files st) = None → st' = st).
Proof.
  intros st'. subst st'. unfold activeFileChanged.
  destruct activeFileId as [i|].
  2:{ split_and!; try done.
      intros _. split; [done|]. intros af.
      apply undoAIDocumentChange_nothing. by right. }
  destruct (decide (i = ""%string)) as [->|Hi].
  { split_and!; try done.
    - intros _. split; [done|]. intros af.
      apply undoAIDocumentChange_nothing. by right.
    - by intros i [= <-]. }
  destruct (findActiveFile (Some i) (files st)) as [f|] eqn:Hf.
  - split_and!; try done.
    intros _. split; [done|]. intros af.
    apply undoAIDocumentChange_nothing. by right.
  - split_and!; try done.
    intros [?|[[= ->]|[? ?]]]; done.
Qed.

Lemma active_change_clears_ai_undo_witness :
  let f := {| AppFile.id := "f1"; AppFile.name := "notes.txt";
              AppFile.folderId := None; AppFile.content := "b";
              AppFile.createdAt := 0; AppFile.deletedAt := None |} in
  let st := {| files := [f]; documentHistories := ∅;
               chatMessages := []; isAILoading := false;
               isAICollaborating := false;
               previousDocumentContentForUndo := Some "a"%string;
               notifications := [] |} in
  previousDocumentContentForUndo
    (activeFileChanged (Some "f1"%string) 5000 "w" 5000 st) = None
  ∧ activeFileChanged (Some "gone"%string) 5000 "w" 5000 st = st.
Proof.
  intros f st.
  destruct (active_change_clears_ai_undo (Some "f1"%string) 5000 "w" 5000 st)
    as (_ & _ & Hclear & _).
  destruct (active_change_clears_ai_undo (Some "gone"%string) 5000 "w" 5000 st)
    as (_ & _ & _ & Hkeep).
  split.
  - apply Hclear. right. right. by eexists.
  - by apply (Hkeep "gone"%string).
Defined.

(** X11. Deleting a message from a sorted transcript removes the messages
    with that id and nothing else, the rest keeping its order; with an id
    that no message has the transcript stays as it is, and the notice of a
    deletion is shown all the same. Files, histories and the snapshot of
    the assistant's change are not touched. *)
Theorem delete_message_removes_only_it messageId st :
  ascending (chatMessages st) →
  let st' := deleteChatMessage messageId st in
  chatMessages st'
    = filter (λ m, ChatMessage.id m ≠ messageId) (chatMessages st)
  ∧ ((∀ m, m ∈ chatMessages st → ChatMessage.id m ≠ messageId) →
     chatMessages st' = chatMessages st)
  ∧ notifications st'
    = notifications st
      ++ [{| type := info; message := "Mensaje eliminado."; title := None |}]
  ∧ files st' = files st
  ∧ documentHistories st' = documentHistories st
  ∧ previousDocumentContentForUndo st' = previousDocumentContentForUndo st.
Proof.
  intros Hasc st'. subst st'. simpl.
  assert (Hdel : deleteChatMessageList messageId (chatMessages st)
                 = filter (λ m, ChatMessage.id m ≠ messageId)
                          (chatMessages st)).
  { unfold deleteChatMessageList.
    by apply sortByTimestamp_id, ascending_filter. }
  split; [exact Hdel|]. split; [|done].
  intros Hnone. rewrite Hdel. clear Hdel Hasc.
  induction (chatMessages st) as [|y l IH]; [done|].
  rewrite filter_cons_True by (apply Hnone; by left).
  f_equal. apply IH. intros m Hm. apply Hnone. by right.
Qed.

Lemma delete_message_removes_only_it_witness :
  let st := {| files := []; documentHistories := ∅;
               chatMessages :=
                 [ChatMessage.userMessage "u" "hello" 2 None None;
                  ChatMessage.aiMessage "a" "hi" 3];
               isAILoading := false; isAICollaborating := false;
               previousDocumentContentForUndo := None;
               notifications := [] |} in
  chatMessages (deleteChatMessage "u" st) = [ChatMessage.aiMessage "a" "hi" 3]
  ∧ chatMessages (deleteChatMessage "nobody" st) = chatMessages st.
Proof.
  intros st.
  assert (Hasc : ascending (chatMessages st)).
  { unfold ascending. repeat constructor; unfold byTimestamp; simpl; lia. }
  split.
  - apply (proj1 (delete_message_removes_only_it "u" st Hasc)).
  - apply (proj1 (proj2 (delete_message_removes_only_it "nobody" st Hasc))).
    intros m Hm. simpl in Hm.
    rewrite !elem_of_cons, elem_of_nil in Hm.
    destruct Hm as [->|[->|[]]]; discriminate.
Defined.

(** X12. A message that is not earlier than any message of a sorted
    transcript is appended at its end. *)
Theorem append_in_order message prev :
  ascending prev →
  Forall (λ m, byTimestamp m message) prev →
  addMessageToList message prev = prev ++ [message].
Proof.
  intros Hasc Hall. unfold addMessageToList. apply sortByTimestamp_id.
  unfold ascending in *. apply StronglySorted_app_2.
  - intros x1 x2 Hx1 ->%list_elem_of_singleton.
    rewrite Forall_forall in Hall. by apply Hall.
  - exact Hasc.
  - repeat constructor.
Qed.

Lemma append_in_order_witness :
  addMessageToList (ChatMessage.aiMessage "a" "hi" 3)
    [ChatMessage.userMessage "u" "hello" 2 None None]
  = [ChatMessage.userMessage "u" "hello" 2 None None;
     ChatMessage.aiMessage "a" "hi" 3].
Proof.
  apply (append_in_order (ChatMessage.aiMessage "a" "hi" 3)
           [ChatMessage.userMessage "u" "hello" 2 None None]).
  - unfold ascending. repeat constructor.
  - repeat constructor. unfold byTimestamp. simpl. lia.
Defined.
End TranscriptSteps.

(** ** Turns of the conversation *)

Section Turns.
Implicit Types (m U A : ChatMessage.t) (l : list ChatMessage.t).
Implicit Types (st : AppState).

Lemma findIndexById_app wanted (l1 : list ChatMessage.t) m
    (l2 : list ChatMessage.t) :
  Forall (λ y, ChatMessage.id y ≠ wanted) l1 →
  ChatMessage.id m = wanted →
  findIndexById wanted (l1 ++ m :: l2) = Some (length l1).
Proof.
  intros Hl1 Hm. unfold findIndexById.
  induction Hl1 as [|y l1 Hy _ IH]; simpl.
  - by destruct (decide _).
  - destruct (decide _); [done|].
    destruct (list_find _ (l1 ++ m :: l2)) as [[i x]|]; [|done].
    simpl in *. by injection IH as ->.
Qed.

Lemma filter_all {B} (Q : B → Prop) `{!∀ x, Decision (Q x)} (l : list B) :
  Forall Q l → filter Q l = l.
Proof.
  induction 1 as [|y l Hy _ IH]; [done|].
  by rewrite filter_cons_True, IH.
Qed.

(** X13. In a transcript whose ids are distinct, an edit rewrites the
    message edited, removes the message right after it when that one was
    sent by the assistant, and leaves every other message where it was: a
    message of the user that follows is kept, and so is everything when
    the edited message is the last. *)
Theorem edit_removes_only_the_reply (l1 : list ChatMessage.t) U
    (l2 : list ChatMessage.t) newText now imagePart previewUrl :
  NoDup (ChatMessage.id <$> (l1 ++ U :: l2)) →
  editedTranscript (ChatMessage.id U) newText now imagePart previewUrl
    (l1 ++ U :: l2)
  = Some (l1 ++ editedMessage U newText now imagePart previewUrl
             :: afterEdit l2).
Proof.
  intros Hnd.
  assert (Hl1 : Forall (λ y, ChatMessage.id y ≠ ChatMessage.id U) l1).
  { rewrite fmap_app, fmap_cons in Hnd.
    apply NoDup_app in Hnd as (_ & Hdis & _).
    apply Forall_forall. intros y Hy Heq.
    apply (Hdis (ChatMessage.id y)).
    - apply list_elem_of_fmap. by exists y.
    - rewrite Heq. by left. }
  unfold editedTranscript. rewrite findIndexById_app by done.
  set (U' := editedMessage U newText now imagePart previewUrl).
  assert (Halter : alter (λ m, editedMessage m newText now imagePart previewUrl)
                     (length l1) (l1 ++ U :: l2) = l1 ++ U' :: l2).
  { rewrite <- (Nat.add_0_r (length l1)). by rewrite alter_app_r. }
  rewrite Halter. unfold staleReplyId.
  replace ((l1 ++ U' :: l2) !! S (length l1)) with (l2 !! 0%nat).
  2:{ rewrite lookup_app_r by lia.
      by replace (S (length l1) - length l1)%nat with 1%nat by lia. }
  destruct l2 as [|A l2']; [done|]. simpl.
  destruct (decide (ChatMessage.sender A = ChatMessage.ai)) as [HA|HA].
  2:{ destruct (decide _) as [[? _]|_]; done. }
  destruct (decide (ChatMessage.id A = ""%string)) as [Hid|Hid].
  { destruct (decide _) as [[_ ?]|_]; done. }
  destruct (decide _) as [_|Hn]; [|by destruct Hn].
  f_equal.
  rewrite fmap_app, !fmap_cons in Hnd.
  apply NoDup_app in Hnd as (_ & Hdis & Hnd).
  apply NoDup_cons in Hnd as [HU Hnd].
  apply NoDup_cons in Hnd as [HA' _].
  rewrite filter_app, filter_cons_True, filter_cons_False.
  - rewrite !filter_all; [done| |].
    + apply Forall_forall. intros y Hy Heq. apply HA'.
      rewrite <- Heq. apply list_elem_of_fmap. by exists y.
    + apply Forall_forall. intros y Hy Heq.
      apply (Hdis (ChatMessage.id y)).
      * apply list_elem_of_fmap. by exists y.
      * rewrite Heq. right. by left.
  - intros Hn. by apply Hn.
  - simpl. intros Heq. apply HU. rewrite Heq. by left.
Qed.

Lemma edit_removes_only_the_reply_witness :
  let U1 := ChatMessage.userMessage "u1" "one" 1 None None in
  let U2 := ChatMessage.userMessage "u2" "two" 2 None None in
  let A2 := ChatMessage.aiMessage "a2" "reply" 3 in
  editedTranscript "u2" "two, edited" 9 None None [U1; U2; A2]
  = Some [U1; ChatMessage.userMessage "u2" "two, edited" 9 None None].
Proof.
  intros U1 U2 A2.
  apply (edit_removes_only_the_reply [U1] U2 [A2] "two, edited" 9 None None).
  apply (bool_decide_unpack (NoDup _)). vm_compute. exact I.
Defined.

(** X14. The start of a turn clears the snapshot for the undo of the
    assistant's change, so that the undo does nothing afterwards: so does
    a new message that passes the two checks, and so does an edit, even
    the edit of a message that is not in the transcript. A new message
    that fails a check changes nothing but the notices: the transcript,
    the loading flag and the snapshot stay. *)
Theorem new_turn_clears_ai_undo st :
  (∀ messageText activeFile imagePart imagePreviewUrl newId now,
     let st' := sendNewMessageBegin messageText activeFile imagePart
                  imagePreviewUrl newId now st in
     if trimIsEmpty messageText && bool_decide (imagePart = None)
        || bool_decide (activeFile = None) && bool_decide (imagePart = None)
     then chatMessages st' = chatMessages st
          ∧ isAILoading st' = isAILoading st
          ∧ previousDocumentContentForUndo st'
            = previousDocumentContentForUndo st
          ∧ length (notifications st') = S (length (notifications st))
     else chatMessages st'
          = addMessageToList
              (ChatMessage.userMessage newId messageText now imagePart
                 imagePreviewUrl) (chatMessages st)
          ∧ isAILoading st' = true
          ∧ ∀ af, undoAIDocumentChange af st' = st')
  ∧ (∀ msgId newText now imagePart previewUrl,
       let st' := editAndRegenerateBegin msgId newText now imagePart
                    previewUrl st in
       (∀ af, undoAIDocumentChange af st' = st')
       ∧ (findIndexById msgId (chatMessages st) = None →
          chatMessages st' = chatMessages st ∧ isAILoading st' = false)).
Proof.
  split.
  - intros messageText activeFile imagePart imagePreviewUrl newId now st'.
    subst st'. unfold sendNewMessageBegin.
    destruct (trimIsEmpty messageText) eqn:Hblank,
      (bool_decide (imagePart = None)) eqn:Himg,
      (bool_decide (activeFile = None)) eqn:Hfile; simpl;
      try (split_and!; [done..| by rewrite length_app; simpl; lia]);
      (split_and!; [done..|]; intros af;
       apply undoAIDocumentChange_nothing; by right).
  - intros msgId newText now imagePart previewUrl st'. subst st'.
    unfold editAndRegenerateBegin. simpl.
    destruct (editedTranscript _ _ _ _ _ _) as [l|] eqn:Hed.
    + split.
      * intros af. apply undoAIDocumentChange_nothing. by right.
      * intros Hnone. unfold editedTranscript in Hed. by rewrite Hnone in Hed.
    + split; [|done].
      intros af. apply undoAIDocumentChange_nothing. by right.
Qed.

Lemma new_turn_clears_ai_undo_witness :
  let st := {| files := []; documentHistories := ∅;
               chatMessages := []; isAILoading := false;
               isAICollaborating := false;
               previousDocumentContentForUndo := Some "a"%string;
               notifications := [] |} in
  findIndexById "m" (chatMessages st) = None
  ∧ chatMessages (editAndRegenerateBegin "m" "text" 5 None None st)
    = chatMessages st
  ∧ previousDocumentContentForUndo
      (editAndRegenerateBegin "m" "text" 5 None None st) = None.
Proof.
  intros st.
  destruct (new_turn_clears_ai_undo st) as [_ Hedit].
  destruct (Hedit "m"%string "text"%string 5 None None) as [_ Hkeep].
  split; [reflexivity|]. split; [apply Hkeep; reflexivity | reflexivity].
Defined.
End Turns.

(** ** Folders and files *)

Section Dedupe.
Implicit Types (l acc : list string) (x : string).

Lemma dedupe_acc l : ∀ acc,
  let r := foldl (λ acc x, if decide (x ∈ acc) then acc else acc ++ [x])
                 acc l in
  (∀ x, x ∈ r ↔ x ∈ acc ∨ x ∈ l) ∧ (NoDup acc → NoDup r).
Proof.
  induction l as [|y l IH]; intros acc; simpl.
  - split; [|done]. intros x. rewrite elem_of_nil. tauto.
  - destruct (IH (if decide (y ∈ acc) then acc else acc ++ [y])) as [Hin Hnd].
    split.
    + intros x. rewrite Hin, elem_of_cons.
      destruct (decide (y ∈ acc)) as [Hy|Hy].
      * split; [tauto|]. intros [?|[->|?]]; tauto.
      * rewrite elem_of_app, list_elem_of_singleton. tauto.
    + intros Hacc. apply Hnd. destruct (decide (y ∈ acc)) as [Hy|Hy]; [done|].
      apply NoDup_app. split_and!; [done| |apply NoDup_singleton].
      intros x Hx ->%list_elem_of_singleton. done.
Qed.

Lemma elem_of_dedupe x l : x ∈ dedupe l ↔ x ∈ l.
Proof.
  unfold dedupe. rewrite (proj1 (dedupe_acc l [])), elem_of_nil. tauto.
Qed.

Lemma dedupe_elem_1 x l : x ∈ dedupe l → x ∈ l.
Proof. apply elem_of_dedupe. Qed.

Lemma dedupe_elem_2 x l : x ∈ l → x ∈ dedupe l.
Proof. apply elem_of_dedupe. Qed.

Lemma NoDup_dedupe l : NoDup (dedupe l).
Proof. apply (proj2 (dedupe_acc l [])). constructor. Qed.
End Dedupe.

Section FsInvariant.
Implicit Types (st : Fs.t) (f g : AppFile.t) (hs : Histories).

Lemma synced_fmap (h : AppFile.t → AppFile.t) fs hs :
  (∀ f, AppFile.id (h f) = AppFile.id f
        ∧ AppFile.content (h f) = AppFile.content f) →
  synced fs hs → synced (h <$> fs) hs.
Proof.
  intros Hh Hs g e (f & -> & Hf)%list_elem_of_fmap.
  destruct (Hh f) as [-> ->]. by apply Hs.
Qed.

Lemma ids_fmap (h : AppFile.t → AppFile.t) (fs : list AppFile.t) :
  (∀ f, AppFile.id (h f) = AppFile.id f) →
  AppFile.id <$> (h <$> fs) = AppFile.id <$> fs.
Proof.
  intros Hh. rewrite <- list_fmap_compose. apply list_fmap_ext.
  intros _ f _. apply Hh.
Qed.

Lemma fsOk_fmap (h : AppFile.t → AppFile.t) st st' :
  (∀ f, AppFile.id (h f) = AppFile.id f
        ∧ AppFile.content (h f) = AppFile.content f) →
  Fs.files st' = h <$> Fs.files st →
  Fs.documentHistories st' = Fs.documentHistories st →
  fsOk st → fsOk st'.
Proof.
  intros Hh Hf Hhs [Hnd Hs]. unfold fsOk. rewrite Hf, Hhs. split.
  - rewrite ids_fmap; [done|]. intros f. apply Hh.
  - by apply synced_fmap.
Qed.

Lemma lookup_foldl_delete (l : list string) : ∀ hs i,
  foldl (λ hs j, deleteFileHistory j hs) hs l !! i
  = if decide (i ∈ l) then None else hs !! i.
Proof.
  unfold deleteFileHistory.
  induction l as [|j l IH]; intros hs i; cbn [foldl].
  - rewrite decide_False; [done|]. apply not_elem_of_nil.
  - rewrite IH. destruct (decide (i ∈ l)) as [Hl|Hl].
    + rewrite decide_True; [done|]. by right.
    + rewrite lookup_delete. destruct (decide (j = i)) as [->|Hne].
      * rewrite decide_True; [done|]. by left.
      * rewrite decide_False; [done|].
        rewrite elem_of_cons. intros [->|?]; done.
Qed.

Lemma NoDup_ids_eq (fs : list AppFile.t) f g :
  NoDup (AppFile.id <$> fs) → f ∈ fs → g ∈ fs →
  AppFile.id f = AppFile.id g → f = g.
Proof.
  intros Hnd Hf Hg Heq.
  apply list_elem_of_lookup in Hf as [i Hi].
  apply list_elem_of_lookup in Hg as [j Hj].
  assert (i = j) as ->.
  { eapply NoDup_lookup; [exact Hnd| |].
    - by rewrite list_lookup_fmap, Hi.
    - by rewrite list_lookup_fmap, Hj, Heq. }
  congruence.
Qed.

Lemma fsOk_selectFile fileId st : fsOk st → fsOk (selectFile fileId st).
Proof.
  intros [Hnd Hs]. unfold selectFile.
  destruct fileId as [i|]; [|done].
  destruct (list_find _ _) as [[k sel]|] eqn:Hfind; [|done].
  apply list_find_Some in Hfind as (Hk & [Hid _] & _).
  split; [done|]. simpl. intros g e Hg He.
  destruct (decide (AppFile.id g = i)) as [Hgi|Hgi].
  - assert (g = sel) as ->.
    { eapply NoDup_ids_eq; [done..| |congruence].
      by eapply list_elem_of_lookup_2. }
    rewrite Hgi in He. unfold initializeHistory in He.
    destruct (Fs.documentHistories st !! i) as [e0|] eqn:E.
    + destruct (decide _).
      * rewrite E in He. injection He as <-. apply Hs; [done|].
        by rewrite Hgi.
      * rewrite lookup_insert_eq in He. by injection He as <-.
    + rewrite lookup_insert_eq in He. by injection He as <-.
  - rewrite initializeHistory_lookup_ne in He by done. by apply Hs.
Qed.

Lemma fsOk_createFile fileName folderId content newId now st :
  newId ∉ AppFile.id <$> Fs.files st →
  Fs.documentHistories st !! newId = None →
  fsOk st → fsOk (createFile fileName folderId content newId now st).1.
Proof.
  intros Hfresh Hnone [Hnd Hs].
  assert (Hinit : initializeHistory newId (default ""%string content)
                    (Fs.documentHistories st)
                  = <[newId := freshEntry (default ""%string content)]>
                      (Fs.documentHistories st)).
  { unfold initializeHistory. by rewrite Hnone. }
  assert (Hok : ∀ a n,
    fsOk {| Fs.folders := Fs.folders st;
            Fs.files := Fs.files st ++
              [{| AppFile.id := newId; AppFile.name := fileName;
                  AppFile.folderId := folderId;
                  AppFile.content := default ""%string content;
                  AppFile.createdAt := now; AppFile.deletedAt := None |}];
            Fs.activeFileId := a;
            Fs.documentHistories :=
              initializeHistory newId (default ""%string content)
                                (Fs.documentHistories st);
            Fs.notifications := n |}).
  { intros a n. split; simpl.
    - rewrite fmap_app. simpl. apply NoDup_app. split_and!; [done| |].
      + intros x Hx ->%list_elem_of_singleton. done.
      + apply NoDup_singleton.
    - rewrite Hinit. intros g e [Hg| ->%list_elem_of_singleton]%elem_of_app.
      + rewrite lookup_insert_ne; [by apply Hs|].
        intros ->. apply Hfresh. apply list_elem_of_fmap. by exists g.
      + simpl. rewrite lookup_insert_eq. by intros [= <-]. }
  unfold createFile. destruct content; apply Hok.
Qed.

(** X15. The files and their histories stay together through the
    operations on folders and files. If the ids of the files are distinct
    and the content of every file that has a history entry is the snapshot
    under the cursor of the entry, this is so again after a file is
    selected, created or duplicated (with an id not in use), after a
    rename or a move, after a new folder, and after a selection is moved
    to the trash, restored or deleted for good. *)
Theorem files_stay_with_histories st :
  fsOk st →
  (∀ fileId, fsOk (selectFile fileId st))
  ∧ (∀ fileName folderId content newId now,
       newId ∉ AppFile.id <$> Fs.files st →
       Fs.documentHistories st !! newId = None →
       fsOk (createFile fileName folderId content newId now st).1)
  ∧ (∀ fileId newId now,
       newId ∉ AppFile.id <$> Fs.files st →
       Fs.documentHistories st !! newId = None →
       fsOk (duplicateFile fileId newId now st))
  ∧ (∀ fileId newName, fsOk (renameFile fileId newName st))
  ∧ (∀ folderId newName, fsOk (renameFolder folderId newName st))
  ∧ (∀ folderName parentId newId,
       fsOk (createFolder folderName parentId newId st))
  ∧ (∀ ids types target, fsOk (moveItems ids types target st))
  ∧ (∀ fuel ids types now st',
       deleteItems fuel ids types now st = Some st' → fsOk st')
  ∧ (∀ fuel ids types st',
       restoreItems fuel ids types st = Some st' → fsOk st')
  ∧ (∀ fuel ids types st',
       permanentDeleteItems fuel ids types st = Some st' → fsOk st').
Proof.
  intros Hok. split_and!.
  - intros. by apply fsOk_selectFile.
  - intros. by apply fsOk_createFile.
  - intros fileId newId now Hfresh Hnone. unfold duplicateFile.
    destruct (list_find _ _) as [[k orig]|]; [|done].
    by apply fsOk_createFile.
  - intros fileId newName. unfold renameFile.
    destruct (list_find _ _) as [[k old]|]; [|done].
    eapply (fsOk_fmap (λ f, if decide (AppFile.id f = fileId)
                            then fileWithName f newName else f));
      [|done|done|done].
    intros f. by destruct (decide _).
  - intros folderId newName. unfold renameFolder.
    destruct (list_find _ _) as [[k old]|]; done.
  - done.
  - intros ids types target.
    eapply (fsOk_fmap (λ f, if decide (movedAs ItemFile (AppFile.id f) ids types)
                            then fileWithFolderId f target else f));
      [|done|done|done].
    intros f. by destruct (decide _).
  - intros fuel ids types now st'. unfold deleteItems.
    destruct (collectIds _ _ _ _ _ _) as [[allFiles allFolders]|]; [|done].
    simpl. intros [= <-].
    eapply (fsOk_fmap (λ f, if decide (AppFile.id f ∈ dedupe allFiles)
                            then fileWithDeletedAt f (Some now) else f));
      [|done|done|done].
    intros f. by destruct (decide _).
  - intros fuel ids types st'. unfold restoreItems.
    destruct (collectIds _ _ _ _ _ _) as [[allFiles allFolders]|]; [|done].
    simpl. intros [= <-].
    eapply (fsOk_fmap (λ f, if decide (AppFile.id f ∈ dedupe allFiles)
                            then fileWithDeletedAt f None else f));
      [|done|done|done].
    intros f. by destruct (decide _).
  - intros fuel ids types st'. unfold permanentDeleteItems.
    destruct (collectIds _ _ _ _ _ _) as [[allFiles allFolders]|]; [|done].
    simpl. intros [= <-]. destruct Hok as [Hnd Hs]. split; simpl.
    + eapply sublist_NoDup; [exact Hnd|].
      apply fmap_sublist, sublist_filter.
    + intros g e [Hg Hin]%list_elem_of_filter.
      rewrite lookup_foldl_delete. destruct (decide _); [done|].
      by apply Hs.
Qed.

Lemma files_stay_with_histories_witness :
  let f := {| AppFile.id := "f1"; AppFile.name := "notes.txt";
              AppFile.folderId := None; AppFile.content := "b";
              AppFile.createdAt := 0; AppFile.deletedAt := None |} in
  let st := {| Fs.folders := []; Fs.files := [f];
               Fs.activeFileId := None;
               Fs.documentHistories :=
                 {[ "f1"%string :=
                      {| history := ["a"; "b"]%string; currentIndex := 1 |} ]};
               Fs.notifications := [] |} in
  fsOk st
  ∧ fsOk (selectFile (Some "f1"%string) st)
  ∧ fsOk (duplicateFile "f1" "f2" 7 st).
Proof.
  intros f st.
  assert (Hok : fsOk st).
  { split.
    - apply NoDup_singleton.
    - intros g e Hg He. apply list_elem_of_singleton in Hg as ->.
      simpl in He. rewrite lookup_singleton_eq in He. by injection He as <-. }
  destruct (files_stay_with_histories st Hok) as (Hsel & _ & Hdup & _).
  split; [exact Hok|]. split; [apply Hsel|].
  apply Hdup.
  - simpl. intros Hin%list_elem_of_singleton. discriminate Hin.
  - simpl. by apply lookup_singleton_ne.
Defined.
End FsInvariant.

(** ** The search for what lies under a folder *)

Section Descend.
Context (currentFolders : list Folder.t) (currentFiles : list AppFile.t).
Implicit Types (q done : list string) (c p : string).

Local Abbreviation kids := (childFolderIds currentFolders).
Local Abbreviation kidFiles := (childFileIds currentFiles).

Lemma descend_step fuel c q (A B : list string) :
  descend (S fuel) (c :: q) A B currentFolders currentFiles
  = descend fuel (q ++ kids c) (A ++ kids c) (B ++ kidFiles c)
            currentFolders currentFiles.
Proof. done. Qed.

Lemma descend_done fuel (A B : list string) :
  descend fuel [] A B currentFolders currentFiles = Some (B, A).
Proof. by destruct fuel. Qed.

Lemma elem_of_kids x c :
  x ∈ kids c ↔ ∃ f, f ∈ currentFolders ∧ Folder.parentId f = Some c
                    ∧ Folder.id f = x.
Proof.
  unfold childFolderIds. rewrite list_elem_of_fmap. split.
  - intros (f & -> & [? ?]%list_elem_of_filter). by exists f.
  - intros (f & ? & ? & <-). exists f. split; [done|].
    by apply list_elem_of_filter.
Qed.

Lemma elem_of_kidFiles x c :
  x ∈ kidFiles c ↔ ∃ g, g ∈ currentFiles ∧ AppFile.folderId g = Some c
                        ∧ AppFile.id g = x.
Proof.
  unfold childFileIds. rewrite list_elem_of_fmap. split.
  - intros (g & -> & [? ?]%list_elem_of_filter). by exists g.
  - intros (g & ? & ? & <-). exists g. split; [done|].
    by apply list_elem_of_filter.
Qed.

(** More fuel does not change a result. *)
Lemma descend_more_fuel fuel : ∀ k q (A B : list string) r,
  descend fuel q A B currentFolders currentFiles = Some r →
  descend (fuel + k) q A B currentFolders currentFiles = Some r.
Proof.
  induction fuel as [|fuel IH]; intros k q A B r.
  - destruct q; [|done]. simpl. intros <-. by rewrite descend_done.
  - destruct q as [|c q]; [simpl; by intros <-|].
    rewrite Nat.add_succ_l, !descend_step. apply IH.
Qed.

Lemma descend_found X fuel : ∀ q done (A B : list string) r,
  A = done ++ q → X ∈ A →
  foundSound currentFolders currentFiles X A B →
  foundClosed currentFolders currentFiles done A B →
  descend fuel q A B currentFolders currentFiles = Some r →
  X ∈ r.2 ∧ foundSound currentFolders currentFiles X r.2 r.1
  ∧ foundClosed currentFolders currentFiles r.2 r.2 r.1.
Proof.
  induction fuel as [|fuel IH]; intros q done A B r HA HX Hs Hc.
  - destruct q; [|done]. simpl. intros [= <-]. simpl.
    rewrite app_nil_r in HA. by subst.
  - destruct q as [|c q].
    { simpl. intros [= <-]. simpl. rewrite app_nil_r in HA. by subst. }
    rewrite descend_step. apply (IH _ (done ++ [c])).
    + subst A. by rewrite <- !app_assoc.
    + apply elem_of_app. by left.
    + destruct Hs as [HsA HsB]. split.
      * intros a [Ha|Ha]%elem_of_app.
        -- destruct (HsA a Ha) as [?|(p & Hp & Hk)]; [by left|].
           right. exists p. split; [|done]. apply elem_of_app. by left.
        -- right. exists c. split; [|done]. apply elem_of_app. left.
           subst A. apply elem_of_app. right. by left.
      * intros b [Hb|Hb]%elem_of_app.
        -- destruct (HsB b Hb) as (p & Hp & Hk).
           exists p. split; [|done]. apply elem_of_app. by left.
        -- exists c. split; [|done]. apply elem_of_app. left.
           subst A. apply elem_of_app. right. by left.
    + intros p [Hp| ->%list_elem_of_singleton]%elem_of_app.
      * destruct (Hc p Hp) as [H1 H2]. split.
        -- intros x Hx. apply elem_of_app. left. by apply H1.
        -- intros x Hx. apply elem_of_app. left. by apply H2.
      * split; intros x Hx; apply elem_of_app; by right.
Qed.
(** X16. When the search for what lies under a folder returns, it has the
    folder itself, every folder that lies right under a folder it has, and
    every file that lies right under a folder it has; it has nothing else,
    and no id twice. Folders and files in the trash count like the
    others. A missing item type is taken as a folder. *)
Theorem descendants_found fuel X itemType fileIds folderIds :
  itemType ≠ Some ItemFile →
  getAllDescendantAndSelfIds fuel X itemType currentFolders currentFiles
    = Some (fileIds, folderIds) →
  X ∈ folderIds
  ∧ (∀ f p, f ∈ currentFolders → Folder.parentId f = Some p →
            p ∈ folderIds → Folder.id f ∈ folderIds)
  ∧ (∀ g p, g ∈ currentFiles → AppFile.folderId g = Some p →
            p ∈ folderIds → AppFile.id g ∈ fileIds)
  ∧ (∀ a, a ∈ folderIds →
          a = X ∨ ∃ f p, f ∈ currentFolders ∧ Folder.id f = a
                         ∧ Folder.parentId f = Some p ∧ p ∈ folderIds)
  ∧ (∀ b, b ∈ fileIds →
          ∃ g p, g ∈ currentFiles ∧ AppFile.id g = b
                 ∧ AppFile.folderId g = Some p ∧ p ∈ folderIds)
  ∧ NoDup folderIds ∧ NoDup fileIds.
Proof.
  intros Hty Hget.
  assert (∃ B A, descend fuel [X] [X] [] currentFolders currentFiles
                 = Some (B, A) ∧ fileIds = dedupe B ∧ folderIds = dedupe A)
    as (B & A & Hd & -> & ->).
  { unfold getAllDescendantAndSelfIds in Hget.
    destruct itemType as [[|]|]; [done| |];
      (destruct (descend _ _ _ _ _ _) as [[B A]|]; [|done];
       simpl in Hget; injection Hget as <- <-; by exists B, A). }
  destruct (descend_found X fuel [X] [] [X] [] (B, A)) as (HX & [HsA HsB] & Hc);
    [done | by left | | | done |].
  { split; [|by intros b Hb%elem_of_nil].
    intros a ->%list_elem_of_singleton. by left. }
  { by intros p Hp%elem_of_nil. }
  simpl in *. split_and!.
  - by apply dedupe_elem_2.
  - intros f p Hf Hp Hin%dedupe_elem_1. apply dedupe_elem_2.
    apply (Hc p Hin). apply elem_of_kids. by exists f.
  - intros g p Hg Hp Hin%dedupe_elem_1. apply dedupe_elem_2.
    apply (Hc p Hin). apply elem_of_kidFiles. by exists g.
  - intros a Ha%dedupe_elem_1.
    destruct (HsA a Ha) as [?|(p & Hp & (f & ? & ? & ?)%elem_of_kids)];
      [by left|].
    right. exists f, p. split_and!; try done. by apply dedupe_elem_2.
  - intros b Hb%dedupe_elem_1.
    destruct (HsB b Hb) as (p & Hp & (g & ? & ? & ?)%elem_of_kidFiles).
    exists g, p. split_and!; try done. by apply dedupe_elem_2.
  - apply NoDup_dedupe.
  - apply NoDup_dedupe.
Qed.
End Descend.

Lemma descendants_found_witness :
  let fx := {| Folder.id := "x"; Folder.name := "outer";
               Folder.parentId := None; Folder.deletedAt := None |} in
  let fy := {| Folder.id := "y"; Folder.name := "inner";
               Folder.parentId := Some "x"%string;
               Folder.deletedAt := Some 3 |} in
  let g := {| AppFile.id := "g"; AppFile.name := "notes.txt";
              AppFile.folderId := Some "y"%string; AppFile.content := "b";
              AppFile.createdAt := 0; AppFile.deletedAt := None |} in
  getAllDescendantAndSelfIds 3 "x" (Some ItemFolder) [fx; fy] [g]
    = Some (["g"%string], ["x"; "y"]%string)
  ∧ "x"%string ∈ ["x"; "y"]%string
  ∧ NoDup ["x"; "y"]%string.
Proof.
  intros fx fy g.
  assert (Hrun : getAllDescendantAndSelfIds 3 "x" (Some ItemFolder)
                   [fx; fy] [g] = Some (["g"%string], ["x"; "y"]%string))
    by reflexivity.
  destruct (descendants_found [fx; fy] [g] 3 "x" (Some ItemFolder)
              ["g"%string] ["x"; "y"]%string)
    as (Hself & _ & _ & _ & _ & Hnd & _); [done | exact Hrun |].
  split; [exact Hrun|]. split; [exact Hself | exact Hnd].
Defined.

Section DescendEnds.
Context (currentFolders : list Folder.t) (currentFiles : list AppFile.t).
Context (rank : string → nat) (X : string).
Hypothesis Hids : NoDup (Folder.id <$> currentFolders).
Hypothesis Hrank : ∀ f p, f ∈ currentFolders → Folder.parentId f = Some p →
                          (rank p < rank (Folder.id f))%nat.

Local Abbreviation kids := (childFolderIds currentFolders).

Lemma folder_of_id f g :
  f ∈ currentFolders → g ∈ currentFolders → Folder.id f = Folder.id g → f = g.
Proof.
  intros Hf Hg Heq.
  apply list_elem_of_lookup in Hf as [i Hi].
  apply list_elem_of_lookup in Hg as [j Hj].
  assert (i = j) as ->.
  { eapply NoDup_lookup; [exact Hids| |].
    - by rewrite list_lookup_fmap, Hi.
    - by rewrite list_lookup_fmap, Hj, Heq. }
  congruence.
Qed.

Lemma NoDup_kids c : NoDup (kids c).
Proof.
  unfold childFolderIds. eapply sublist_NoDup; [exact Hids|].
  apply fmap_sublist, sublist_filter.
Qed.

Lemma filter_ext_in {B} (P Q : B → Prop) `{!∀ x, Decision (P x)}
    `{!∀ x, Decision (Q x)} (l : list B) :
  (∀ x, x ∈ l → P x ↔ Q x) → filter P l = filter Q l.
Proof.
  induction l as [|y l IH]; intros Hpq; [done|].
  rewrite !filter_cons.
  destruct (decide (P y)) as [Hp|Hp], (decide (Q y)) as [Hq|Hq].
  - f_equal. apply IH. intros x Hx. apply Hpq. by right.
  - destruct Hq. apply Hpq; [by left|done].
  - destruct Hp. apply Hpq; [by left|done].
  - apply IH. intros x Hx. apply Hpq. by right.
Qed.

Lemma length_filter_split {B} (P Q : B → Prop) `{!∀ x, Decision (P x)}
    `{!∀ x, Decision (Q x)} (l : list B) :
  length (filter P l)
  = (length (filter (λ x, P x ∧ Q x) l)
     + length (filter (λ x, P x ∧ ¬ Q x) l))%nat.
Proof.
  induction l as [|y l IH]; [done|]. rewrite !filter_cons.
  destruct (decide (P y)) as [Hp|Hp], (decide (Q y)) as [Hq|Hq].
  - rewrite decide_True, decide_False by tauto. simpl. lia.
  - rewrite decide_False, decide_True by tauto. simpl. lia.
  - rewrite !decide_False by tauto. done.
  - rewrite !decide_False by tauto. done.
Qed.

(** With enough fuel for the folders not yet found the loop ends. *)
Lemma descend_ends fuel : ∀ q done (A B : list string),
  A = done ++ q → NoDup A →
  (∀ a, a ∈ A → (rank X ≤ rank a)%nat) →
  (∀ f, f ∈ currentFolders → Folder.id f ∈ A → Folder.id f ≠ X →
        ∃ p, p ∈ done ∧ Folder.parentId f = Some p) →
  (length q + length (filter (λ f, Folder.id f ∉ A) currentFolders)
   ≤ fuel)%nat →
  is_Some (descend fuel q A B currentFolders currentFiles).
Proof.
  induction fuel as [|fuel IH]; intros q done A B HA Hnd Hrk Hpar Hfuel.
  - destruct q; [by eexists|]. simpl in Hfuel. lia.
  - destruct q as [|c q]; [by eexists|].
    rewrite descend_step.
    assert (Hc : c ∈ A) by (subst A; apply elem_of_app; right; by left).
    assert (Hfresh : ∀ f, f ∈ currentFolders →
              Folder.parentId f = Some c → Folder.id f ∉ A).
    { intros f Hf Hp Hin.
      destruct (decide (Folder.id f = X)) as [HX|HX].
      - pose proof (Hrank f c Hf Hp). pose proof (Hrk c Hc).
        rewrite HX in *. lia.
      - destruct (Hpar f Hf Hin HX) as (p & Hpd & Hp').
        assert (p = c) as -> by congruence.
        subst A. apply NoDup_app in Hnd as (_ & Hdis & _).
        apply (Hdis c Hpd). by left. }
    assert (Hkids : ∀ x, x ∈ kids c → x ∉ A).
    { intros x (f & Hf & Hp & <-)%elem_of_kids. by apply Hfresh. }
    apply (IH _ (done ++ [c])).
    + subst A. by rewrite <- !app_assoc.
    + apply NoDup_app. split_and!; [done| |apply NoDup_kids].
      intros x Hx Hk. by apply (Hkids x).
    + intros a [Ha|(f & Hf & Hp & <-)%elem_of_kids]%elem_of_app;
        [by apply Hrk|].
      pose proof (Hrank f c Hf Hp). pose proof (Hrk c Hc). lia.
    + intros f Hf [Hin|(f' & Hf' & Hp' & Heq)%elem_of_kids]%elem_of_app HX.
      * destruct (Hpar f Hf Hin HX) as (p & Hpd & Hp).
        exists p. split; [|done]. apply elem_of_app. by left.
      * assert (f' = f) as -> by (by apply folder_of_id).
        exists c. split; [|done]. apply elem_of_app. right. by left.
    + rewrite length_app.
      rewrite (length_filter_split (λ f, Folder.id f ∉ A)
                 (λ f, Folder.parentId f = Some c)) in Hfuel.
      rewrite (filter_ext_in
                 (λ f, (Folder.id f ∉ A) ∧ Folder.parentId f = Some c)
                 (λ f, Folder.parentId f = Some c)) in Hfuel
        by (intros f Hf; split; [tauto|]; intros Hp; split;
            [by apply Hfresh|done]).
      rewrite (filter_ext_in
                 (λ f, (Folder.id f ∉ A) ∧ ¬ Folder.parentId f = Some c)
                 (λ f, Folder.id f ∉ (A ++ kids c))) in Hfuel.
      * assert (length (kids c)
                = length (filter (λ f, Folder.parentId f = Some c)
                                 currentFolders))
          by (unfold childFolderIds; apply length_fmap).
        simpl in Hfuel. lia.
      * intros f Hf. rewrite elem_of_app. split.
        -- intros [Hn Hp] [?|(f' & Hf' & Hp' & Heq)%elem_of_kids]; [done|].
           assert (f' = f) as -> by (by apply folder_of_id). done.
        -- intros Hn. split; [tauto|]. intros Hp. apply Hn. right.
           apply elem_of_kids. by exists f.
Qed.

(** X17. In a forest of folders, ids distinct and every folder ranked
    above its parent, the search for what lies under a folder ends within
    one round more than there are folders, and more rounds give the same
    result. *)
Theorem descendants_search_ends :
  ∃ r, ∀ fuel, (S (length currentFolders) ≤ fuel)%nat →
    getAllDescendantAndSelfIds fuel X (Some ItemFolder) currentFolders
      currentFiles = Some r.
Proof.
  destruct (descend_ends (S (length currentFolders)) [X] [] [X] [])
    as [[B A] Hd].
  - done.
  - apply NoDup_singleton.
  - intros a ->%list_elem_of_singleton. done.
  - intros f _ ->%list_elem_of_singleton. done.
  - simpl. pose proof (length_filter (λ f, Folder.id f ∉ [X]) currentFolders).
    lia.
  - exists (dedupe B, dedupe A). intros fuel Hfuel.
    unfold getAllDescendantAndSelfIds.
    replace fuel with (S (length currentFolders)
                       + (fuel - S (length currentFolders)))%nat by lia.
    by rewrite (descend_more_fuel _ _ _ _ _ _ _ _ Hd).
Qed.
End DescendEnds.

Lemma descendants_search_ends_witness :
  let fx := {| Folder.id := "x"; Folder.name := "outer";
               Folder.parentId := None; Folder.deletedAt := None |} in
  let fy := {| Folder.id := "y"; Folder.name := "inner";
               Folder.parentId := Some "x"%string;
               Folder.deletedAt := None |} in
  ∃ r, getAllDescendantAndSelfIds 3 "x" (Some ItemFolder) [fx; fy] [] = Some r.
Proof.
  intros fx fy.
  destruct (descendants_search_ends [fx; fy] []
              (λ i, if decide (i = "x"%string) then 0%nat else 1%nat)
              "x"%string) as [r Hr].
  - apply NoDup_cons. split; [|apply NoDup_singleton].
    intros Hin%list_elem_of_singleton. discriminate Hin.
  - intros f p Hf Hp. apply elem_of_cons in Hf as [->|Hf].
    + discriminate Hp.
    + apply list_elem_of_singleton in Hf as ->. injection Hp as <-.
      simpl. lia.
  - exists r. apply Hr. simpl. lia.
Defined.

Section DescendLoops.
Implicit Types (st : Fs.t) (q : list string).

(** On folders that lie under one another in a circle the queue never runs
    empty. *)
Lemma descend_circle (currentFolders : list Folder.t)
    (currentFiles : list AppFile.t) (C : list string) :
  (∀ c, c ∈ C → ∃ x, x ∈ childFolderIds currentFolders c ∧ x ∈ C) →
  ∀ fuel q (A B : list string),
    (∃ c, c ∈ q ∧ c ∈ C) →
    descend fuel q A B currentFolders currentFiles = None.
Proof.
  intros HC. induction fuel as [|fuel IH]; intros q A B (c & Hq & Hc).
  - destruct q; [by apply elem_of_nil in Hq|done].
  - destruct q as [|c0 q]; [by apply elem_of_nil in Hq|].
    rewrite descend_step. apply IH.
    apply elem_of_cons in Hq as [->|Hq].
    + destruct (HC c0 Hc) as (x & Hx & HxC).
      exists x. split; [|done]. apply elem_of_app. by right.
    + exists c. split; [|done]. apply elem_of_app. by left.
Qed.

Lemma collectIds_single_None fuel X ty (currentFolders : list Folder.t)
    (currentFiles : list AppFile.t) :
  getAllDescendantAndSelfIds fuel X (Some ty) currentFolders currentFiles
    = None →
  collectIds fuel [X] [ty] 0 currentFolders currentFiles = None.
Proof. simpl. by intros ->. Qed.

(** X18. [moveItems] takes any target: a folder moved under one of the
    folders that lie right under it (or under itself) is moved all the
    same. From then on the search for what lies under that folder never
    ends, whatever the number of rounds, and so moving it to the trash,
    restoring it or deleting it for good never returns. *)
Theorem move_under_own_child_loops st X Y fx fy :
  fx ∈ Fs.folders st → Folder.id fx = X →
  fy ∈ Fs.folders st → Folder.id fy = Y → Folder.parentId fy = Some X →
  let st' := moveItems [X] [ItemFolder] (Some Y) st in
  (∃ fx', fx' ∈ Fs.folders st' ∧ Folder.id fx' = X
          ∧ Folder.parentId fx' = Some Y)
  ∧ ∀ fuel,
      getAllDescendantAndSelfIds fuel X (Some ItemFolder) (Fs.folders st')
        (Fs.files st') = None
      ∧ (∀ now, deleteItems fuel [X] [ItemFolder] now st' = None)
      ∧ restoreItems fuel [X] [ItemFolder] st' = None
      ∧ permanentDeleteItems fuel [X] [ItemFolder] st' = None.
Proof.
  intros Hfx HX Hfy HY Hpar st'.
  assert (Hmoved : movedAs ItemFolder X [X] [ItemFolder]).
  { exists 0%nat. split; [|done]. unfold indexOf. simpl.
    by rewrite decide_True. }
  assert (HXY : X ∈ childFolderIds (Fs.folders st') Y).
  { unfold childFolderIds. apply list_elem_of_fmap.
    exists (folderWithParentId fx (Some Y)). split; [done|].
    apply list_elem_of_filter. split; [done|].
    subst st'. simpl. apply list_elem_of_fmap. exists fx. split; [|done].
    rewrite HX. by rewrite decide_True. }
  assert (HYX : Y ∈ childFolderIds (Fs.folders st') X).
  { unfold childFolderIds. apply list_elem_of_fmap.
    destruct (decide (movedAs ItemFolder Y [X] [ItemFolder])) as [Hm|Hm].
    - assert (Y = X) as Heq.
      { destruct Hm as (k & Hk & _). unfold indexOf in Hk. simpl in Hk.
        by destruct (decide (X = Y)). }
      exists (folderWithParentId fy (Some Y)). split; [done|].
      apply list_elem_of_filter. split; [simpl; by rewrite Heq|].
      subst st'. simpl. apply list_elem_of_fmap. exists fy. split; [|done].
      rewrite HY. by rewrite decide_True.
    - exists fy. split; [done|].
      apply list_elem_of_filter. split; [done|].
      subst st'. simpl. apply list_elem_of_fmap. exists fy. split; [|done].
      rewrite HY. by rewrite decide_False. }
  assert (Hloop : ∀ fuel,
    getAllDescendantAndSelfIds fuel X (Some ItemFolder) (Fs.folders st')
      (Fs.files st') = None).
  { intros fuel. unfold getAllDescendantAndSelfIds.
    rewrite (descend_circle _ _ [X; Y]); [done| |].
    - intros c [->|[->|[]%elem_of_nil]%elem_of_cons]%elem_of_cons.
      + exists Y. split; [done|]. right. by left.
      + exists X. split; [done|]. by left.
    - exists X. split; by left. }
  split.
  - exists (folderWithParentId fx (Some Y)). split; [|done].
    subst st'. simpl. apply list_elem_of_fmap. exists fx. split; [|done].
    rewrite HX. by rewrite decide_True.
  - intros fuel. split; [apply Hloop|].
    unfold deleteItems, restoreItems, permanentDeleteItems.
    by rewrite (collectIds_single_None _ _ _ _ _ (Hloop fuel)).
Qed.

Lemma move_under_own_child_loops_witness :
  let fx := {| Folder.id := "x"; Folder.name := "outer";
               Folder.parentId := None; Folder.deletedAt := None |} in
  let fy := {| Folder.id := "y"; Folder.name := "inner";
               Folder.parentId := Some "x"%string;
               Folder.deletedAt := None |} in
  let st := {| Fs.folders := [fx; fy]; Fs.files := [];
               Fs.activeFileId := None; Fs.documentHistories := ∅;
               Fs.notifications := [] |} in
  deleteItems 1000 ["x"%string] [ItemFolder] 0
    (moveItems ["x"%string] [ItemFolder] (Some "y"%string) st) = None.
Proof.
  intros fx fy st.
  destruct (move_under_own_child_loops st "x" "y" fx fy) as [_ Hloop].
  - by left.
  - reflexivity.
  - right. by left.
  - reflexivity.
  - reflexivity.
  - apply (Hloop 1000%nat).
Defined.
End DescendLoops.

(** ** Trash, deletion, selection *)

Section Bulk.
Implicit Types (st : Fs.t) (f : AppFile.t) (d : Folder.t).

Lemma childFolderIds_fmap (g : Folder.t → Folder.t)
    (currentFolders : list Folder.t) c :
  (∀ d, Folder.id (g d) = Folder.id d
        ∧ Folder.parentId (g d) = Folder.parentId d) →
  childFolderIds (g <$> currentFolders) c = childFolderIds currentFolders c.
Proof.
  intros Hg. unfold childFolderIds.
  induction currentFolders as [|d l IH]; [done|].
  rewrite fmap_cons, !filter_cons. destruct (Hg d) as [Hid Hp].
  rewrite Hp. destruct (decide _); [|done].
  by rewrite !fmap_cons, Hid, IH.
Qed.

Lemma childFileIds_fmap (h : AppFile.t → AppFile.t)
    (currentFiles : list AppFile.t) c :
  (∀ f, AppFile.id (h f) = AppFile.id f
        ∧ AppFile.folderId (h f) = AppFile.folderId f) →
  childFileIds (h <$> currentFiles) c = childFileIds currentFiles c.
Proof.
  intros Hh. unfold childFileIds.
  induction currentFiles as [|f l IH]; [done|].
  rewrite fmap_cons, !filter_cons. destruct (Hh f) as [Hid Hp].
  rewrite Hp. destruct (decide _); [|done].
  by rewrite !fmap_cons, Hid, IH.
Qed.

(** The search looks at ids and parents only. *)
Lemma collectIds_fmap (g : Folder.t → Folder.t) (h : AppFile.t → AppFile.t)
    (currentFolders : list Folder.t) (currentFiles : list AppFile.t) :
  (∀ d, Folder.id (g d) = Folder.id d
        ∧ Folder.parentId (g d) = Folder.parentId d) →
  (∀ f, AppFile.id (h f) = AppFile.id f
        ∧ AppFile.folderId (h f) = AppFile.folderId f) →
  ∀ fuel itemIds itemTypes index,
    collectIds fuel itemIds itemTypes index (g <$> currentFolders)
               (h <$> currentFiles)
    = collectIds fuel itemIds itemTypes index currentFolders currentFiles.
Proof.
  intros Hg Hh fuel.
  assert (Hd : ∀ n q (A B : list string),
            descend n q A B (g <$> currentFolders) (h <$> currentFiles)
            = descend n q A B currentFolders currentFiles).
  { induction n as [|n IH]; intros q A B; destruct q as [|c q]; try done.
    rewrite !descend_step.
    by rewrite childFolderIds_fmap, childFileIds_fmap, IH. }
  induction itemIds as [|x l IH]; intros itemTypes index; [done|].
  simpl. unfold getAllDescendantAndSelfIds. by rewrite Hd, IH.
Qed.

Lemma fileWithDeletedAt_back f now :
  AppFile.deletedAt f = None →
  fileWithDeletedAt (fileWithDeletedAt f (Some now)) None = f.
Proof. destruct f. simpl. by intros ->. Qed.

Lemma folderWithDeletedAt_back d now :
  Folder.deletedAt d = None →
  folderWithDeletedAt (folderWithDeletedAt d (Some now)) None = d.
Proof. destruct d. simpl. by intros ->. Qed.

(** X19. With nothing in the trash, moving a selection to the trash and
    restoring the same selection gives back the files and the folders as
    they were; the restore needs no more rounds than the move, and the
    histories are not touched by either. *)
Theorem trash_then_restore fuel itemIds itemTypes now st st1 :
  (∀ f, f ∈ Fs.files st → AppFile.deletedAt f = None) →
  (∀ d, d ∈ Fs.folders st → Folder.deletedAt d = None) →
  deleteItems fuel itemIds itemTypes now st = Some st1 →
  ∃ st2, restoreItems fuel itemIds itemTypes st1 = Some st2
         ∧ Fs.files st2 = Fs.files st
         ∧ Fs.folders st2 = Fs.folders st
         ∧ Fs.documentHistories st2 = Fs.documentHistories st.
Proof.
  intros Hfiles Hfolders. unfold deleteItems.
  destruct (collectIds fuel itemIds itemTypes 0 (Fs.folders st) (Fs.files st))
    as [[allFiles allFolders]|] eqn:Hc; [|done].
  simpl. intros [= <-]. unfold restoreItems. simpl.
  rewrite collectIds_fmap, Hc; [| intros d; by destruct (decide _)
                                 | intros f; by destruct (decide _)].
  simpl. eexists. split; [done|]. simpl. split_and!; [| |done].
  - rewrite <- list_fmap_compose. rewrite <- (list_fmap_id (Fs.files st)) at 2.
    apply list_fmap_ext. intros i f Hf. simpl.
    apply list_elem_of_lookup_2 in Hf.
    destruct (decide (AppFile.id f ∈ dedupe allFiles)) as [Hin|Hin]; simpl.
    + rewrite decide_True by done. apply fileWithDeletedAt_back.
      by apply Hfiles.
    + by rewrite decide_False.
  - rewrite <- list_fmap_compose.
    rewrite <- (list_fmap_id (Fs.folders st)) at 2.
    apply list_fmap_ext. intros i d Hd. simpl.
    apply list_elem_of_lookup_2 in Hd.
    destruct (decide (Folder.id d ∈ dedupe allFolders)) as [Hin|Hin]; simpl.
    + rewrite decide_True by done. apply folderWithDeletedAt_back.
      by apply Hfolders.
    + by rewrite decide_False.
Qed.

Lemma trash_then_restore_witness :
  let fx := {| Folder.id := "x"; Folder.name := "outer";
               Folder.parentId := None; Folder.deletedAt := None |} in
  let g := {| AppFile.id := "g"; AppFile.name := "notes.txt";
              AppFile.folderId := Some "x"%string; AppFile.content := "b";
              AppFile.createdAt := 0; AppFile.deletedAt := None |} in
  let st := {| Fs.folders := [fx]; Fs.files := [g];
               Fs.activeFileId := Some "g"%string;
               Fs.documentHistories := ∅; Fs.notifications := [] |} in
  ∃ st1 st2,
    deleteItems 2 ["x"%string] [ItemFolder] 9 st = Some st1
    ∧ AppFile.deletedAt <$> Fs.files st1 = [Some 9]
    ∧ restoreItems 2 ["x"%string] [ItemFolder] st1 = Some st2
    ∧ Fs.files st2 = [g] ∧ Fs.folders st2 = [fx].
Proof.
  intros fx g st.
  destruct (deleteItems 2 ["x"%string] [ItemFolder] 9 st) as [st1|] eqn:Hdel;
    [|discriminate Hdel].
  destruct (trash_then_restore 2 ["x"%string] [ItemFolder] 9 st st1)
    as (st2 & Hres & Hfiles & Hfolders & _).
  - intros f Hf. by apply list_elem_of_singleton in Hf as ->.
  - intros d Hd. by apply list_elem_of_singleton in Hd as ->.
  - exact Hdel.
  - exists st1, st2. split; [done|]. split; [|done].
    injection Hdel as <-. reflexivity.
Defined.

Lemma collectIds_files fuel (currentFolders : list Folder.t)
    (currentFiles : list AppFile.t) itemIds : ∀ itemTypes index,
  (∀ j, (j < length itemIds)%nat →
        itemTypes !! (index + j)%nat = Some ItemFile) →
  collectIds fuel itemIds itemTypes index currentFolders currentFiles
  = Some (itemIds, []).
Proof.
  induction itemIds as [|x l IH]; intros itemTypes index Hty; [done|].
  simpl. rewrite <- (Nat.add_0_r index) at 1.
  rewrite (Hty 0%nat) by (simpl; lia). simpl.
  rewrite IH; [done|]. intros j Hj.
  replace (S index + j)%nat with (index + S j)%nat by lia.
  apply Hty. simpl. lia.
Qed.

(** X20. Deleting files for good needs no search and always returns: the
    files are removed, the folders stay, the history entry of each deleted
    file is discarded, so that nothing can be undone on it, and the
    entries of all other documents stay as they are; the active document
    is cleared when it was among the deleted. *)
Theorem permanent_delete_of_files fuel itemIds st :
  ∃ st', permanentDeleteItems fuel itemIds
           (replicate (length itemIds) ItemFile) st = Some st'
    ∧ Fs.files st' = filter (λ f, AppFile.id f ∉ itemIds) (Fs.files st)
    ∧ Fs.folders st' = Fs.folders st
    ∧ (∀ i, i ∈ itemIds →
         Fs.documentHistories st' !! i = None
         ∧ ∀ eager, undo eager i (Fs.documentHistories st')
                    = (Fs.documentHistories st', None))
    ∧ (∀ i, i ∉ itemIds →
         Fs.documentHistories st' !! i = Fs.documentHistories st !! i)
    ∧ (∀ a, Fs.activeFileId st = Some a → a ≠ ""%string →
         Fs.activeFileId st' = if decide (a ∈ itemIds) then None else Some a).
Proof.
  unfold permanentDeleteItems.
  rewrite collectIds_files
    by (intros j Hj; simpl; by apply lookup_replicate_2).
  simpl. eexists. split; [done|]. simpl. split_and!.
  - f_equal. apply filter_ext_in. intros f _. by rewrite elem_of_dedupe.
  - apply filter_all. apply Forall_forall. intros d _.
    unfold dedupe. simpl. apply not_elem_of_nil.
  - intros i Hi.
    assert (Hnone : foldl (λ hs j, deleteFileHistory j hs)
                      (Fs.documentHistories st) (dedupe itemIds) !! i = None).
    { rewrite lookup_foldl_delete, decide_True; [done|].
      by apply dedupe_elem_2. }
    split; [done|]. intros eager. unfold undo. by rewrite Hnone.
  - intros i Hi. rewrite lookup_foldl_delete, decide_False; [done|].
    intros Hin%dedupe_elem_1. done.
  - intros a Ha Hne. unfold clearActiveIfIn. rewrite Ha.
    destruct (decide (a ∈ itemIds)) as [Hin|Hin].
    + rewrite decide_True; [done|]. split; [done|]. by apply dedupe_elem_2.
    + rewrite decide_False; [done|]. intros [_ Hin'%dedupe_elem_1]. done.
Qed.

(** X21. Selecting a file that is there and not in the trash makes it the
    active one and leaves its history with the cursor on the content of
    the file, so that undo and redo go on from what is shown; the files
    are not changed. Selecting an id that no file outside the trash has
    clears the selection and leaves the histories alone. *)
Theorem select_opens_on_content i st :
  fsOk st →
  (∀ f, f ∈ Fs.files st → AppFile.id f = i → AppFile.deletedAt f = None →
     let st' := selectFile (Some i) st in
     Fs.activeFileId st' = Some i
     ∧ Fs.files st' = Fs.files st
     ∧ currentContent i (Fs.documentHistories st') = Some (AppFile.content f))
  ∧ ((∀ f, f ∈ Fs.files st → AppFile.id f = i →
           AppFile.deletedAt f ≠ None) →
     selectFile (Some i) st = setActiveFileId None st).
Proof.
  intros [Hnd Hs]. split.
  - intros f Hf Hid Hdel st'. subst st'. unfold selectFile.
    destruct (list_find_elem_of
                (λ f, AppFile.id f = i ∧ AppFile.deletedAt f = None)
                (Fs.files st) f Hf) as [[k sel] Hfind]; [done|].
    rewrite Hfind. apply list_find_Some in Hfind as (Hk & [Hsid _] & _).
    assert (sel = f) as ->.
    { eapply NoDup_ids_eq; [done| |done|congruence].
      by eapply list_elem_of_lookup_2. }
    simpl. split_and!; [done..|].
    unfold currentContent, initializeHistory.
    destruct (Fs.documentHistories st !! i) as [e|] eqn:E.
    + destruct (decide _).
      * rewrite E. simpl. apply Hs; [done|]. by rewrite Hid.
      * by rewrite lookup_insert_eq.
    + by rewrite lookup_insert_eq.
  - intros Hnone. unfold selectFile.
    destruct (list_find _ _) as [[k sel]|] eqn:Hfind; [|done].
    apply list_find_Some in Hfind as (Hk & [Hsid Hdel] & _).
    destruct (Hnone sel); [by eapply list_elem_of_lookup_2|done..].
Qed.

Lemma select_opens_on_content_witness :
  let f := {| AppFile.id := "f1"; AppFile.name := "notes.txt";
              AppFile.folderId := None; AppFile.content := "b";
              AppFile.createdAt := 0; AppFile.deletedAt := None |} in
  let st := {| Fs.folders := []; Fs.files := [f];
               Fs.activeFileId := None;
               Fs.documentHistories :=
                 {[ "f1"%string :=
                      {| history := ["b"; "c"; "b"]%string;
                         currentIndex := 0 |} ]};
               Fs.notifications := [] |} in
  fsOk st
  ∧ currentContent "f1"
      (Fs.documentHistories (selectFile (Some "f1"%string) st))
    = Some "b"%string
  ∧ selectFile (Some "gone"%string) st = setActiveFileId None st.
Proof.
  intros f st.
  assert (Hok : fsOk st).
  { split.
    - apply NoDup_singleton.
    - intros g e Hg He. apply list_elem_of_singleton in Hg as ->.
      simpl in He. rewrite lookup_singleton_eq in He. by injection He as <-. }
  destruct (select_opens_on_content "f1" st Hok) as [Hopen _].
  destruct (select_opens_on_content "gone" st Hok) as [_ Hgone].
  split; [exact Hok|]. split.
  - apply (Hopen f); [by left | reflexivity..].
  - apply Hgone. intros g Hg Hid. apply list_elem_of_singleton in Hg as ->.
    discriminate Hid.
Defined.

Lemma includes_copy s : includes "Copia de" ("Copia de " +:+ s) = true.
Proof. reflexivity. Qed.

(** X22. The duplicate of a file, ids distinct and the new id not in use:
    one file is appended, with the content and the folder of the
    original, the name with [Copia de] before it, and out of the trash
    even when the original is in it; its history starts with the one
    snapshot and the other entries stay; the selection is not changed;
    the notice says the file was duplicated. For an id no file has,
    nothing happens. *)
Theorem duplicate_appends_live_copy fileId newId now st :
  NoDup (AppFile.id <$> Fs.files st) →
  Fs.documentHistories st !! newId = None →
  let st' := duplicateFile fileId newId now st in
  (∀ f, f ∈ Fs.files st → AppFile.id f = fileId →
     Fs.files st'
     = Fs.files st
       ++ [{| AppFile.id := newId;
              AppFile.name := "Copia de " +:+ AppFile.name f;
              AppFile.folderId := AppFile.folderId f;
              AppFile.content := AppFile.content f;
              AppFile.createdAt := now; AppFile.deletedAt := None |}]
     ∧ Fs.folders st' = Fs.folders st
     ∧ Fs.activeFileId st' = Fs.activeFileId st
     ∧ Fs.documentHistories st' !! newId
       = Some (freshEntry (AppFile.content f))
     ∧ (∀ other, other ≠ newId →
          Fs.documentHistories st' !! other
          = Fs.documentHistories st !! other)
     ∧ Fs.notifications st'
       = Fs.notifications st
         ++ [{| type := success;
                message := "Archivo " +:+ quote +:+ "Copia de "
                           +:+ AppFile.name f +:+ quote +:+ " duplicado.";
                title := None |}])
  ∧ (fileId ∉ AppFile.id <$> Fs.files st → st' = st).
Proof.
  intros Hnd Hfresh st'. subst st'. unfold duplicateFile. split.
  - intros f Hf Hid.
    destruct (list_find_elem_of (λ f, AppFile.id f = fileId)
                (Fs.files st) f Hf) as [[k orig] Hfind]; [done|].
    rewrite Hfind. apply list_find_Some in Hfind as (Hk & Hoid & _).
    assert (orig = f) as ->.
    { eapply NoDup_ids_eq; [done| |done|congruence].
      by eapply list_elem_of_lookup_2. }
    unfold createFile. rewrite includes_copy. simpl.
    split_and!; try done.
    + unfold initializeHistory. rewrite Hfresh. by rewrite lookup_insert_eq.
    + intros other Hne. by apply initializeHistory_lookup_ne.
  - intros Hnone.
    destruct (list_find _ _) as [[k orig]|] eqn:Hfind; [|done].
    apply list_find_Some in Hfind as (Hk & Hoid & _).
    destruct Hnone. apply list_elem_of_fmap. exists orig.
    split; [done|]. by eapply list_elem_of_lookup_2.
Qed.

Lemma duplicate_appends_live_copy_witness :
  let f := {| AppFile.id := "f1"; AppFile.name := "notes.txt";
              AppFile.folderId := Some "x"%string; AppFile.content := "b";
              AppFile.createdAt := 0; AppFile.deletedAt := Some 4 |} in
  let st := {| Fs.folders := []; Fs.files := [f];
               Fs.activeFileId := None; Fs.documentHistories := ∅;
               Fs.notifications := [] |} in
  AppFile.deletedAt <$> Fs.files (duplicateFile "f1" "f2" 7 st)
    = [Some 4; None]
  ∧ duplicateFile "gone" "f2" 7 st = st.
Proof.
  intros f st.
  destruct (duplicate_appends_live_copy "f1" "f2" 7 st) as [Hcopy _];
    [apply NoDup_singleton | reflexivity |].
  destruct (duplicate_appends_live_copy "gone" "f2" 7 st) as [_ Hnone];
    [apply NoDup_singleton | reflexivity |].
  split.
  - destruct (Hcopy f) as (-> & _); [by left | reflexivity | reflexivity].
  - apply Hnone. simpl. intros Hin%list_elem_of_singleton. discriminate Hin.
Defined.
End Bulk.

(** ** The move dialog *)

Section MoveDialog.
Implicit Types (folders : list Folder.t) (items : list (string * ItemType)).

Local Abbreviation below_step fuel folders :=
  (λ (acc : option (list string)) (child : Folder.t),
     ids ← acc;
     below ← getDescendantFolderIds_local fuel (Folder.id child) folders;
     Some ((ids ++ [Folder.id child]) ++ below)).

Lemma below_unfold fuel x folders :
  getDescendantFolderIds_local (S fuel) x folders
  = foldl (below_step fuel folders) (Some [])
      (filter (λ f, Folder.parentId f = Some x) folders).
Proof. done. Qed.

Lemma below_fold_None fuel folders (l : list Folder.t) :
  foldl (below_step fuel folders) None l = None.
Proof. induction l as [|c l IH]; [done|]. simpl. exact IH. Qed.

(** What a round over the children gives: what was there, the children,
    and what lies below each. *)
Lemma below_fold fuel folders (l : list Folder.t) : ∀ acc r,
  foldl (below_step fuel folders) (Some acc) l = Some r →
  acc ⊆ r
  ∧ (∀ c, c ∈ l →
       Folder.id c ∈ r
       ∧ ∃ D, getDescendantFolderIds_local fuel (Folder.id c) folders = Some D
              ∧ D ⊆ r)
  ∧ (∀ y, y ∈ r →
       y ∈ acc
       ∨ ∃ c, c ∈ l
              ∧ (y = Folder.id c
                 ∨ ∃ D, getDescendantFolderIds_local fuel (Folder.id c)
                          folders = Some D ∧ y ∈ D)).
Proof.
  induction l as [|c l IH]; intros acc r Hr.
  - injection Hr as <-. split_and!; [done| |by left].
    intros c Hc. by apply elem_of_nil in Hc.
  - simpl in Hr.
    destruct (getDescendantFolderIds_local fuel (Folder.id c) folders)
      as [D|] eqn:HD; simpl in Hr; [|by rewrite below_fold_None in Hr].
    apply IH in Hr as (Hsub & Hin & Hout). split_and!.
    + intros y Hy. apply Hsub. rewrite !elem_of_app. by left; left.
    + intros c' [->|Hc']%elem_of_cons.
      * split.
        -- apply Hsub. rewrite !elem_of_app. left; right. by left.
        -- exists D. split; [done|]. intros y Hy. apply Hsub.
           rewrite !elem_of_app. by right.
      * by apply Hin.
    + intros y Hy. destruct (Hout y Hy) as [Hacc|(c' & Hc' & Hy')].
      * apply elem_of_app in Hacc as [Hacc|Hacc].
        -- apply elem_of_app in Hacc as [Hacc|Hacc]; [by left|].
           apply list_elem_of_singleton in Hacc as ->.
           right. exists c. split; [by left|by left].
        -- right. exists c. split; [by left|]. right. by exists D.
      * right. exists c'. split; [by right|done].
Qed.

(** What is found below a folder has the folders right under it and is
    closed under going down. *)
Lemma below_closed folders fuel : ∀ x r,
  getDescendantFolderIds_local fuel x folders = Some r →
  (∀ f, f ∈ folders → Folder.parentId f = Some x → Folder.id f ∈ r)
  ∧ (∀ p f, p ∈ r → f ∈ folders → Folder.parentId f = Some p →
            Folder.id f ∈ r).
Proof.
  induction fuel as [|fuel IH]; intros x r Hr; [done|].
  rewrite below_unfold in Hr.
  apply below_fold in Hr as (_ & Hin & Hout). split.
  - intros f Hf Hp. apply Hin. by apply list_elem_of_filter.
  - intros p f Hp Hf Hfp.
    destruct (Hout p Hp) as [Hnil|(c & Hc & [->|(D & HD & HpD)])].
    + by apply elem_of_nil in Hnil.
    + destruct (Hin c Hc) as (_ & D & HD & Hsub).
      apply Hsub. by apply (IH _ _ HD).
    + destruct (Hin c Hc) as (_ & D' & HD' & Hsub).
      assert (D' = D) as -> by congruence.
      apply Hsub. by apply (proj2 (IH _ _ HD) p f).
Qed.

Lemma below_fold_more fuel fuel' folders (l : list Folder.t) :
  (∀ x r, getDescendantFolderIds_local fuel x folders = Some r →
          getDescendantFolderIds_local fuel' x folders = Some r) →
  ∀ acc r, foldl (below_step fuel folders) acc l = Some r →
           foldl (below_step fuel' folders) acc l = Some r.
Proof.
  intros Hmore. induction l as [|c l IH]; intros acc r Hr; [done|].
  simpl in *. destruct acc as [ids|]; simpl in *;
    [|by rewrite below_fold_None in Hr].
  destruct (getDescendantFolderIds_local fuel (Folder.id c) folders)
    as [D|] eqn:HD; simpl in Hr; [|by rewrite below_fold_None in Hr].
  rewrite (Hmore _ _ HD). simpl. by apply IH.
Qed.

Lemma below_more_fuel folders fuel : ∀ k x r,
  getDescendantFolderIds_local fuel x folders = Some r →
  getDescendantFolderIds_local (fuel + k) x folders = Some r.
Proof.
  induction fuel as [|fuel IH]; intros k x r Hr; [done|].
  replace (S fuel + k)%nat with (S (fuel + k)) by lia.
  rewrite below_unfold in *.
  eapply below_fold_more; [|exact Hr]. intros y s. apply IH.
Qed.

Lemma below_fold_ends fuel folders (l : list Folder.t) :
  (∀ c, c ∈ l →
     is_Some (getDescendantFolderIds_local fuel (Folder.id c) folders)) →
  ∀ acc, is_Some (foldl (below_step fuel folders) (Some acc) l).
Proof.
  induction l as [|c l IH]; intros Hl acc; [by eexists|].
  simpl. destruct (Hl c) as [D HD]; [by left|]. rewrite HD. simpl.
  apply IH. intros c' Hc'. apply Hl. by right.
Qed.

(** In a forest the recursion ends: its depth is bounded by the ranks. *)
Lemma below_ends folders (rank : string → nat) (M : nat) :
  (∀ f p, f ∈ folders → Folder.parentId f = Some p →
          (rank p < rank (Folder.id f))%nat) →
  (∀ f, f ∈ folders → (rank (Folder.id f) ≤ M)%nat) →
  ∀ fuel x, (M - rank x < fuel)%nat →
            is_Some (getDescendantFolderIds_local fuel x folders).
Proof.
  intros Hrank HM. induction fuel as [|fuel IH]; intros x Hx; [lia|].
  rewrite below_unfold. apply below_fold_ends.
  intros c [Hp Hc]%list_elem_of_filter. apply IH.
  pose proof (Hrank c x Hc Hp). pose proof (HM c Hc). lia.
Qed.

Lemma checkMove_more_fuel folders target items : ∀ fuel k r,
  checkMove fuel items target folders = Some r →
  checkMove (fuel + k) items target folders = Some r.
Proof.
  induction items as [|[i [|]] items IH]; intros fuel k r Hr; [done|..].
  - simpl in *. by apply IH.
  - simpl in *. destruct (decide (target = Some i)); [done|].
    destruct (getDescendantFolderIds_local fuel i folders) as [D|] eqn:HD;
      [|done].
    rewrite (below_more_fuel _ _ k _ _ HD). simpl in *.
    destruct target as [T|]; [destruct (decide (T ∈ D)); [done|]|];
      by apply IH.
Qed.

Lemma checkMove_ends folders (rank : string → nat) (M : nat) target items :
  (∀ f p, f ∈ folders → Folder.parentId f = Some p →
          (rank p < rank (Folder.id f))%nat) →
  (∀ f, f ∈ folders → (rank (Folder.id f) ≤ M)%nat) →
  is_Some (checkMove (S M) items target folders).
Proof.
  intros Hrank HM. induction items as [|[i [|]] items IH]; [by eexists|done|].
  cbn [checkMove]. destruct (decide (target = Some i)); [by eexists|].
  destruct (below_ends folders rank M Hrank HM (S M) i) as [D HD]; [lia|].
  rewrite HD. cbn [mbind option_bind].
  destruct target as [T|]; [destruct (decide (T ∈ D)); [by eexists|]|]; done.
Qed.

(** When all checks pass, the target is none of the selected folders and
    lies below none of them. *)
Lemma checkMove_passed folders fuel target items :
  checkMove fuel items target folders = Some None →
  ∀ i, (i, ItemFolder) ∈ items →
    target ≠ Some i
    ∧ ∃ D, getDescendantFolderIds_local fuel i folders = Some D
           ∧ ∀ T, target = Some T → T ∉ D.
Proof.
  induction items as [|[j [|]] items IH]; intros Hr i Hi.
  - by apply elem_of_nil in Hi.
  - apply elem_of_cons in Hi as [[=]|Hi]. by apply IH.
  - simpl in Hr. destruct (decide (target = Some j)) as [|Hne]; [done|].
    destruct (getDescendantFolderIds_local fuel j folders) as [D|] eqn:HD;
      [|done].
    simpl in Hr.
    assert (Hrest : checkMove fuel items target folders = Some None
                    ∧ ∀ T, target = Some T → T ∉ D).
    { destruct target as [T|].
      - destruct (decide (T ∈ D)); [done|]. split; [done|].
        by intros T' [= <-].
      - done. }
    destruct Hrest as [Hrest HT].
    apply elem_of_cons in Hi as [[= ->]|Hi]; [|by apply IH].
    split; [done|]. by exists D.
Qed.

Lemma movedAs_selected items i ty :
  NoDup items.*1 → (i, ty) ∈ items → movedAs ty i items.*1 items.*2.
Proof.
  intros Hnd Hin. apply list_elem_of_lookup in Hin as [k Hk].
  exists k. split.
  - unfold indexOf.
    destruct (list_find_elem_of (λ y, y = i) items.*1 i) as [[k' y] Hfind];
      [|done|].
    { apply list_elem_of_fmap. exists (i, ty). split; [done|].
      by eapply list_elem_of_lookup_2. }
    rewrite Hfind. simpl. f_equal.
    apply list_find_Some in Hfind as (Hk' & -> & _).
    eapply NoDup_lookup; [exact Hnd|exact Hk'|].
    by rewrite list_lookup_fmap, Hk.
  - by rewrite list_lookup_fmap, Hk.
Qed.

Lemma selected_movedAs items i ty :
  movedAs ty i items.*1 items.*2 → (i, ty) ∈ items.
Proof.
  intros (k & Hidx & Hty). unfold indexOf in Hidx.
  destruct (list_find _ _) as [[k' y]|] eqn:Hfind; [|done].
  injection Hidx as ->. apply list_find_Some in Hfind as (Hk & -> & _).
  rewrite list_lookup_fmap in Hk. rewrite list_lookup_fmap in Hty.
  destruct (items !! k) as [[j t]|] eqn:E; [|done].
  simpl in *. injection Hk as ->. injection Hty as ->.
  by eapply list_elem_of_lookup_2.
Qed.

(** X23. The move of the dialog keeps the folders a forest. On a forest
    the checks of [handleMoveSelectedItems] end, and what it returns is
    again a forest with the same folder ids: a move that would put a
    selected folder under itself or under a folder below it is refused,
    with a notice and nothing moved. *)
Theorem dialog_move_keeps_forest selectedItems targetFolderForMove st :
  NoDup selectedItems.*1 →
  forest (Fs.folders st) →
  ∃ n st',
    (∀ fuel, (n ≤ fuel)%nat →
       handleMoveSelectedItems fuel selectedItems targetFolderForMove st
       = Some st')
    ∧ forest (Fs.folders st')
    ∧ Folder.id <$> Fs.folders st' = Folder.id <$> Fs.folders st
    ∧ (∀ X child T,
         (X, ItemFolder) ∈ selectedItems →
         targetFolderForMove = Some (Some T) →
         T = X ∨ (child ∈ Fs.folders st ∧ Folder.id child = T
                  ∧ Folder.parentId child = Some X) →
         Fs.folders st' = Fs.folders st ∧ Fs.files st' = Fs.files st
         ∧ length (Fs.notifications st') = S (length (Fs.notifications st))).
Proof.
  intros Hnd [rank Hrank].
  set (M := max_list (rank ∘ Folder.id <$> Fs.folders st)).
  assert (HM : ∀ f, f ∈ Fs.folders st → (rank (Folder.id f) ≤ M)%nat).
  { intros f Hf. apply max_list_elem_of_le, list_elem_of_fmap.
    by exists f. }
  unfold handleMoveSelectedItems.
  destruct selectedItems as [|it items] eqn:Hsel.
  { exists 0%nat, st. split_and!; [done|by exists rank|done|].
    intros X child T HX. by apply elem_of_nil in HX. }
  rewrite <- Hsel in *. clear Hsel it items.
  destruct targetFolderForMove as [target|].
  2: { exists 0%nat, st. split_and!; [done|by exists rank|done|done]. }
  destruct (checkMove_ends (Fs.folders st) rank M target selectedItems
              Hrank HM) as [failed Hcheck].
  remember (S M) as n eqn:Hn. clear Hn. exists n.
  destruct failed as [msg|].
  - exists (fsNotify error msg st). split_and!.
    + intros fuel Hfuel. replace fuel with (n + (fuel - n))%nat by lia.
      by rewrite (checkMove_more_fuel _ _ _ _ _ _ Hcheck).
    + by exists rank.
    + done.
    + intros X child T _ _ _. simpl. split_and!; [done..|].
      rewrite length_app. simpl. lia.
  - pose proof (checkMove_passed _ _ _ _ Hcheck) as Hpass.
    exists (moveItems selectedItems.*1 selectedItems.*2 target st).
    split_and!.
    + intros fuel Hfuel. replace fuel with (n + (fuel - n))%nat by lia.
      by rewrite (checkMove_more_fuel _ _ _ _ _ _ Hcheck).
    + destruct target as [T|].
      * (* the folders moved, and what lies below them, are ranked above
           all the others *)
        set (under := λ x, ∃ i D, (i, ItemFolder) ∈ selectedItems
               ∧ getDescendantFolderIds_local n i (Fs.folders st) = Some D
               ∧ (x = i ∨ x ∈ D)).
        assert (Hdec : ∀ x, Decision (under x)).
        { intros x. unfold under.
          assert (Hl : ∀ l : list (string * ItemType),
                    Decision (∃ i D, (i, ItemFolder) ∈ l
                      ∧ getDescendantFolderIds_local n i (Fs.folders st)
                        = Some D
                      ∧ (x = i ∨ x ∈ D))).
          { induction l as [|[j ty] l IHl].
            - right. intros (i & D & Hi & _). by apply elem_of_nil in Hi.
            - destruct IHl as [Hyes|Hno].
              + left. destruct Hyes as (i & D & Hi & HD & Hx).
                exists i, D. split; [by right|done].
              + destruct ty.
                * right. intros (i & D & Hi & HD & Hx).
                  apply elem_of_cons in Hi as [[=]|Hi].
                  apply Hno. by exists i, D.
                * destruct (getDescendantFolderIds_local n j
                              (Fs.folders st)) as [D|] eqn:HD.
                  -- destruct (decide (x = j ∨ x ∈ D)) as [Hx|Hx].
                     ++ left. exists j, D. split; [by left|done].
                     ++ right. intros (i & D' & Hi & HD' & Hx').
                        apply elem_of_cons in Hi as [[= ->]|Hi].
                        ** apply Hx. by assert (D' = D) as -> by congruence.
                        ** apply Hno. by exists i, D'.
                  -- right. intros (i & D' & Hi & HD' & Hx').
                     apply elem_of_cons in Hi as [[= ->]|Hi]; [congruence|].
                     apply Hno. by exists i, D'. }
          apply Hl. }
        exists (λ x, if decide (under x) then (rank x + S (rank T))%nat
                     else rank x).
        intros f p Hf Hp. simpl in Hf.
        apply list_elem_of_fmap in Hf as (f0 & -> & Hf0).
        destruct (decide (movedAs ItemFolder (Folder.id f0) selectedItems.*1
                            selectedItems.*2)) as [Hmv|Hmv]; simpl in *.
        -- injection Hp as <-. apply selected_movedAs in Hmv.
           destruct (Hpass _ Hmv) as (Hne & D & HD & HT).
           rewrite (decide_True (P := under (Folder.id f0)));
             [|exists (Folder.id f0), D; split_and!; [done..|by left]].
           rewrite (decide_False (P := under T)); [lia|].
           intros (i & D' & Hi & HD' & [->|HTD]).
           ++ by destruct (Hpass _ Hi) as [Hni _].
           ++ destruct (Hpass _ Hi) as (_ & D'' & HD'' & HT'').
              assert (D'' = D') as -> by congruence. by apply (HT'' T).
        -- pose proof (Hrank f0 p Hf0 Hp) as Hlt.
           destruct (decide (under p)) as [Hup|Hup].
           ++ rewrite decide_True; [lia|].
              destruct Hup as (i & D & Hi & HD & Hx).
              exists i, D. split_and!; [done..|]. right.
              destruct (below_closed _ _ _ _ HD) as [Hkid Hdown].
              destruct Hx as [->|Hx]; [by apply Hkid|by eapply Hdown].
           ++ destruct (decide (under (Folder.id f0))); lia.
      * exists rank. intros f p Hf Hp. simpl in Hf.
        apply list_elem_of_fmap in Hf as (f0 & -> & Hf0).
        destruct (decide _); simpl in *; [done|]. by apply Hrank.
    + simpl. rewrite <- list_fmap_compose. apply list_fmap_ext.
      intros k f _. simpl. by destruct (decide _).
    + intros X child T HX [= ->] Hbad. exfalso.
      destruct (Hpass _ HX) as (Hne & D & HD & HT).
      destruct Hbad as [->|(Hc & Hid & Hp)]; [done|].
      apply (HT T eq_refl). rewrite <- Hid.
      by apply (proj1 (below_closed _ _ _ _ HD) child).
Qed.

Lemma dialog_move_keeps_forest_witness :
  let fx := {| Folder.id := "x"; Folder.name := "outer";
               Folder.parentId := None; Folder.deletedAt := None |} in
  let fy := {| Folder.id := "y"; Folder.name := "inner";
               Folder.parentId := Some "x"%string;
               Folder.deletedAt := None |} in
  let fz := {| Folder.id := "z"; Folder.name := "other";
               Folder.parentId := None; Folder.deletedAt := None |} in
  let st := {| Fs.folders := [fx; fy; fz]; Fs.files := [];
               Fs.activeFileId := None; Fs.documentHistories := ∅;
               Fs.notifications := [] |} in
  forest (Fs.folders st)
  ∧ ∃ n st',
      handleMoveSelectedItems n [("x"%string, ItemFolder)]
        (Some (Some "y"%string)) st = Some st'
      ∧ Fs.folders st' = Fs.folders st.
Proof.
  intros fx fy fz st.
  assert (Hforest : forest (Fs.folders st)).
  { exists (λ i, if decide (i = "y"%string) then 1%nat else 0%nat).
    intros f p Hf Hp. simpl in Hf.
    apply elem_of_cons in Hf as [->|Hf]; [discriminate Hp|].
    apply elem_of_cons in Hf as [->|Hf].
    - injection Hp as <-. simpl. lia.
    - apply list_elem_of_singleton in Hf as ->. discriminate Hp. }
  split; [exact Hforest|].
  destruct (dialog_move_keeps_forest [("x"%string, ItemFolder)]
              (Some (Some "y"%string)) st)
    as (n & st' & Hrun & _ & _ & Hrefused).
  - apply NoDup_singleton.
  - exact Hforest.
  - exists n, st'. split; [by apply Hrun|].
    apply (Hrefused "x"%string fy "y"%string); [by left|done|].
    right. split; [right; by left|done].
Defined.
End MoveDialog.

(** ** Tables *)

Section Strings.
Implicit Types (s t w : jsString) (c : N) (a : list jsString).

Local Abbreviation white := (λ c, isWhiteSpace c = true).
Local Abbreviation black := (λ c, isWhiteSpace c = false).

Lemma trimStart_split s :
  ∃ w, s = w ++ trimStart s ∧ Forall white w
       ∧ ∀ c, head (trimStart s) = Some c → black c.
Proof.
  induction s as [|c s (w & Hs & Hw & Hh)]; [by exists []|].
  simpl. destruct (isWhiteSpace c) eqn:Hc.
  - exists (c :: w). split_and!; [by rewrite Hs at 1|by constructor|done].
  - exists []. split_and!; [done..|]. by intros c' [= <-].
Qed.

Lemma trimStart_unique s w t :
  s = w ++ t → Forall white w → (∀ c, head t = Some c → black c) →
  trimStart s = t.
Proof.
  intros -> Hw Ht. induction Hw as [|c w Hc Hw IH]; simpl.
  - destruct t as [|c t]; [done|]. simpl. by rewrite (Ht c).
  - by rewrite Hc.
Qed.

Lemma trimEnd_split s :
  ∃ w, s = trimEnd s ++ w ∧ Forall white w
       ∧ ∀ c, last (trimEnd s) = Some c → black c.
Proof.
  unfold trimEnd. destruct (trimStart_split (reverse s)) as (w & Hs & Hw & Hh).
  exists (reverse w). split_and!.
  - rewrite <- reverse_app, <- Hs. by rewrite reverse_involutive.
  - by apply Forall_reverse.
  - intros c. rewrite last_reverse. apply Hh.
Qed.

Lemma trimEnd_unique s w t :
  s = t ++ w → Forall white w → (∀ c, last t = Some c → black c) →
  trimEnd s = t.
Proof.
  intros -> Hw Ht. unfold trimEnd.
  rewrite (trimStart_unique _ (reverse w) (reverse t)).
  - apply reverse_involutive.
  - apply reverse_app.
  - by apply Forall_reverse.
  - intros c. rewrite head_reverse. apply Ht.
Qed.

Lemma trim_trimmedEnds s : trimmedEnds s → trim s = s.
Proof.
  intros [Hh Hl]. unfold trim.
  rewrite (trimStart_unique s [] s); [|done..].
  by rewrite (trimEnd_unique s [] s); [|by rewrite app_nil_r|..].
Qed.

Lemma trimmedEnds_trim s : trimmedEnds (trim s).
Proof.
  unfold trim. destruct (trimStart_split s) as (w & Hs & Hw & Hh).
  destruct (trimEnd_split (trimStart s)) as (w' & Hs' & Hw' & Hl).
  split; [|done]. intros c Hc. apply Hh. rewrite Hs'.
  destruct (trimEnd (trimStart s)); [done|]. exact Hc.
Qed.

Lemma trim_fixed s : trim s = s ↔ trimmedEnds s.
Proof.
  split; [|apply trim_trimmedEnds]. intros <-. apply trimmedEnds_trim.
Qed.

Lemma trim_idem s : trim (trim s) = trim s.
Proof. apply trim_trimmedEnds, trimmedEnds_trim. Qed.

(** [trim] takes from both ends only. *)
Lemma trim_split s : ∃ w w', s = w ++ trim s ++ w' ∧ Forall white w
                             ∧ Forall white w'.
Proof.
  unfold trim. destruct (trimStart_split s) as (w & Hs & Hw & _).
  destruct (trimEnd_split (trimStart s)) as (w' & Hs' & Hw' & _).
  exists w, w'. split_and!; [|done..]. by rewrite <- Hs'.
Qed.

Lemma elem_of_trim c s : c ∈ trim s → c ∈ s.
Proof.
  destruct (trim_split s) as (w & w' & Hs & _). intros Hc.
  rewrite Hs, !elem_of_app. right; by left.
Qed.

Lemma trim_white s : Forall white s → trim s = [].
Proof.
  intros Hs. unfold trim.
  by rewrite (trimStart_unique s s []); [|by rewrite app_nil_r|..].
Qed.

Lemma trim_nil_white s : trim s = [] → Forall white s.
Proof.
  destruct (trim_split s) as (w & w' & Hs & Hw & Hw'). intros E.
  rewrite Hs, E. by apply Forall_app.
Qed.
End Strings.

Section SplitJoin.
Implicit Types (s x : jsString) (c sep : N) (a : list jsString).

Lemma splitOn_clean sep x : sep ∉ x → splitOn sep x = [x].
Proof.
  induction x as [|c x IH]; [done|]. intros [Hc Hx]%not_elem_of_cons.
  simpl. rewrite decide_False by done. by rewrite IH.
Qed.

Lemma splitOn_app sep x s :
  sep ∉ x → splitOn sep (x ++ sep :: s) = x :: splitOn sep s.
Proof.
  induction x as [|c x IH]; simpl.
  - intros _. by rewrite decide_True.
  - intros [Hc Hx]%not_elem_of_cons. rewrite decide_False by done.
    by rewrite IH.
Qed.

Lemma join_cons (sp : jsString) x y a :
  join sp (x :: y :: a) = x ++ sp ++ join sp (y :: a).
Proof. done. Qed.

Lemma splitOn_join sep a :
  a ≠ [] → Forall (λ x, sep ∉ x) a → splitOn sep (join [sep] a) = a.
Proof.
  intros Ha Hall. induction Hall as [|x a Hx Hall IH]; [done|].
  destruct a as [|y a].
  - by apply splitOn_clean.
  - rewrite join_cons.
    change ([sep] ++ join [sep] (y :: a)) with (sep :: join [sep] (y :: a)).
    rewrite splitOn_app by done. by rewrite IH.
Qed.

Lemma splitOn_pieces sep s :
  ∃ x a, splitOn sep s = x :: a ∧ Forall (λ x, sep ∉ x) (x :: a)
         ∧ ∀ y c, y ∈ x :: a → c ∈ y → c ∈ s.
Proof.
  induction s as [|c s (x & a & Hs & Hsep & Hin)]; simpl.
  - exists [], []. split_and!; [done| |].
    + constructor; [apply not_elem_of_nil|constructor].
    + by intros y c ->%list_elem_of_singleton.
  - destruct (decide (c = sep)) as [->|Hc].
    + exists [], (splitOn sep s). split_and!; [done| |].
      * rewrite Hs. constructor; [apply not_elem_of_nil|done].
      * intros y c [->|Hy]%elem_of_cons Hc; [by apply elem_of_nil in Hc|].
        right. apply (Hin y); [|done]. by rewrite <- Hs.
    + rewrite Hs. simpl. exists (c :: x), a. split_and!; [done| |].
      * apply Forall_cons in Hsep as [Hx Ha].
        constructor; [|done]. by apply not_elem_of_cons.
      * intros y c' [->|Hy]%elem_of_cons Hc'.
        -- apply elem_of_cons in Hc' as [->|Hc']; [by left|].
           right. apply (Hin x); [by left|done].
        -- right. apply (Hin y); [by right|done].
Qed.

Lemma splitOn_piece sep s x c :
  x ∈ splitOn sep s → (sep ∉ x) ∧ (c ∈ x → c ∈ s).
Proof.
  destruct (splitOn_pieces sep s) as (x0 & a & -> & Hsep & Hin). intros Hx.
  split.
  - by eapply Forall_forall in Hsep.
  - intros Hc. by apply (Hin x).
Qed.

Lemma splitLines_clean x : LF ∉ x → splitLines x = [x].
Proof.
  induction x as [|c x IH]; [done|]. intros [Hc Hx]%not_elem_of_cons.
  simpl. rewrite decide_False by done. destruct x as [|c' x]; [done|].
  rewrite decide_False.
  - by rewrite IH.
  - intros [_ ->]. apply Hx. by left.
Qed.

Lemma splitLines_app x s :
  LF ∉ x → last x ≠ Some CR →
  splitLines (x ++ LF :: s) = x :: splitLines s.
Proof.
  induction x as [|c x IH].
  - done.
  - intros [Hc Hx]%not_elem_of_cons Hlast.
    cbn [app splitLines]. rewrite decide_False by done.
    destruct x as [|c' x].
    + cbn [app]. rewrite decide_False.
      * cbn [splitLines]. by rewrite decide_True.
      * intros [-> _]. by apply Hlast.
    + cbn [app]. rewrite decide_False.
      * change (c' :: x ++ LF :: s) with ((c' :: x) ++ LF :: s).
        rewrite IH; [done..|]. by rewrite last_cons_cons in Hlast.
      * intros [_ ->]. apply Hx. by left.
Qed.

Lemma splitLines_join a :
  a ≠ [] → Forall (λ x, (LF ∉ x) ∧ last x ≠ Some CR) a →
  splitLines (join [LF] a) = a.
Proof.
  intros Ha Hall. induction Hall as [|x a [Hx Hl] Hall IH]; [done|].
  destruct a as [|y a].
  - by apply splitLines_clean.
  - rewrite join_cons.
    change ([LF] ++ join [LF] (y :: a)) with (LF :: join [LF] (y :: a)).
    rewrite splitLines_app by done. by rewrite IH.
Qed.

Lemma list_ind_two (P : jsString → Prop) :
  P [] → (∀ c, P [c]) → (∀ c c' s, P s → P (c' :: s) → P (c :: c' :: s)) →
  ∀ s, P s.
Proof.
  intros H0 H1 H2 s. assert (P s ∧ ∀ c, P (c :: s)) as [Hs _]; [|done].
  induction s as [|c s [IH1 IH2]]; [by split|].
  split; [apply IH2|]. intros c0. by apply H2.
Qed.

Lemma splitLines_step c c' s :
  splitLines (c :: c' :: s)
  = if decide (c = LF) then [] :: splitLines (c' :: s)
    else if decide (c = CR ∧ c' = LF) then [] :: splitLines s
         else consHead c (splitLines (c' :: s)).
Proof. done. Qed.

Lemma splitLines_pieces s :
  ∀ x, x ∈ splitLines s → (LF ∉ x) ∧ ∀ c, c ∈ x → c ∈ s.
Proof.
  induction s as [|c|c c' s IH1 IH2] using list_ind_two; intros x Hx.
  - apply list_elem_of_singleton in Hx as ->. split; [apply not_elem_of_nil|done].
  - simpl in Hx. destruct (decide (c = LF)) as [->|Hc].
    + apply elem_of_cons in Hx as [->|Hx]; [|apply list_elem_of_singleton in Hx as ->];
        (split; [apply not_elem_of_nil|by intros c Hc%elem_of_nil]).
    + apply list_elem_of_singleton in Hx as ->. split; [|done].
      by intros <-%list_elem_of_singleton.
  - rewrite splitLines_step in Hx. destruct (decide (c = LF)) as [->|Hc].
    + apply elem_of_cons in Hx as [->|Hx].
      * split; [apply not_elem_of_nil|by intros c Hc%elem_of_nil].
      * destruct (IH2 x Hx) as [Hlf Hin]. split; [done|].
        intros c Hc. right. by apply Hin.
    + destruct (decide (c = CR ∧ c' = LF)) as [[-> ->]|Hcr].
      * apply elem_of_cons in Hx as [->|Hx].
        -- split; [apply not_elem_of_nil|by intros c Hc'%elem_of_nil].
        -- destruct (IH1 x Hx) as [Hlf Hin]. split; [done|].
           intros c Hc'. right; right. by apply Hin.
      * destruct (splitLines (c' :: s)) as [|y a] eqn:E.
        -- apply list_elem_of_singleton in Hx as ->. split.
           ++ by intros <-%list_elem_of_singleton.
           ++ intros c0 ->%list_elem_of_singleton. by left.
        -- simpl in Hx. apply elem_of_cons in Hx as [->|Hx].
           ++ destruct (IH2 y) as [Hlf Hin]; [by left|]. split.
              ** by apply not_elem_of_cons.
              ** intros c0 [->|Hc0]%elem_of_cons; [by left|].
                 right. by apply Hin.
           ++ destruct (IH2 x) as [Hlf Hin]; [by right|]. split; [done|].
              intros c0 Hc0. right. by apply Hin.
Qed.

Lemma allEmpty_Forall (cells : list jsString) :
  allEmpty cells = true ↔ Forall (λ cell, cell = []) cells.
Proof.
  induction cells as [|cell cells IH]; [done|].
  cbn [allEmpty forallb]. fold (allEmpty cells).
  by rewrite andb_true_iff, bool_decide_eq_true, Forall_cons, IH.
Qed.

Lemma allEmpty_false (cells : list jsString) cell :
  cell ∈ cells → cell ≠ [] → allEmpty cells = false.
Proof.
  intros Hin Hne. apply not_true_is_false. rewrite allEmpty_Forall.
  intros Hall. apply Hne. by eapply Forall_forall in Hall.
Qed.

Lemma allEmpty_false_inv (cells : list jsString) :
  allEmpty cells = false → ∃ cell, cell ∈ cells ∧ cell ≠ [].
Proof.
  induction cells as [|cell cells IH]; [done|]. simpl.
  destruct cell as [|c cell].
  - simpl. intros (x & Hx & Hne)%IH. exists x. split; [by right|done].
  - intros _. exists (c :: cell). split; [by left|done].
Qed.

Lemma join_nil_inv sep a : join [sep] a = [] → allEmpty a = true.
Proof.
  destruct a as [|x [|y a]]; [done| |].
  - simpl. by intros ->.
  - rewrite join_cons. by intros [_ [=]]%app_eq_nil.
Qed.

Lemma elem_of_join c sep a :
  c ∈ join [sep] a → c = sep ∨ ∃ x, x ∈ a ∧ c ∈ x.
Proof.
  induction a as [|x a IH]; [by intros ?%elem_of_nil|].
  destruct a as [|y a].
  - simpl. intros Hc. right. exists x. split; [by left|done].
  - rewrite join_cons. intros [Hc|Hc]%elem_of_app.
    + right. exists x. split; [by left|done].
    + apply elem_of_cons in Hc as [->|Hc]; [by left|].
      destruct (IH Hc) as [->|(z & Hz & Hcz)]; [by left|].
      right. exists z. split; [by right|done].
Qed.

Lemma head_join (sp : jsString) x a :
  x ≠ [] → head (join sp (x :: a)) = head x.
Proof.
  intros Hx. destruct a as [|y a]; [done|]. rewrite join_cons.
  rewrite head_app. destruct x; done.
Qed.

Lemma last_join (sp : jsString) a x :
  x ≠ [] → last (join sp (a ++ [x])) = last x.
Proof.
  intros Hx. induction a as [|y a IH]; [done|].
  destruct (a ++ [x]) as [|z b] eqn:E.
  { by destruct a. }
  cbn [app]. rewrite E, join_cons, !last_app, IH.
  destruct (last x) eqn:El; [done|]. by apply last_None in El.
Qed.

Lemma trimmedEnds_join sep a :
  isWhiteSpace sep = false → Forall trimmedEnds a →
  trimmedEnds (join [sep] a).
Proof.
  intros Hsep Hall. induction Hall as [|x a [Hh Hl] Hall [IHh IHl]]; [done|].
  destruct a as [|y a]; [done|]. rewrite join_cons. split.
  - intros c. rewrite head_app. destruct (head x) eqn:E.
    + intros [= <-]. by apply Hh.
    + simpl. by intros [= <-].
  - intros c. rewrite last_app.
    change ([sep] ++ join [sep] (y :: a)) with (sep :: join [sep] (y :: a)).
    rewrite last_cons.
    destruct (last (join [sep] (y :: a))) eqn:E.
    + intros [= <-]. by apply IHl.
    + by intros [= <-].
Qed.

Lemma join_snoc_nil (sp : jsString) a :
  a ≠ [] → join sp (a ++ [[]]) = join sp a ++ sp.
Proof.
  intros Ha. induction a as [|x a IH]; [done|].
  destruct a as [|y a].
  - simpl. by rewrite app_nil_r.
  - cbn [app]. rewrite !join_cons.
    change (y :: a ++ [[]]) with ((y :: a) ++ [[]]).
    rewrite IH by done. by rewrite !app_assoc.
Qed.

Lemma join_trailing a k :
  a ≠ [] → join [LF] (a ++ replicate k []) = join [LF] a ++ replicate k LF.
Proof.
  intros Ha. induction k as [|k IH].
  - simpl. by rewrite !app_nil_r.
  - rewrite !replicate_S_end, !app_assoc.
    rewrite join_snoc_nil by (by destruct a). f_equal. exact IH.
Qed.

Lemma split_trailing (l : list jsString) :
  ∃ l1 k, l = l1 ++ replicate k []
          ∧ (l1 = [] ∨ ∃ l0 x, l1 = l0 ++ [x] ∧ x ≠ []).
Proof.
  induction l as [|x l (l1 & k & -> & Hl1)] using rev_ind.
  - exists [], 0%nat. split; [done|by left].
  - destruct x as [|c x].
    + exists l1, (S k). split; [|done].
      by rewrite replicate_S_end, app_assoc.
    + exists ((l1 ++ replicate k []) ++ [c :: x]), 0%nat.
      split; [by rewrite app_nil_r|]. right. by eexists _, _.
Qed.
End SplitJoin.

Section ReadWrite.
Implicit Types (data : ParsedCsvData.t) (row : list jsString).

Lemma length_pad_take {A} (n : nat) (l : list A) (x : A) :
  length (take n (l ++ replicate (n - length l) x)) = n.
Proof. rewrite length_take, length_app, length_replicate. lia. Qed.

Lemma cleanCell_trimmedEnds cell : cleanCell cell → trimmedEnds cell.
Proof. intros (Ht & _). by apply trim_fixed. Qed.

Lemma cleanCell_nil : cleanCell [].
Proof. split_and!; [done|apply not_elem_of_nil..]. Qed.

Lemma fmap_trim_clean row : Forall cleanCell row → trim <$> row = row.
Proof.
  intros Hrow. rewrite <- (list_fmap_id row) at 2.
  apply Forall_fmap_ext_1. eapply Forall_impl; [exact Hrow|].
  by intros cell (Ht & _).
Qed.

(** A line written from clean cells: trimmed, without line feed, and it
    splits back into the cells. *)
Lemma written_line row :
  row ≠ [] → Forall cleanCell row →
  let line := join [COMMA] row in
  trim line = line ∧ (LF ∉ line) ∧ last line ≠ Some CR
  ∧ trim <$> splitOn COMMA line = row.
Proof.
  intros Hne Hrow line.
  assert (Hends : trimmedEnds line).
  { apply trimmedEnds_join; [done|].
    eapply Forall_impl; [exact Hrow|]. apply cleanCell_trimmedEnds. }
  split_and!.
  - by apply trim_fixed.
  - intros [[=]|(cell & Hcell & Hc)]%elem_of_join.
    eapply Forall_forall in Hrow as (_ & _ & Hlf); [|exact Hcell]. done.
  - intros Hl. by apply Hends in Hl.
  - unfold line. rewrite splitOn_join; [by apply fmap_trim_clean|done|].
    eapply Forall_impl; [exact Hrow|]. by intros cell (_ & Hc & _).
Qed.

Lemma parseRow_written n row :
  (1 ≤ n)%nat → length row = n → Forall cleanCell row →
  parseRow n (join [COMMA] row)
  = if allEmpty row then None else Some row.
Proof.
  intros Hn Hlen Hrow.
  assert (Hne : row ≠ []) by (intros ->; simpl in Hlen; lia).
  destruct (written_line row Hne Hrow) as (Htrim & _ & _ & Hcells).
  unfold parseRow. rewrite Htrim, Hcells.
  destruct (allEmpty row) eqn:Hall.
  - by destruct (decide _).
  - rewrite decide_False.
    + rewrite Hlen, Nat.sub_diag. simpl. rewrite app_nil_r.
      rewrite take_ge; [done|]. by apply Nat.eq_le_incl.
    + intros Hnil%join_nil_inv. congruence.
Qed.

Lemma omap_parseRow_written n (rows : list (list jsString)) :
  (1 ≤ n)%nat →
  Forall (λ row, length row = n ∧ Forall cleanCell row) rows →
  omap (parseRow n) (join [COMMA] <$> rows)
  = filter (λ row, allEmpty row = false) rows.
Proof.
  intros Hn Hrows. induction Hrows as [|row rows [Hlen Hrow] Hrows IH];
    [done|].
  rewrite fmap_cons, filter_cons. cbn [omap list_omap].
  fold (omap (parseRow n) (join [COMMA] <$> rows)).
  rewrite parseRow_written by done. rewrite IH.
  destruct (allEmpty row); [by rewrite decide_False|by rewrite decide_True].
Qed.

Lemma omap_parseRow_trailing n (l : list jsString) k :
  omap (parseRow n) (l ++ replicate k []) = omap (parseRow n) l.
Proof.
  rewrite omap_app. rewrite <- (app_nil_r (omap _ l)) at 2. f_equal.
  induction k as [|k IH]; [done|]. exact IH.
Qed.

(** Writing a table and reading it back gives the table without its
    empty rows. *)
Lemma parseCsv_serializeCsv data :
  wellFormed data →
  parseCsv (serializeCsv (Some data)) = Some (dropEmptyRows data).
Proof.
  destruct data as [headers rows]. intros (Hhead & Hcells & Hrows).
  unfold dropEmptyRows.
  cbn [ParsedCsvData.headers ParsedCsvData.rows] in *.
  assert (Hn : (1 ≤ length headers)%nat).
  { destruct headers; [done|simpl; lia]. }
  assert (Hne : headers ≠ []) by (by intros ->).
  destruct (written_line headers Hne Hcells) as (HtrimH & HlfH & HcrH & HsplitH).
  set (H := join [COMMA] headers) in *.
  assert (HH : H ≠ []).
  { intros Hnil%join_nil_inv. congruence. }
  assert (Hlines : Forall (λ x, trim x = x ∧ (LF ∉ x) ∧ last x ≠ Some CR)
                     (join [COMMA] <$> rows)).
  { apply Forall_fmap. eapply Forall_impl; [exact Hrows|].
    intros row [Hlen Hrow]. simpl.
    assert (row ≠ []) by (intros ->; simpl in Hlen; lia).
    by destruct (written_line row) as (? & ? & ? & _). }
  destruct (split_trailing (join [COMMA] <$> rows))
    as (l1 & k & Hsplit & Hl1).
  rewrite Hsplit in Hlines. apply Forall_app in Hlines as [Hl1s _].
  set (J := join [LF] (H :: l1)).
  assert (HS : join [LF] (H :: (join [COMMA] <$> rows))
               = J ++ replicate k LF).
  { rewrite Hsplit. by apply (join_trailing (H :: l1)). }
  assert (HheadJ : head J = head H) by (by apply head_join).
  assert (HJ : J ≠ []).
  { intros HJ. rewrite HJ in HheadJ. by destruct H. }
  assert (HendsJ : trimmedEnds J).
  { split.
    - intros c. rewrite HheadJ. by apply trim_fixed.
    - intros c. destruct Hl1 as [->|(l0 & x & -> & Hx)].
      + apply trim_fixed. exact HtrimH.
      + unfold J. rewrite app_comm_cons, last_join by done.
        apply Forall_app in Hl1s as [_ Hxs].
        apply Forall_singleton in Hxs as (Hxt & _). by apply trim_fixed. }
  assert (Htrim : trim (J ++ replicate k LF) = J).
  { unfold trim. rewrite (trimStart_unique _ [] (J ++ replicate k LF)).
    - apply (trimEnd_unique _ (replicate k LF)); [done| |apply HendsJ].
      by apply Forall_replicate.
    - done.
    - done.
    - intros c. rewrite head_app. destruct (head J) as [c'|] eqn:E.
      + intros [= <-]. by apply (proj1 HendsJ).
      + by destruct J. }
  replace (serializeCsv
             (Some {| ParsedCsvData.headers := headers;
                      ParsedCsvData.rows := rows |}))
    with (J ++ replicate k LF) by (symmetry; exact HS).
  unfold parseCsv. cbv zeta. rewrite Htrim.
  rewrite decide_False.
  2: { intros [Hnil|Hnil]; [|done]. by apply app_eq_nil in Hnil as [? _]. }
  unfold J. rewrite splitLines_join; [|done|].
  2: { constructor; [done|]. eapply Forall_impl; [exact Hl1s|].
       by intros x (_ & ? & ?). }
  rewrite HsplitH. rewrite decide_False.
  2: { intros [Hz|Hall]; [lia|congruence]. }
  do 2 f_equal.
  rewrite <- (omap_parseRow_written (length headers) rows Hn Hrows).
  rewrite Hsplit. symmetry. apply omap_parseRow_trailing.
Qed.

(** What [parseCsv] returns is well formed. *)
Lemma parseCsv_wellFormed csvString data :
  parseCsv csvString = Some data → wellFormed data.
Proof.
  unfold parseCsv. destruct (decide _) as [|_]; [done|].
  destruct (splitLines (trim csvString)) as [|line0 lines] eqn:Hlines;
    [done|].
  destruct (decide _) as [|Hhead]; [done|]. intros [= <-].
  assert (Hcell : ∀ line piece,
            line ∈ line0 :: lines → piece ∈ splitOn COMMA line →
            cleanCell (trim piece)).
  { intros line piece Hline Hpiece. rewrite <- Hlines in Hline.
    apply splitLines_pieces in Hline as [Hlf _].
    split_and!.
    - apply trim_idem.
    - intros Hc%elem_of_trim.
      by apply (splitOn_piece COMMA line piece COMMA) in Hpiece as [? _].
    - intros Hc%elem_of_trim.
      apply (splitOn_piece COMMA line piece LF) in Hpiece as [_ Hin].
      by apply Hlf, Hin. }
  split_and!; cbn [ParsedCsvData.headers ParsedCsvData.rows].
  - apply not_true_is_false. intros Hall. apply Hhead. by right.
  - apply Forall_fmap, Forall_forall. intros piece Hpiece.
    apply (Hcell line0); [by left|done].
  - apply Forall_forall. intros row Hrow.
    apply list_elem_of_omap in Hrow as (line & Hline & Hrow).
    unfold parseRow in Hrow. cbv zeta in Hrow.
    repeat case_match; try done. injection Hrow as <-.
    set (width := length (trim <$> splitOn COMMA line0)).
    set (cells := trim <$> splitOn COMMA line).
    split.
    + apply length_pad_take.
    + apply Forall_take, Forall_app. split.
      * apply Forall_fmap, Forall_forall. intros piece Hpiece.
        apply (Hcell line); [by right|done].
      * apply Forall_replicate, cleanCell_nil.
Qed.
End ReadWrite.

Section Tables.
Implicit Types (data : ParsedCsvData.t) (row : list jsString).

Local Abbreviation filled := (λ row : list jsString, allEmpty row = false).

Lemma Forall_filter_any {B} (P Q : B → Prop) `{!∀ x, Decision (Q x)}
    (l : list B) :
  Forall P l → Forall P (filter Q l).
Proof.
  induction 1 as [|y l Hy _ IH]; [constructor|].
  rewrite filter_cons. destruct (decide (Q y)); [by constructor|done].
Qed.

Lemma wellFormed_dropEmptyRows data :
  wellFormed data → wellFormed (dropEmptyRows data).
Proof.
  intros (Hhead & Hcells & Hrows). split_and!; [done..|].
  by apply Forall_filter_any.
Qed.

Lemma dropEmptyRows_filled data :
  Forall filled (ParsedCsvData.rows data) → dropEmptyRows data = data.
Proof.
  intros Hrows. destruct data as [headers rows]. unfold dropEmptyRows.
  simpl in *. f_equal. by apply filter_all.
Qed.

Lemma dropEmptyRows_idem data :
  dropEmptyRows (dropEmptyRows data) = dropEmptyRows data.
Proof.
  unfold dropEmptyRows. simpl. f_equal. by apply list_filter_filter_l.
Qed.

(** X24. Writing a table and reading it back. For a table with a header
    that is not blank, clean cells (trimmed, no comma, no line feed) and
    rows as long as the header, [parseCsv] after [serializeCsv] gives the
    same header and the rows that have a cell that is not empty, in
    order; so it gives the table itself when no row is empty. *)
Theorem csv_write_then_read data :
  wellFormed data →
  parseCsv (serializeCsv (Some data)) = Some (dropEmptyRows data)
  ∧ (Forall filled (ParsedCsvData.rows data) →
     parseCsv (serializeCsv (Some data)) = Some data).
Proof.
  intros Hwf. split.
  - by apply parseCsv_serializeCsv.
  - intros Hrows. rewrite parseCsv_serializeCsv by done.
    by rewrite dropEmptyRows_filled.
Qed.

Lemma csv_write_then_read_witness :
  let name : jsString := [110; 97; 109; 101]%N in
  let qty : jsString := [113; 116; 121]%N in
  let pen : jsString := [112; 101; 110]%N in
  let two : jsString := [50]%N in
  let data := {| ParsedCsvData.headers := [name; qty];
                 ParsedCsvData.rows := [[pen; two]; [[]; []]; [[]; two]] |} in
  parseCsv (serializeCsv (Some data))
  = Some {| ParsedCsvData.headers := [name; qty];
            ParsedCsvData.rows := [[pen; two]; [[]; two]] |}.
Proof.
  intros name qty pen two data.
  assert (Hclean : ∀ cell, cell ∈ [name; qty; pen; two; []] → cleanCell cell).
  { intros cell Hcell. repeat (apply elem_of_cons in Hcell as [->|Hcell]);
      [..|by apply elem_of_nil in Hcell];
      (split_and!; [reflexivity|apply (bool_decide_unpack _); reflexivity..]). }
  assert (Hwf : wellFormed data).
  { split_and!; [reflexivity|..]; repeat constructor; apply Hclean;
      set_solver. }
  exact (proj1 (csv_write_then_read data Hwf)).
Defined.

(** X25. Reading a table. A string that is blank gives no table. A table
    that [parseCsv] returns has a header that is not blank, clean cells
    and rows as long as the header; written and read once more it may
    lose rows, those whose cells within the header are all empty, and
    from then on writing and reading changes nothing. There is an input
    whose table does lose a row. *)
Theorem csv_read_settles :
  (∀ csvString, Forall (λ c, isWhiteSpace c = true) csvString →
     parseCsv csvString = None)
  ∧ (∀ csvString data, parseCsv csvString = Some data →
       wellFormed data
       ∧ parseCsv (serializeCsv (Some data)) = Some (dropEmptyRows data)
       ∧ parseCsv (serializeCsv (Some (dropEmptyRows data)))
         = Some (dropEmptyRows data))
  ∧ (∃ csvString data, parseCsv csvString = Some data
                       ∧ dropEmptyRows data ≠ data).
Proof.
  split_and!.
  - intros csvString Hblank. unfold parseCsv.
    rewrite decide_True; [done|]. right. by apply trim_white.
  - intros csvString data Hread.
    pose proof (parseCsv_wellFormed _ _ Hread) as Hwf. split_and!.
    + exact Hwf.
    + by apply parseCsv_serializeCsv.
    + rewrite parseCsv_serializeCsv by (by apply wellFormed_dropEmptyRows).
      by rewrite dropEmptyRows_idem.
  - exists [97; 10; 32; 44; 120]%N.
    exists {| ParsedCsvData.headers := [[97%N]];
              ParsedCsvData.rows := [[[]]] |}.
    split; [reflexivity|]. intros [=].
Qed.

Lemma allEmpty_replicate n : allEmpty (replicate n []) = true.
Proof. apply allEmpty_Forall. by apply Forall_replicate. Qed.

Lemma length_spliceIn {B} (i : nat) (x : B) (l : list B) :
  length (spliceIn i x l) = S (length l).
Proof.
  unfold spliceIn. rewrite length_app, length_cons, length_take, length_drop.
  lia.
Qed.

Lemma Forall_spliceIn {B} (P : B → Prop) (i : nat) (x : B) (l : list B) :
  P x → Forall P l → Forall P (spliceIn i x l).
Proof.
  intros Hx Hl. unfold spliceIn. apply Forall_app. split.
  - by apply Forall_take.
  - constructor; [done|]. by apply Forall_drop.
Qed.

Lemma elem_of_spliceIn {B} (i : nat) (x y : B) (l : list B) :
  y ∈ l → y ∈ spliceIn i x l.
Proof.
  intros Hy. rewrite <- (take_drop i l) in Hy. unfold spliceIn.
  apply elem_of_app in Hy as [Hy|Hy]; apply elem_of_app; [by left|].
  right. by right.
Qed.

Lemma cleanCell_NuevaCol : cleanCell NuevaCol.
Proof.
  split_and!; [reflexivity|apply (bool_decide_unpack _); reflexivity..].
Qed.

Lemma filled_insert row (i : nat) value :
  value ≠ [] → filled row → filled (<[i := value]> row).
Proof.
  intros Hv Hrow. destruct (decide (i < length row)%nat) as [Hi|Hi].
  - apply (allEmpty_false _ value); [|done]. by apply list_elem_of_insert.
  - rewrite list_insert_ge; [done|]. by apply Nat.nlt_ge.
Qed.

(** X26. The table editor, on a table that is well formed and has no
    empty row, once its result is written to the content and read back:
    a row inserted is lost, above or below and at any place; a row
    deleted is gone, and the empty row that stands in for the last one
    is lost too; a column inserted stays, named [NuevaCol], with an empty
    cell in every row; a cell set to a clean value that is not empty is
    kept. *)
Theorem table_edits_read_back data :
  wellFormed data →
  Forall filled (ParsedCsvData.rows data) →
  (∀ above rowIndex,
     writtenAndRead (insertRow above rowIndex data) = Some data)
  ∧ (∀ rowIndex,
       writtenAndRead (deleteRow rowIndex data)
       = Some {| ParsedCsvData.headers := ParsedCsvData.headers data;
                 ParsedCsvData.rows :=
                   delete rowIndex (ParsedCsvData.rows data) |})
  ∧ (∀ before colIndex,
       writtenAndRead (insertColumn before colIndex data)
       = Some (insertColumn before colIndex data))
  ∧ (∀ rowIndex colIndex value,
       cleanCell value → value ≠ [] →
       writtenAndRead (cellEdit rowIndex colIndex value data)
       = Some (cellEdit rowIndex colIndex value data)).
Proof.
  destruct data as [headers rows]. intros (Hhead & Hcells & Hrows) Hfilled.
  cbn [ParsedCsvData.headers ParsedCsvData.rows] in *.
  unfold writtenAndRead. split_and!.
  - intros above rowIndex. rewrite parseCsv_serializeCsv.
    + unfold dropEmptyRows, insertRow, spliceIn. simpl. f_equal.
      rewrite filter_app, filter_cons, decide_False
        by (by rewrite allEmpty_replicate).
      rewrite <- filter_app, take_drop. f_equal. by apply filter_all.
    + split_and!; [done..|]. simpl. apply Forall_spliceIn; [|done].
      split; [apply length_replicate|].
      apply Forall_replicate, cleanCell_nil.
  - intros rowIndex. unfold deleteRow.
    cbn [ParsedCsvData.headers ParsedCsvData.rows].
    destruct (decide (rowIndex < length rows)%nat) as [Hlt|Hge].
    + destruct (delete rowIndex rows) as [|row rest] eqn:Hdel.
      * rewrite parseCsv_serializeCsv.
        -- unfold dropEmptyRows. simpl. f_equal.
           rewrite filter_cons, decide_False
             by (by rewrite allEmpty_replicate).
           done.
        -- split_and!; [done..|]. simpl. constructor; [|constructor].
           split; [apply length_replicate|].
           apply Forall_replicate, cleanCell_nil.
      * rewrite <- Hdel. rewrite parseCsv_serializeCsv.
        -- apply f_equal, dropEmptyRows_filled. simpl.
           by apply Forall_delete.
        -- split_and!; [done..|]. simpl. by apply Forall_delete.
    + rewrite parseCsv_serializeCsv by done.
      rewrite dropEmptyRows_filled by done.
      do 2 f_equal. rewrite delete_take_drop.
      rewrite take_ge, drop_ge by lia. by rewrite app_nil_r.
  - intros before colIndex. rewrite parseCsv_serializeCsv.
    + apply f_equal, dropEmptyRows_filled. simpl.
      apply Forall_fmap. eapply Forall_impl; [exact Hfilled|].
      intros row (cell & Hcell & Hne)%allEmpty_false_inv. simpl.
      apply (allEmpty_false _ cell); [|done]. by apply elem_of_spliceIn.
    + unfold insertColumn. split_and!; simpl.
      * apply (allEmpty_false _ NuevaCol); [|done].
        unfold spliceIn. apply elem_of_app. right. by left.
      * apply Forall_spliceIn; [apply cleanCell_NuevaCol|done].
      * apply Forall_fmap. eapply Forall_impl; [exact Hrows|].
        intros row [Hlen Hrow]. simpl. split.
        -- by rewrite !length_spliceIn, Hlen.
        -- apply Forall_spliceIn; [apply cleanCell_nil|done].
  - intros rowIndex colIndex value Hvalue Hne.
    rewrite parseCsv_serializeCsv.
    + apply f_equal, dropEmptyRows_filled. simpl.
      apply Forall_alter; [done|]. intros row _. by apply filled_insert.
    + split_and!; [done..|]. simpl.
      apply Forall_alter; [done|]. intros row _ [Hlen Hrow]. split.
      * by rewrite length_insert.
      * by apply Forall_insert.
Qed.

Lemma table_edits_read_back_witness :
  let name : jsString := [110; 97; 109; 101]%N in
  let pen : jsString := [112; 101; 110]%N in
  let data := {| ParsedCsvData.headers := [name];
                 ParsedCsvData.rows := [[pen]] |} in
  writtenAndRead (insertRow false 0 data) = Some data
  ∧ writtenAndRead (deleteRow 0 data)
    = Some {| ParsedCsvData.headers := [name]; ParsedCsvData.rows := [] |}.
Proof.
  intros name pen data.
  assert (Hclean : ∀ cell, cell ∈ [name; pen] → cleanCell cell).
  { intros cell Hcell. repeat (apply elem_of_cons in Hcell as [->|Hcell]);
      [..|by apply elem_of_nil in Hcell];
      (split_and!; [reflexivity|apply (bool_decide_unpack _); reflexivity..]). }
  assert (Hwf : wellFormed data).
  { split_and!; [reflexivity|..]; repeat constructor; apply Hclean;
      set_solver. }
  assert (Hfilled : Forall filled (ParsedCsvData.rows data)).
  { repeat constructor. }
  destruct (table_edits_read_back data Hwf Hfilled) as (Hins & Hdel & _).
  split; [apply Hins | apply (Hdel 0%nat)].
Defined.

Lemma delete_spliceIn {B} (i : nat) (x : B) (l : list B) :
  (i ≤ length l)%nat → delete i (spliceIn i x l) = l.
Proof.
  revert i. induction l as [|y l IH]; intros [|i] Hi; simpl in *;
    [done|lia|done|].
  f_equal. apply IH. lia.
Qed.

(** X27. In the table editor a deletion undoes the insertion before it:
    the column put in at a place within a table that has a column is
    taken out by [deleteColumn] at that place, and so is the row, when
    the table had a row. A table with one column keeps it. *)
Theorem table_delete_undoes_insert data :
  Forall (λ row, length row = length (ParsedCsvData.headers data))
         (ParsedCsvData.rows data) →
  (∀ (before : bool) (colIndex : nat),
     let place := if before then colIndex else S colIndex in
     ParsedCsvData.headers data ≠ [] →
     (place ≤ length (ParsedCsvData.headers data))%nat →
     deleteColumn place (insertColumn before colIndex data) = data)
  ∧ (∀ (above : bool) (rowIndex : nat),
       let place := if above then rowIndex else S rowIndex in
       (place ≤ length (ParsedCsvData.rows data))%nat →
       ParsedCsvData.rows data ≠ [] →
       deleteRow place (insertRow above rowIndex data) = data)
  ∧ (∀ colIndex,
       (length (ParsedCsvData.headers data) ≤ 1)%nat →
       deleteColumn colIndex data = data).
Proof.
  destruct data as [headers rows]. intros Hrows.
  cbn [ParsedCsvData.headers ParsedCsvData.rows] in *. split_and!.
  - intros before colIndex. cbv zeta.
    set (place := if before then colIndex else S colIndex).
    intros Hne Hplace. unfold deleteColumn, insertColumn.
    cbn [ParsedCsvData.headers ParsedCsvData.rows]. fold place.
    rewrite decide_True
      by (rewrite length_spliceIn; destruct headers; [done|simpl; lia]).
    f_equal; [by apply delete_spliceIn|].
    rewrite <- list_fmap_compose. rewrite <- (list_fmap_id rows) at 2.
    apply Forall_fmap_ext_1. eapply Forall_impl; [exact Hrows|].
    intros row Hlen. simpl. apply delete_spliceIn.
    rewrite Hlen. exact Hplace.
  - intros above rowIndex. cbv zeta.
    set (place := if above then rowIndex else S rowIndex).
    intros Hplace Hne. unfold deleteRow, insertRow.
    cbn [ParsedCsvData.headers ParsedCsvData.rows]. fold place.
    rewrite decide_True by (rewrite length_spliceIn; lia).
    rewrite delete_spliceIn by done. by destruct rows.
  - intros colIndex Hone. unfold deleteColumn.
    cbn [ParsedCsvData.headers]. by rewrite decide_False by lia.
Qed.

Lemma table_delete_undoes_insert_witness :
  let name : jsString := [110; 97; 109; 101]%N in
  let pen : jsString := [112; 101; 110]%N in
  let data := {| ParsedCsvData.headers := [name];
                 ParsedCsvData.rows := [[pen]] |} in
  deleteColumn 1 (insertColumn false 0 data) = data
  ∧ deleteRow 0 (insertRow true 0 data) = data.
Proof.
  intros name pen data.
  destruct (table_delete_undoes_insert data) as (Hcol & Hrow & _).
  - repeat constructor.
  - split.
    + apply (Hcol false 0%nat); [done|simpl; lia].
    + apply (Hrow true 0%nat); [simpl; lia|done].
Defined.
End Tables.
